(** * Access rules and tag propagation: a shallow embedding

    The development follows the Python sources of the application:
    [utils/validators.py], [utils/db_connection.py], [utils/audit_logger.py],
    [utils/access_manager.py], [utils/auth.py], [utils/rls_abac_manager.py]
    and the two pages that render the row filter and the access summary.
    The last part adds [utils/tag_manager.py], [config/settings.py], the
    filtered queries of the access manager and the audit logger, and the
    forms, metrics and lists of the rules page and the audit page.

    Conventions.
    - A Python [str] is a [string] whose characters are code points below 256.
    - A Python [int] is a [Z]; a [date] is its day ordinal, a [Z].
    - A call that may raise returns an [outcome]; code that talks to the
      warehouse runs in the state-and-exception monad [M] over [World].
    - [int] of a string has the interpreter's default limit of 4300
      digits; the same limit of [str] on an integer, and memory, are not
      modelled. *)

From Stdlib Require Import ZArith List String Ascii Bool Lia.
From Stdlib Require Import Sorting.Sorted Sorting.Permutation.
Import ListNotations.

Local Open Scope string_scope.
Local Open Scope Z_scope.

(* ================================================================== *)
(** * Python string builtins used by the sources *)
(* ================================================================== *)

Module PyStr.

Definition code (c : ascii) : Z := Z.of_N (N_of_ascii c).

(** [str.isspace] on the code points below 256; this is the set that
    [str.strip()] removes. *)
Definition is_space (c : ascii) : bool :=
  let n := code c in
  ((9 <=? n) && (n <=? 13)) || ((28 <=? n) && (n <=? 32))
  || (n =? 133) || (n =? 160).

(** The white space that [int()] skips around a literal. *)
Definition is_int_space (c : ascii) : bool :=
  let n := code c in
  ((9 <=? n) && (n <=? 13)) || (n =? 32) || (n =? 133) || (n =? 160).

Fixpoint lstrip_by (sp : ascii -> bool) (s : string) : string :=
  match s with
  | EmptyString => EmptyString
  | String c r => if sp c then lstrip_by sp r else s
  end.

Fixpoint rstrip_by (sp : ascii -> bool) (s : string) : string :=
  match s with
  | EmptyString => EmptyString
  | String c r =>
      match rstrip_by sp r with
      | EmptyString => if sp c then EmptyString else String c EmptyString
      | r' => String c r'
      end
  end.

(** [s.strip()] *)
Definition strip (s : string) : string := rstrip_by is_space (lstrip_by is_space s).

(** [not s] for a string: the empty string is falsy. *)
Definition is_empty (s : string) : bool :=
  match s with EmptyString => true | _ => false end.

(** [ch in s] for a one-character [ch]. *)
Fixpoint contains (ch : ascii) (s : string) : bool :=
  match s with
  | EmptyString => false
  | String c r => Ascii.eqb c ch || contains ch r
  end.

(** [s.split(sep)] for a one-character separator. *)
Fixpoint split (sep : ascii) (s : string) : list string :=
  match s with
  | EmptyString => [EmptyString]
  | String c r =>
      if Ascii.eqb c sep then EmptyString :: split sep r
      else match split sep r with
           | h :: t => String c h :: t
           | [] => [String c EmptyString]
           end
  end.

(** [s.split(sep, maxsplit=n)] for a one-character separator. *)
Fixpoint splitn (sep : ascii) (s : string) (n : nat) : list string :=
  match n with
  | O => [s]
  | S n' =>
      match s with
      | EmptyString => [EmptyString]
      | String c r =>
          if Ascii.eqb c sep then EmptyString :: splitn sep r n'
          else match splitn sep r n with
               | h :: t => String c h :: t
               | [] => [String c EmptyString]
               end
      end
  end.

(** [sep.join(parts)] *)
Fixpoint join (sep : string) (parts : list string) : string :=
  match parts with
  | [] => EmptyString
  | [p] => p
  | p :: rest => p ++ sep ++ join sep rest
  end.

(** [s.replace(ch, by)] for a one-character [ch]. *)
Fixpoint replace (ch : ascii) (by_ : string) (s : string) : string :=
  match s with
  | EmptyString => EmptyString
  | String c r =>
      if Ascii.eqb c ch then by_ ++ replace ch by_ r
      else String c (replace ch by_ r)
  end.

(** The first [n] characters, [s[:n]]. *)
Fixpoint take (n : nat) (s : string) : string :=
  match n, s with
  | S n', String c r => String c (take n' r)
  | _, _ => EmptyString
  end.

(** ** Decimal rendering and parsing of integers *)

Definition digit_char (d : Z) : ascii := ascii_of_N (Z.to_N (48 + d)).

Definition digit_val (c : ascii) : option Z :=
  let n := code c in
  if (48 <=? n) && (n <=? 57) then Some (n - 48) else None.

Fixpoint digits_fuel (fuel : nat) (n : Z) (acc : string) : string :=
  match fuel with
  | O => acc
  | S f =>
      if n <? 10 then String (digit_char n) acc
      else digits_fuel f (n / 10) (String (digit_char (n mod 10)) acc)
  end.

(** The decimal digits of a non-negative integer. *)
Definition digits (n : Z) : string :=
  digits_fuel (S (Z.to_nat (Z.log2 n))) n EmptyString.

(** [str(n)] for an [int]. *)
Definition str_of_int (n : Z) : string :=
  if n <? 0 then String "-" (digits (- n)) else digits n.

(** The digit part of an [int()] literal: decimal digits, where one
    underscore may stand between two digits. *)
Fixpoint int_digits (s : string) (acc : Z) (after_digit : bool) : option Z :=
  match s with
  | EmptyString => if after_digit then Some acc else None
  | String c r =>
      match digit_val c with
      | Some d => int_digits r (10 * acc + d) true
      | None =>
          if Ascii.eqb c "_" && after_digit then int_digits r acc false
          else None
      end
  end.

Definition dquote : ascii := ascii_of_N 34.
Definition backslash : ascii := ascii_of_N 92.

Definition hex_char (d : Z) : ascii :=
  if d <? 10 then ascii_of_N (Z.to_N (48 + d)) else ascii_of_N (Z.to_N (87 + d)).

(** [str.isprintable] on one code point below 256. *)
Definition is_printable (c : ascii) : bool :=
  let n := code c in
  ((32 <=? n) && (n <=? 126)) || ((161 <=? n) && negb (n =? 173)).

Fixpoint repr_body (quote : ascii) (s : string) : string :=
  match s with
  | EmptyString => EmptyString
  | String c r =>
      let rest := repr_body quote r in
      if Ascii.eqb c quote || Ascii.eqb c backslash
      then String backslash (String c rest)
      else if code c =? 9 then String backslash (String "t" rest)
      else if code c =? 10 then String backslash (String "n" rest)
      else if code c =? 13 then String backslash (String "r" rest)
      else if is_printable c then String c rest
      else String backslash (String "x"
             (String (hex_char (code c / 16)) (String (hex_char (code c mod 16)) rest)))
  end.

(** [repr(s)] for a string. *)
Definition repr (s : string) : string :=
  let quote : ascii :=
    if contains "'" s && negb (contains dquote s) then dquote else "'"%char in
  String quote (repr_body quote s) ++ String quote EmptyString.

(** The interpreter's default limit on the digits of an integer literal,
    [sys.get_int_max_str_digits()]. *)
Definition max_str_digits : Z := 4300.

(** Every integer that [int] reads lies below this bound in absolute
    value. *)
Definition int_limit : Z := 10 ^ max_str_digits.

(** The sign of a literal and what follows the sign. *)
Definition int_sign (t : string) : bool * string :=
  match t with
  | String "+" d => (false, d)
  | String "-" d => (true, d)
  | _ => (false, t)
  end.

(** The scan that [int] makes before it converts: it runs over digits and
    underscores and counts the digits. [at_edge] holds at the start and
    right after an underscore, where an underscore or the end of the scan
    is a syntax error: then there is no count. *)
Fixpoint scanned_digits (s : string) (at_edge : bool) (count : Z) : option Z :=
  match s with
  | EmptyString => if at_edge then None else Some count
  | String c r =>
      match digit_val c with
      | Some _ => scanned_digits r false (count + 1)
      | None =>
          if Ascii.eqb c "_" then
            if at_edge then None else scanned_digits r true count
          else if at_edge then None else Some count
      end
  end.

(** [int(s)]: the value, or the text of the [ValueError] it raises. The
    digit limit is tested after the scan and before anything that follows
    the scanned part is looked at. *)
Definition int_of_str (s : string) : Z + string :=
  let t := rstrip_by is_int_space (lstrip_by is_int_space s) in
  let '(negative, d) := int_sign t in
  let over :=
    match scanned_digits d true 0 with
    | Some count => if max_str_digits <? count then Some count else None
    | None => None
    end in
  match over with
  | Some count =>
      inr ("Exceeds the limit (" ++ str_of_int max_str_digits
             ++ " digits) for integer string conversion: value has "
             ++ str_of_int count
             ++ " digits; use sys.set_int_max_str_digits() to increase the limit")
  | None =>
      match int_digits d 0 false with
      | Some n => inl (if negative then - n else n)
      | None => inr ("invalid literal for int() with base 10: " ++ take 200 (repr s))
      end
  end.

(** [str(xs)] for a list of integers. *)
Definition str_of_list (xs : list Z) : string :=
  "[" ++ join ", " (map str_of_int xs) ++ "]".

(** [range(start, stop)] as a list. *)
Definition range (start stop : Z) : list Z :=
  map (fun i => start + Z.of_nat i) (seq 0 (Z.to_nat (stop - start))).

(** Insertion into an ascending list; [sorted] is the insertion sort. *)
Fixpoint insert (x : Z) (l : list Z) : list Z :=
  match l with
  | [] => [x]
  | y :: t => if x <=? y then x :: l else y :: insert x t
  end.

(** [sorted(xs)] for integers. *)
Fixpoint sorted (l : list Z) : list Z :=
  match l with
  | [] => []
  | x :: t => insert x (sorted t)
  end.

(** [set(xs)]: the distinct elements. Python fixes no iteration order for a
    set; every use in the sources sorts the set at once. *)
Definition set_of (l : list Z) : list Z := nodup Z.eq_dec l.

(** Every character of [s] satisfies [p]. *)
Fixpoint all_chars (p : ascii -> bool) (s : string) : bool :=
  match s with
  | EmptyString => true
  | String c r => p c && all_chars p r
  end.

Definition is_digit (c : ascii) : bool :=
  match digit_val c with Some _ => true | None => false end.

End PyStr.

(* ================================================================== *)
(** * utils/validators.py *)
(* ================================================================== *)

Module Validators.
Import PyStr.

(** The pair [(ok, value)] that [parse_customer_ids] returns: the ids on
    success, the message on failure. *)
Definition parse_result : Type := bool * (list Z + string).

Definition format_error (exc : string) : parse_result :=
  (false, inr ("Invalid customer ID format: " ++ exc)).

(** The body of the [for part in parts] loop with the list [ids] built so
    far; a [ValueError] of [int] leaves through the [except] clause. *)
Fixpoint parse_parts (parts : list string) (ids : list Z) : parse_result :=
  match parts with
  | [] => (true, inl (sorted (set_of ids)))
  | part0 :: rest =>
      let part := strip part0 in
      if is_empty part then parse_parts rest ids
      else if contains "-" part then
        match splitn "-" part 1 with
        | [start_raw; end_raw] =>
            match int_of_str (strip start_raw) with
            | inr exc => format_error exc
            | inl start =>
                match int_of_str (strip end_raw) with
                | inr exc => format_error exc
                | inl end_ =>
                    if end_ <? start then (false, inr ("Invalid range " ++ part))
                    else parse_parts rest (ids ++ range start (end_ + 1))
                end
            end
        | other =>
            format_error
              ("not enough values to unpack (expected 2, got "
                 ++ str_of_int (Z.of_nat (List.length other)) ++ ")")
        end
      else
        match int_of_str part with
        | inr exc => format_error exc
        | inl n => parse_parts rest (ids ++ [n])
        end
  end.

Definition parse_customer_ids (customer_ids_str : string) : parse_result :=
  if is_empty customer_ids_str || is_empty (strip customer_ids_str)
  then (true, inl [])
  else parse_parts (split "," customer_ids_str) [].

(** [validate_dates]; a date is always truthy. *)
Definition validate_dates (effective_date : Z) (expiration_date : option Z)
  : bool * option string :=
  match expiration_date with
  | Some x =>
      if x <=? effective_date
      then (false, Some "Expiration date must be after effective date.")
      else (true, None)
  | None => (true, None)
  end.

Definition normalize_customer_ids (values : list Z) : list Z :=
  sorted (set_of values).

End Validators.

(* ================================================================== *)
(** * utils/db_connection.py and config/settings.py *)
(* ================================================================== *)

Module Db.
Import PyStr.

(** Values that travel in result rows and statement parameters. *)
Inductive value : Type :=
| VNone
| VBool (b : bool)
| VInt (n : Z)
| VStr (s : string).

(** [bool(v)] *)
Definition truthy (v : value) : bool :=
  match v with
  | VNone => false
  | VBool b => b
  | VInt n => negb (n =? 0)
  | VStr s => negb (is_empty s)
  end.

(** A result row: the dictionary from column name to value. *)
Definition row : Type := list (string * value).

(** [row.get(key)] *)
Fixpoint get (r : row) (key : string) : value :=
  match r with
  | [] => VNone
  | (k, v) :: rest => if String.eqb k key then v else get rest key
  end.

Definition opt_str (o : option string) : value :=
  match o with Some s => VStr s | None => VNone end.

(** Values bound to the named parameters of a statement. *)
Inductive param : Type :=
| PNone
| PInt (n : Z)
| PStr (s : string)
| PDate (d : Z).

Definition p_str (o : option string) : param :=
  match o with Some s => PStr s | None => PNone end.

Definition p_date (o : option Z) : param :=
  match o with Some d => PDate d | None => PNone end.

(** An exception: its class and its text. Every one is an [Exception]. *)
Inductive exn : Type := Exception (cls msg : string).

Inductive outcome (A : Type) : Type :=
| Return (a : A)
| Raise (e : exn).
Arguments Return {A} a.
Arguments Raise {A} e.

Record AppSettings : Type := {
  catalog : string;
  schema : string;
  access_table : string;
  audit_table : string;
  admin_group : string
}.

Definition qualify_table (table_name : string) (settings : AppSettings) : string :=
  if contains "." table_name then table_name
  else catalog settings ++ "." ++ schema settings ++ "." ++ table_name.

(** ** Statements

    Every statement the sources hand to [cursor.execute]: one constructor
    per query template, carrying the interpolated pieces and the bound
    parameters. [sql_text] is the text of the query and [sql_params] the
    parameter dictionary. *)
Inductive statement : Type :=
| InsertAccessRule (table customer_ids_array group_name access_type : string)
    (effective_date : Z) (expiration_date : option Z) (notes : option string)
    (user : string)
| UpdateAccessRule (table customer_ids_array : string) (rule_id : Z)
    (group_name access_type : string) (effective_date : Z)
    (expiration_date : option Z) (notes : option string) (user : string)
| ExpireAccessRule (table : string) (rule_id : Z) (user : string)
| DeleteAccessRule (table : string) (rule_id : Z)
| InsertAudit (table user action_type object_type object_name : string)
    (old_value new_value notes : option string)
| SelectIsMember (group_name : string)
| SelectCatalogTags (tag_name : string) (catalog_name : option string)
| SelectSchemaTags (tag_name : string) (catalog_name schema_name : option string)
| SelectTableTags (tag_name : string) (catalog_name schema_name : option string)
| SelectTablesInCatalog (catalog : string)
| SelectTablesInSchema (catalog schema : string)
| SelectColumns (catalog schema table : string)
| Sql (text : string).

Definition nl : string := String (ascii_of_N 10) EmptyString.

Definition lines (ls : list string) : string := join nl ls.

Definition and_clause (column : string) (o : option string) : string :=
  match o with
  | Some _ => " AND " ++ column ++ " = :" ++ column
  | None => EmptyString
  end.

Definition sql_text (s : statement) : string :=
  match s with
  | InsertAccessRule table customer_ids_array _ _ _ _ _ _ =>
      lines
        [ EmptyString;
          "        INSERT INTO " ++ table;
          "        (group_name, customer_ids, access_type, effective_date, expiration_date,";
          "         notes, created_by, created_at, modified_by, modified_at)";
          "        VALUES (";
          "            :group_name,";
          "            " ++ customer_ids_array ++ ",";
          "            :access_type,";
          "            :effective_date,";
          "            :expiration_date,";
          "            :notes,";
          "            :user,";
          "            CURRENT_TIMESTAMP(),";
          "            :user,";
          "            CURRENT_TIMESTAMP()";
          "        )";
          "    " ]
  | UpdateAccessRule table customer_ids_array _ _ _ _ _ _ _ =>
      lines
        [ EmptyString;
          "        UPDATE " ++ table;
          "        SET";
          "            group_name = :group_name,";
          "            customer_ids = " ++ customer_ids_array ++ ",";
          "            access_type = :access_type,";
          "            effective_date = :effective_date,";
          "            expiration_date = :expiration_date,";
          "            notes = :notes,";
          "            modified_by = :user,";
          "            modified_at = CURRENT_TIMESTAMP()";
          "        WHERE id = :rule_id";
          "    " ]
  | ExpireAccessRule table _ _ =>
      lines
        [ EmptyString;
          "        UPDATE " ++ table;
          "        SET";
          "            expiration_date = CURRENT_DATE(),";
          "            modified_by = :user,";
          "            modified_at = CURRENT_TIMESTAMP()";
          "        WHERE id = :rule_id";
          "    " ]
  | DeleteAccessRule table _ =>
      lines
        [ EmptyString;
          "        DELETE FROM " ++ table;
          "        WHERE id = :rule_id";
          "          AND expiration_date <= CURRENT_DATE()";
          "    " ]
  | InsertAudit table _ _ _ _ _ _ _ =>
      lines
        [ EmptyString;
          "        INSERT INTO " ++ table;
          "        (timestamp, user, action_type, object_type, object_name, old_value, new_value, notes)";
          "        VALUES (";
          "            CURRENT_TIMESTAMP(),";
          "            :user,";
          "            :action_type,";
          "            :object_type,";
          "            :object_name,";
          "            :old_value,";
          "            :new_value,";
          "            :notes";
          "        )";
          "    " ]
  | SelectIsMember group_name =>
      "SELECT is_member('" ++ group_name ++ "') AS is_admin"
  | SelectCatalogTags _ catalog_name =>
      lines
        [ EmptyString;
          "        SELECT catalog_name, tag_value";
          "        FROM system.information_schema.catalog_tags";
          "        WHERE tag_name = :tag_name";
          "    " ]
      ++ and_clause "catalog_name" catalog_name
  | SelectSchemaTags _ catalog_name schema_name =>
      lines
        [ EmptyString;
          "        SELECT catalog_name, schema_name, tag_value";
          "        FROM system.information_schema.schema_tags";
          "        WHERE tag_name = :tag_name";
          "    " ]
      ++ and_clause "catalog_name" catalog_name
      ++ and_clause "schema_name" schema_name
  | SelectTableTags _ catalog_name schema_name =>
      lines
        [ EmptyString;
          "        SELECT catalog_name, schema_name, table_name, tag_value";
          "        FROM system.information_schema.table_tags";
          "        WHERE tag_name = :tag_name";
          "    " ]
      ++ and_clause "catalog_name" catalog_name
      ++ and_clause "schema_name" schema_name
  | SelectTablesInCatalog _ =>
      lines
        [ EmptyString;
          "        SELECT DISTINCT table_catalog, table_schema, table_name";
          "        FROM system.information_schema.tables";
          "        WHERE table_catalog = :catalog";
          "    " ]
  | SelectTablesInSchema _ _ =>
      lines
        [ EmptyString;
          "        SELECT DISTINCT table_catalog, table_schema, table_name";
          "        FROM system.information_schema.tables";
          "        WHERE table_catalog = :catalog";
          "          AND table_schema = :schema";
          "    " ]
  | SelectColumns _ _ _ =>
      lines
        [ EmptyString;
          "        SELECT column_name";
          "        FROM system.information_schema.columns";
          "        WHERE table_catalog = :catalog";
          "          AND table_schema = :schema";
          "          AND table_name = :table";
          "        ORDER BY column_name";
          "    " ]
  | Sql text => text
  end.

Definition opt_param (name : string) (o : option string) : list (string * param) :=
  match o with Some s => [(name, PStr s)] | None => [] end.

Definition sql_params (s : statement) : list (string * param) :=
  match s with
  | InsertAccessRule _ _ group_name access_type effective_date expiration_date notes user =>
      [ ("group_name", PStr group_name); ("access_type", PStr access_type);
        ("effective_date", PDate effective_date);
        ("expiration_date", p_date expiration_date);
        ("notes", p_str notes); ("user", PStr user) ]
  | UpdateAccessRule _ _ rule_id group_name access_type effective_date
      expiration_date notes user =>
      [ ("rule_id", PInt rule_id); ("group_name", PStr group_name);
        ("access_type", PStr access_type);
        ("effective_date", PDate effective_date);
        ("expiration_date", p_date expiration_date);
        ("notes", p_str notes); ("user", PStr user) ]
  | ExpireAccessRule _ rule_id user => [ ("rule_id", PInt rule_id); ("user", PStr user) ]
  | DeleteAccessRule _ rule_id => [ ("rule_id", PInt rule_id) ]
  | InsertAudit _ user action_type object_type object_name old_value new_value notes =>
      [ ("user", PStr user); ("action_type", PStr action_type);
        ("object_type", PStr object_type); ("object_name", PStr object_name);
        ("old_value", p_str old_value); ("new_value", p_str new_value);
        ("notes", p_str notes) ]
  | SelectIsMember _ => []
  | SelectCatalogTags tag_name catalog_name =>
      ("tag_name", PStr tag_name) :: opt_param "catalog_name" catalog_name
  | SelectSchemaTags tag_name catalog_name schema_name
  | SelectTableTags tag_name catalog_name schema_name =>
      ("tag_name", PStr tag_name)
        :: opt_param "catalog_name" catalog_name ++ opt_param "schema_name" schema_name
  | SelectTablesInCatalog catalog => [ ("catalog", PStr catalog) ]
  | SelectTablesInSchema catalog schema =>
      [ ("catalog", PStr catalog); ("schema", PStr schema) ]
  | SelectColumns catalog schema table =>
      [ ("catalog", PStr catalog); ("schema", PStr schema); ("table", PStr table) ]
  | Sql _ => []
  end.

(** What [cursor.execute] leaves behind: [cursor.rowcount] and the
    fetched rows (already zipped with the column names, as [_fetch_all]
    returns them). *)
Record cursor : Type := { rowcount : option Z; fetchall : list row }.

(** The collaborators outside the sources: the warehouse behind the SQL
    connector, the process environment read by [get_settings], the request
    headers read by [get_current_user_email], and the page that [st.error]
    and [st.exception] write to. [W] is the state of that outside world. *)
Class Runtime (W : Type) : Type := {
  cursor_execute : statement -> W -> outcome cursor * W;
  get_settings : W -> AppSettings;
  get_current_user_email : W -> string;
  st_error : string -> W -> W
}.

(** Computations that read and change the world and may raise. *)
Definition M (W A : Type) : Type := W -> outcome A * W.

Definition ret {W A} (a : A) : M W A := fun w => (Return a, w).

Definition bind {W A B} (m : M W A) (k : A -> M W B) : M W B :=
  fun w =>
    match m w with
    | (Return a, w') => k a w'
    | (Raise e, w') => (Raise e, w')
    end.

(** [try: m except Exception as exc: ...]: the exception becomes a value. *)
Definition try_ {W A} (m : M W A) : M W (A + exn) :=
  fun w =>
    match m w with
    | (Return a, w') => (Return (inl a), w')
    | (Raise e, w') => (Return (inr e), w')
    end.

Definition read {W A} (f : W -> A) : M W A := fun w => (Return (f w), w).

Definition write {W} (f : W -> W) : M W unit := fun w => (Return tt, f w).

(** [for x in xs: state = body(state, x)] *)
Fixpoint for_each {W A S} (xs : list A) (body : S -> A -> M W S) (s : S) : M W S :=
  match xs with
  | [] => ret s
  | x :: rest => bind (body s x) (for_each rest body)
  end.

Section Calls.
Context {W : Type} `{Runtime W}.

Definition execute_query (query : statement) : M W (list row) :=
  bind (cursor_execute query) (fun c => ret (fetchall c)).

(** [cursor.rowcount or 0] *)
Definition execute_update (query : statement) : M W Z :=
  bind (cursor_execute query)
    (fun c => ret (match rowcount c with Some n => n | None => 0 end)).
End Calls.

End Db.

Declare Scope monad_scope.
Notation "x <- m ;; k" := (Db.bind m (fun x => k))
  (at level 61, m at next level, right associativity) : monad_scope.
Notation "m ;;; k" := (Db.bind m (fun _ => k))
  (at level 61, right associativity) : monad_scope.

(* ================================================================== *)
(** * utils/audit_logger.py *)
(* ================================================================== *)

Module AuditLogger.
Import PyStr Db.
Local Open Scope monad_scope.

Section WithRuntime.
Context {W : Type} `{Runtime W}.

Definition log_action (action_type object_type object_name : string)
    (old_value new_value notes : option string) : M W unit :=
  settings <- read get_settings ;;
  user <- read get_current_user_email ;;
  execute_update
    (InsertAudit (qualify_table (audit_table settings) settings) user
       action_type object_type object_name old_value new_value notes) ;;;
  ret tt.
End WithRuntime.
End AuditLogger.

(* ================================================================== *)
(** * utils/access_manager.py *)
(* ================================================================== *)

Module AccessManager.
Import PyStr Validators Db AuditLogger.
Local Open Scope monad_scope.

(** [f"array({','.join(map(str, normalized_ids))})" if normalized_ids else "NULL"] *)
Definition customer_ids_array (normalized_ids : list Z) : string :=
  match normalized_ids with
  | [] => "NULL"
  | _ => "array(" ++ join "," (map str_of_int normalized_ids) ++ ")"
  end.

Section WithRuntime.
Context {W : Type} `{Runtime W}.

Definition add_access_rule (group_name : string) (customer_ids : list Z)
    (access_type : string) (effective_date : Z) (expiration_date : option Z)
    (notes : option string) : M W bool :=
  settings <- read get_settings ;;
  user <- read get_current_user_email ;;
  let normalized_ids := normalize_customer_ids customer_ids in
  execute_update
    (InsertAccessRule (qualify_table (access_table settings) settings)
       (customer_ids_array normalized_ids)
       group_name access_type effective_date expiration_date notes user) ;;;
  log_action "INSERT" "GROUP_ACCESS" group_name None
    (Some ("customer_ids=" ++ str_of_list normalized_ids
             ++ ", access_type=" ++ access_type))
    notes ;;;
  ret true.

Definition update_access_rule (rule_id : Z) (group_name : string)
    (customer_ids : list Z) (access_type : string) (effective_date : Z)
    (expiration_date : option Z) (notes : option string) : M W bool :=
  settings <- read get_settings ;;
  user <- read get_current_user_email ;;
  let normalized_ids := normalize_customer_ids customer_ids in
  execute_update
    (UpdateAccessRule (qualify_table (access_table settings) settings)
       (customer_ids_array normalized_ids)
       rule_id group_name access_type effective_date expiration_date notes user) ;;;
  log_action "UPDATE" "GROUP_ACCESS" (str_of_int rule_id) None
    (Some ("group_name=" ++ group_name ++ ", customer_ids="
             ++ str_of_list normalized_ids ++ ", access_type=" ++ access_type))
    notes ;;;
  ret true.

Definition expire_access_rule (rule_id : Z) : M W bool :=
  settings <- read get_settings ;;
  user <- read get_current_user_email ;;
  execute_update
    (ExpireAccessRule (qualify_table (access_table settings) settings) rule_id user) ;;;
  log_action "EXPIRE" "GROUP_ACCESS" (str_of_int rule_id) None
    (Some "expired") (Some "Manually expired via UI") ;;;
  ret true.

Definition delete_access_rule (rule_id : Z) : M W bool :=
  settings <- read get_settings ;;
  row_count <- execute_update
    (DeleteAccessRule (qualify_table (access_table settings) settings) rule_id) ;;
  (if negb (row_count =? 0)
   then log_action "DELETE" "GROUP_ACCESS" (str_of_int rule_id) None
          (Some "deleted") (Some "Deleted via UI after expiration")
   else ret tt) ;;;
  ret (0 <? row_count).
End WithRuntime.
End AccessManager.

(* ================================================================== *)
(** * utils/auth.py *)
(* ================================================================== *)

Module Auth.
Import PyStr Db.
Local Open Scope monad_scope.

Section WithRuntime.
Context {W : Type} `{Runtime W}.

Definition check_admin_access : M W bool :=
  settings <- read get_settings ;;
  let group_name := replace "'" "''" (admin_group settings) in
  attempt <- try_ (execute_query (SelectIsMember group_name)) ;;
  match attempt with
  | inr exc =>
      write (st_error "Admin check failed while executing SQL.") ;;;
      write (st_error (let 'Exception cls msg := exc in cls ++ ": " ++ msg)) ;;;
      ret false
  | inl result =>
      match result with
      | [] => ret false
      | first :: _ => ret (truthy (get first "is_admin"))
      end
  end.
End WithRuntime.
End Auth.

(* ================================================================== *)
(** * utils/rls_abac_manager.py *)
(* ================================================================== *)

Module RlsAbacManager.
Import PyStr Db.
Local Open Scope monad_scope.

Record PropagationAction : Type := {
  table_fqn : string;
  column_name : string;
  tag_name : string;
  tag_value : string;
  sql : string
}.

Definition _escape_sql_string (value : string) : string := replace "'" "''" value.

Definition _quote_identifier (value : string) : string :=
  "`" ++ replace "`" "``" value ++ "`".

Definition _quote_fqn (parts : list string) : string :=
  join "." (map _quote_identifier parts).

Definition _split_rls_types (tag_value : string) : list string :=
  map strip (filter (fun item => negb (is_empty (strip item))) (split "," tag_value)).

(** [target if target else None]: an empty string is no filter. *)
Definition given (target : option string) : option string :=
  match target with
  | Some s => if is_empty s then None else Some s
  | None => None
  end.

(** A [set] of strings, and [s.update(items)]. *)
Definition str_set : Type := list string.

Definition set_add (x : string) (s : str_set) : str_set :=
  if existsb (String.eqb x) s then s else (s ++ [x])%list.

Definition set_update (s : str_set) (items : list string) : str_set :=
  fold_left (fun acc x => set_add x acc) items s.

Definition set_mem (x : string) (s : str_set) : bool := existsb (String.eqb x) s.

(** The dictionary [tables_to_process], in insertion order, and
    [d.setdefault(key, set()).update(items)]. *)
Definition table_dict : Type := list (string * str_set).

Fixpoint setdefault_update (d : table_dict) (key : string) (items : list string)
  : table_dict :=
  match d with
  | [] => [(key, set_update [] items)]
  | (k, s) :: rest =>
      if String.eqb k key then (k, set_update s items) :: rest
      else (k, s) :: setdefault_update rest key items
  end.

(** [row[key]], a [KeyError] when the column is absent. *)
Definition getitem {W} (r : row) (key : string) : M W value :=
  fun w =>
    match find (fun kv => String.eqb (fst kv) key) r with
    | Some kv => (Return (snd kv), w)
    | None => (Raise (Exception "KeyError" (repr key)), w)
    end.

(** [row.get(key, default)] *)
Definition get_default (r : row) (key : string) (default : value) : value :=
  match find (fun kv => String.eqb (fst kv) key) r with
  | Some kv => snd kv
  | None => default
  end.

(** [str(v)] and the [{v}] of an f-string. *)
Definition str_of_value (v : value) : string :=
  match v with
  | VNone => "None"
  | VBool b => if b then "True" else "False"
  | VInt n => str_of_int n
  | VStr s => s
  end.

(** [x in xs] for a list of strings. *)
Definition in_list (x : string) (xs : list string) : bool := existsb (String.eqb x) xs.

Section WithRuntime.
Context {W : Type} `{Runtime W}.

Definition get_tagged_catalogs (tag_name : string) (target_catalog : option string)
  : M W (list row) :=
  execute_query (SelectCatalogTags tag_name (given target_catalog)).

Definition get_tagged_schemas (tag_name : string)
    (target_catalog target_schema : option string) : M W (list row) :=
  execute_query (SelectSchemaTags tag_name (given target_catalog) (given target_schema)).

Definition get_tagged_tables (tag_name : string)
    (target_catalog target_schema : option string) : M W (list row) :=
  execute_query (SelectTableTags tag_name (given target_catalog) (given target_schema)).

Definition get_tables_in_catalog (catalog : string) : M W (list row) :=
  execute_query (SelectTablesInCatalog catalog).

Definition get_tables_in_schema (catalog schema : string) : M W (list row) :=
  execute_query (SelectTablesInSchema catalog schema).

Definition get_table_columns (catalog schema table : string) : M W (list string) :=
  rows <- execute_query (SelectColumns catalog schema table) ;;
  for_each (filter (fun r => truthy (get r "column_name")) rows)
    (fun names r => v <- getitem r "column_name" ;; ret (names ++ [str_of_value v])%list)
    [].

(** The f-string key built from a row of the tables view, or from a row
    of the table tags, whose columns carry other names. *)
Definition table_key (r : row) (c s t : string) : M W string :=
  vc <- getitem r c ;;
  vs <- getitem r s ;;
  vt <- getitem r t ;;
  ret (str_of_value vc ++ "." ++ str_of_value vs ++ "." ++ str_of_value vt).

Definition tag_categories (r : row) : list string :=
  _split_rls_types (str_of_value (get_default r "tag_value" (VStr EmptyString))).

(** The inner loop shared by the catalog and the schema scope. *)
Definition cover_tables (r : row) (table_rows : list row) (d : table_dict)
  : M W table_dict :=
  for_each table_rows
    (fun d table_row =>
       key <- table_key table_row "table_catalog" "table_schema" "table_name" ;;
       ret (setdefault_update d key (tag_categories r)))
    d.

(** One turn of the loop over [tables_to_process.items()]. *)
Definition plan_action
    (required_parent_tag column_name column_tag_name column_tag_value : string)
    (actions : list PropagationAction) (item : string * str_set)
  : M W (list PropagationAction) :=
  let '(table_fqn, rls_types) := item in
  if negb (set_mem required_parent_tag rls_types) then ret actions
  else
    match splitn "." table_fqn 2 with
    | [catalog; schema; table] =>
        columns <- get_table_columns catalog schema table ;;
        if negb (in_list column_name columns) then ret actions
        else
          let sql :=
            "ALTER TABLE " ++ _quote_fqn [catalog; schema; table] ++ " "
            ++ "ALTER COLUMN " ++ _quote_identifier column_name ++ " "
            ++ "SET TAGS ('" ++ _escape_sql_string column_tag_name ++ "' = "
            ++ "'" ++ _escape_sql_string column_tag_value ++ "')" in
          ret (actions ++
                 [ {| table_fqn := table_fqn; column_name := column_name;
                      tag_name := column_tag_name; tag_value := column_tag_value;
                      sql := sql |} ])%list
    | other =>
        fun w =>
          (Raise (Exception "ValueError"
                    ("not enough values to unpack (expected 3, got "
                       ++ str_of_int (Z.of_nat (List.length other)) ++ ")")), w)
    end.

Definition build_propagation_plan
    (parent_tag_name required_parent_tag column_name column_tag_name
       column_tag_value : string)
    (target_catalog target_schema : option string)
  : M W (list PropagationAction) :=
  catalog_rows <- get_tagged_catalogs parent_tag_name target_catalog ;;
  d1 <- for_each catalog_rows
          (fun d r =>
             vc <- getitem r "catalog_name" ;;
             table_rows <- get_tables_in_catalog (str_of_value vc) ;;
             cover_tables r table_rows d)
          [] ;;
  schema_rows <- get_tagged_schemas parent_tag_name target_catalog target_schema ;;
  d2 <- for_each schema_rows
          (fun d r =>
             vc <- getitem r "catalog_name" ;;
             vs <- getitem r "schema_name" ;;
             table_rows <- get_tables_in_schema (str_of_value vc) (str_of_value vs) ;;
             cover_tables r table_rows d)
          d1 ;;
  tag_rows <- get_tagged_tables parent_tag_name target_catalog target_schema ;;
  tables_to_process <- for_each tag_rows
          (fun d r =>
             key <- table_key r "catalog_name" "schema_name" "table_name" ;;
             ret (setdefault_update d key (tag_categories r)))
          d2 ;;
  for_each tables_to_process
    (plan_action required_parent_tag column_name column_tag_name column_tag_value)
    [].

Definition apply_propagation (actions : list PropagationAction) : M W (list string) :=
  for_each actions
    (fun executed action =>
       execute_update (Sql (sql action)) ;;;
       ret (executed ++ [sql action])%list)
    [].
End WithRuntime.
End RlsAbacManager.

(* ================================================================== *)
(** * The warehouse behind the connector

    A model of what the statements of the sources do when the warehouse runs
    them: the access table and the audit table of [utils/setup_utils.py], the
    tag and table views of [system.information_schema], the group membership
    behind [is_member], and a schedule of upstream faults. *)
(* ================================================================== *)

Module Warehouse.
Import PyStr Db.

(** A row of the access table ([_access_table_ddl]). *)
Record AccessRule : Type := {
  id : Z;
  group_name : string;
  customer_ids : option (list Z);
  access_type : string;
  effective_date : option Z;
  expiration_date : option Z;
  notes : option string;
  created_by : string;
  created_at : Z;
  modified_by : string;
  modified_at : Z
}.

(** A row of the audit table ([_audit_table_ddl]). *)
Record AuditEntry : Type := {
  audit_timestamp : Z;
  audit_user : string;
  audit_action_type : string;
  audit_object_type : string;
  audit_object_name : string;
  audit_old_value : option string;
  audit_new_value : option string;
  audit_notes : option string
}.

Record CatalogTag : Type := {
  ct_catalog_name : string; ct_tag_name : string; ct_tag_value : option string
}.

Record SchemaTag : Type := {
  st_catalog_name : string; st_schema_name : string;
  st_tag_name : string; st_tag_value : option string
}.

Record TableTag : Type := {
  tt_catalog_name : string; tt_schema_name : string; tt_table_name : string;
  tt_tag_name : string; tt_tag_value : option string
}.

Record TableRef : Type := {
  table_catalog : string; table_schema : string; table_name : string
}.

Record ColumnRef : Type := { column_table : TableRef; column_name : string }.

(** The part of [system.information_schema] the planner reads. *)
Record Metadata : Type := {
  catalog_tags : list CatalogTag;
  schema_tags : list SchemaTag;
  table_tags : list TableTag;
  tables : list TableRef;
  columns : list ColumnRef
}.

Record World : Type := {
  settings : AppSettings;
  user_email : string;
  today : Z;                       (* CURRENT_DATE() *)
  now : Z;                         (* CURRENT_TIMESTAMP() *)
  member_of : list string;         (* groups of the session user *)
  access_rows : list AccessRule;
  next_id : Z;                     (* the identity column *)
  audit_rows : list AuditEntry;
  meta : Metadata;
  committed : list string;         (* other statements the warehouse ran *)
  journal : list statement;        (* every mutation submitted, in order *)
  faults : list (option exn);      (* the k-th call raises on [Some e] *)
  page : list string               (* what st.error has written *)
}.

Definition with_access (w : World) (rows : list AccessRule) (next : Z) : World :=
  {| settings := settings w; user_email := user_email w; today := today w;
     now := now w; member_of := member_of w; access_rows := rows;
     next_id := next; audit_rows := audit_rows w; meta := meta w;
     committed := committed w; journal := journal w; faults := faults w;
     page := page w |}.

Definition with_audit (w : World) (rows : list AuditEntry) : World :=
  {| settings := settings w; user_email := user_email w; today := today w;
     now := now w; member_of := member_of w; access_rows := access_rows w;
     next_id := next_id w; audit_rows := rows; meta := meta w;
     committed := committed w; journal := journal w; faults := faults w;
     page := page w |}.

Definition with_committed (w : World) (texts : list string) : World :=
  {| settings := settings w; user_email := user_email w; today := today w;
     now := now w; member_of := member_of w; access_rows := access_rows w;
     next_id := next_id w; audit_rows := audit_rows w; meta := meta w;
     committed := texts; journal := journal w; faults := faults w;
     page := page w |}.

Definition with_journal (w : World) (stmts : list statement) : World :=
  {| settings := settings w; user_email := user_email w; today := today w;
     now := now w; member_of := member_of w; access_rows := access_rows w;
     next_id := next_id w; audit_rows := audit_rows w; meta := meta w;
     committed := committed w; journal := stmts; faults := faults w;
     page := page w |}.

Definition with_faults (w : World) (fs : list (option exn)) : World :=
  {| settings := settings w; user_email := user_email w; today := today w;
     now := now w; member_of := member_of w; access_rows := access_rows w;
     next_id := next_id w; audit_rows := audit_rows w; meta := meta w;
     committed := committed w; journal := journal w; faults := fs;
     page := page w |}.

Definition with_page (w : World) (msgs : list string) : World :=
  {| settings := settings w; user_email := user_email w; today := today w;
     now := now w; member_of := member_of w; access_rows := access_rows w;
     next_id := next_id w; audit_rows := audit_rows w; meta := meta w;
     committed := committed w; journal := journal w; faults := faults w;
     page := msgs |}.

(** ** SQL values of the access statements *)

(** An integer literal: an optional minus sign and decimal digits. *)
Fixpoint all_digits (s : string) (acc : Z) : option Z :=
  match s with
  | EmptyString => Some acc
  | String c r =>
      match digit_val c with
      | Some d => all_digits r (10 * acc + d)
      | None => None
      end
  end.

Definition int_literal (s : string) : option Z :=
  match s with
  | EmptyString => None
  | String "-" EmptyString => None
  | String "-" d => option_map Z.opp (all_digits d 0)
  | _ => all_digits s 0
  end.

Fixpoint int_literals (ss : list string) : option (list Z) :=
  match ss with
  | [] => Some []
  | s :: rest =>
      match int_literal s, int_literals rest with
      | Some n, Some ns => Some (n :: ns)
      | _, _ => None
      end
  end.

Fixpoint ends_with (ch : ascii) (s : string) : bool :=
  match s with
  | EmptyString => false
  | String c EmptyString => Ascii.eqb c ch
  | String _ r => ends_with ch r
  end.

(** The value of the expression interpolated for [customer_ids]: [NULL] or
    [array(i, ...)]; [None] when it is neither. *)
Definition eval_customer_ids (e : string) : option (option (list Z)) :=
  if String.eqb e "NULL" then Some None
  else if String.prefix "array(" e && ends_with ")" e then
    let body := String.substring 6 (String.length e - 7) e in
    if is_empty body then Some (Some [])
    else option_map Some (int_literals (split "," body))
  else None.

Definition has_id (rule_id : Z) (r : AccessRule) : bool := id r =? rule_id.

(** [WHERE id = :rule_id AND expiration_date <= CURRENT_DATE()]: a NULL
    expiration date compares to NULL and the row is not selected. *)
Definition deletable (today_ rule_id : Z) (r : AccessRule) : bool :=
  has_id rule_id r
  && match expiration_date r with Some x => x <=? today_ | None => false end.

(** The cursor of the databricks.sql connector does not count the rows of
    a statement: its [rowcount] stays at -1 whatever the statement did. *)
Definition connector_rowcount : option Z := Some (-1).

Definition done (rows : list row) (w : World) : outcome cursor * World :=
  (Return {| rowcount := connector_rowcount; fetchall := rows |}, w).

Definition syntax_error (w : World) : outcome cursor * World :=
  (Raise (Exception "ServerOperationError" "PARSE_SYNTAX_ERROR"), w).

(** ** Rows of the information schema *)

Definition matches (target : option string) (name : string) : bool :=
  match target with Some t => String.eqb name t | None => true end.

Definition table_ref_eqb (a b : TableRef) : bool :=
  String.eqb (table_catalog a) (table_catalog b)
  && String.eqb (table_schema a) (table_schema b)
  && String.eqb (table_name a) (table_name b).

(** [SELECT DISTINCT]: the first occurrence of each row. *)
Fixpoint distinct (seen l : list TableRef) : list TableRef :=
  match l with
  | [] => []
  | t :: rest =>
      if existsb (table_ref_eqb t) seen then distinct seen rest
      else t :: distinct (t :: seen) rest
  end.

Definition table_row (t : TableRef) : row :=
  [ ("table_catalog", VStr (table_catalog t));
    ("table_schema", VStr (table_schema t));
    ("table_name", VStr (table_name t)) ].

Fixpoint insert_name (x : string) (l : list string) : list string :=
  match l with
  | [] => [x]
  | y :: t => if String.leb x y then x :: l else y :: insert_name x t
  end.

(** [ORDER BY column_name] *)
Fixpoint order_names (l : list string) : list string :=
  match l with
  | [] => []
  | x :: t => insert_name x (order_names t)
  end.

Definition select_catalog_tags (m : Metadata) (tag : string) (cat : option string)
  : list row :=
  map (fun t => [ ("catalog_name", VStr (ct_catalog_name t));
                  ("tag_value", opt_str (ct_tag_value t)) ])
    (filter (fun t => String.eqb (ct_tag_name t) tag && matches cat (ct_catalog_name t))
       (catalog_tags m)).

Definition select_schema_tags (m : Metadata) (tag : string) (cat sch : option string)
  : list row :=
  map (fun t => [ ("catalog_name", VStr (st_catalog_name t));
                  ("schema_name", VStr (st_schema_name t));
                  ("tag_value", opt_str (st_tag_value t)) ])
    (filter (fun t => String.eqb (st_tag_name t) tag
                      && matches cat (st_catalog_name t)
                      && matches sch (st_schema_name t))
       (schema_tags m)).

Definition select_table_tags (m : Metadata) (tag : string) (cat sch : option string)
  : list row :=
  map (fun t => [ ("catalog_name", VStr (tt_catalog_name t));
                  ("schema_name", VStr (tt_schema_name t));
                  ("table_name", VStr (tt_table_name t));
                  ("tag_value", opt_str (tt_tag_value t)) ])
    (filter (fun t => String.eqb (tt_tag_name t) tag
                      && matches cat (tt_catalog_name t)
                      && matches sch (tt_schema_name t))
       (table_tags m)).

Definition select_tables_in_catalog (m : Metadata) (cat : string) : list row :=
  map table_row
    (distinct [] (filter (fun t => String.eqb (table_catalog t) cat) (tables m))).

Definition select_tables_in_schema (m : Metadata) (cat sch : string) : list row :=
  map table_row
    (distinct []
       (filter (fun t => String.eqb (table_catalog t) cat
                         && String.eqb (table_schema t) sch)
          (tables m))).

Definition select_columns (m : Metadata) (cat sch tab : string) : list row :=
  map (fun name => [ ("column_name", VStr name) ])
    (order_names
       (map column_name
          (filter (fun c => table_ref_eqb (column_table c)
                              {| table_catalog := cat; table_schema := sch;
                                 table_name := tab |})
             (columns m)))).

(** [is_member(g)] for the session user; [literal] is the escaped text
    between the quotes. *)
Definition is_member_literal (w : World) (literal : string) : bool :=
  existsb (fun g => String.eqb (replace "'" "''" g) literal) (member_of w).

(** ** Running one statement *)

Definition effect (s : statement) (w : World) : outcome cursor * World :=
  match s with
  | InsertAccessRule _ ids_expr group access eff exp nts user =>
      match eval_customer_ids ids_expr with
      | None => syntax_error w
      | Some ids =>
          let r := {| id := next_id w; group_name := group; customer_ids := ids;
                      access_type := access; effective_date := Some eff;
                      expiration_date := exp; notes := nts;
                      created_by := user; created_at := now w;
                      modified_by := user; modified_at := now w |} in
          done [] (with_access w (access_rows w ++ [r]) (next_id w + 1))
      end
  | UpdateAccessRule _ ids_expr rule_id group access eff exp nts user =>
      match eval_customer_ids ids_expr with
      | None => syntax_error w
      | Some ids =>
          let upd r :=
            if has_id rule_id r then
              {| id := id r; group_name := group; customer_ids := ids;
                 access_type := access; effective_date := Some eff;
                 expiration_date := exp; notes := nts;
                 created_by := created_by r; created_at := created_at r;
                 modified_by := user; modified_at := now w |}
            else r in
          done []
            (with_access w (map upd (access_rows w)) (next_id w))
      end
  | ExpireAccessRule _ rule_id user =>
      let upd r :=
        if has_id rule_id r then
          {| id := id r; group_name := group_name r; customer_ids := customer_ids r;
             access_type := access_type r; effective_date := effective_date r;
             expiration_date := Some (today w); notes := notes r;
             created_by := created_by r; created_at := created_at r;
             modified_by := user; modified_at := now w |}
        else r in
      done []
        (with_access w (map upd (access_rows w)) (next_id w))
  | DeleteAccessRule _ rule_id =>
      done []
        (with_access w
           (filter (fun r => negb (deletable (today w) rule_id r)) (access_rows w))
           (next_id w))
  | InsertAudit _ user action_type object_type object_name old_value new_value nts =>
      let e := {| audit_timestamp := now w; audit_user := user;
                  audit_action_type := action_type; audit_object_type := object_type;
                  audit_object_name := object_name; audit_old_value := old_value;
                  audit_new_value := new_value; audit_notes := nts |} in
      done [] (with_audit w (audit_rows w ++ [e]))
  | SelectIsMember literal =>
      done [ [ ("is_admin", VBool (is_member_literal w literal)) ] ] w
  | SelectCatalogTags tag cat => done (select_catalog_tags (meta w) tag cat) w
  | SelectSchemaTags tag cat sch => done (select_schema_tags (meta w) tag cat sch) w
  | SelectTableTags tag cat sch => done (select_table_tags (meta w) tag cat sch) w
  | SelectTablesInCatalog cat => done (select_tables_in_catalog (meta w) cat) w
  | SelectTablesInSchema cat sch => done (select_tables_in_schema (meta w) cat sch) w
  | SelectColumns cat sch tab => done (select_columns (meta w) cat sch tab) w
  | Sql text => done [] (with_committed w (committed w ++ [text]))
  end.

Definition is_select (s : statement) : bool :=
  match s with
  | SelectIsMember _ | SelectCatalogTags _ _ | SelectSchemaTags _ _ _
  | SelectTableTags _ _ _ | SelectTablesInCatalog _ | SelectTablesInSchema _ _
  | SelectColumns _ _ _ => true
  | _ => false
  end.

(** One call of [cursor.execute]: a mutation is entered in the journal, the
    next entry of the fault schedule is consumed, and the statement takes
    effect unless that entry is a fault. *)
Definition run (s : statement) (w : World) : outcome cursor * World :=
  let w1 := if is_select s then w else with_journal w (journal w ++ [s]) in
  match faults w1 with
  | Some e :: rest => (Raise e, with_faults w1 rest)
  | None :: rest => effect s (with_faults w1 rest)
  | [] => effect s w1
  end.

#[export] Instance world_runtime : Runtime World := {|
  cursor_execute := run;
  get_settings := settings;
  get_current_user_email := user_email;
  st_error := fun msg w => with_page w (page w ++ [msg])
|}.

(** ** The row filter of pages/4_RLS_ABAC_Tools.py

    The body of the function that [_render_function_builder] creates with
    the group check [is_member], evaluated with SQL's three-valued logic:
    [None] is NULL, [AND] and [OR] associate to the left. *)

Definition sql_bool : Type := option bool.

Definition sql_and (a b : sql_bool) : sql_bool :=
  match a, b with
  | Some false, _ | _, Some false => Some false
  | Some true, Some true => Some true
  | _, _ => None
  end.

Definition sql_or (a b : sql_bool) : sql_bool :=
  match a, b with
  | Some true, _ | _, Some true => Some true
  | Some false, Some false => Some false
  | _, _ => None
  end.

Definition sql_not (a : sql_bool) : sql_bool := option_map negb a.

Definition is_null {A} (a : option A) : sql_bool :=
  Some (match a with None => true | Some _ => false end).

Definition array_contains (arr : option (list Z)) (x : Z) : sql_bool :=
  option_map (existsb (Z.eqb x)) arr.

Definition filter_condition (w : World) (gca : AccessRule) (customer_id : Z) : sql_bool :=
  sql_and
    (sql_and
       (sql_and (Some (existsb (String.eqb (group_name gca)) (member_of w)))
          (sql_or (is_null (effective_date gca))
             (option_map (fun d => d <=? today w) (effective_date gca))))
       (sql_or (is_null (expiration_date gca))
          (option_map (fun d => today w <? d) (expiration_date gca))))
    (sql_or
       (sql_or (is_null (customer_ids gca))
          (sql_and (Some (String.eqb (access_type gca) "INCLUDE"))
             (array_contains (customer_ids gca) customer_id)))
       (sql_and (Some (String.eqb (access_type gca) "EXCLUDE"))
          (sql_not (array_contains (customer_ids gca) customer_id)))).

(** [EXISTS (SELECT 1 FROM access_table gca WHERE ...)] *)
Definition customer_access_filter (w : World) (customer_id : Z) : bool :=
  existsb
    (fun gca =>
       match filter_condition w gca customer_id with Some true => true | _ => false end)
    (access_rows w).

End Warehouse.

(* ================================================================== *)
(** * pages/3_Audit_Reports.py *)
(* ================================================================== *)

Module AuditReports.
Import PyStr Warehouse.

(** [s.upper()] on the ASCII letters; no other code point below 256 maps
    to an ASCII letter. *)
Fixpoint upper (s : string) : string :=
  match s with
  | EmptyString => EmptyString
  | String c r =>
      let n := code c in
      String (if (97 <=? n) && (n <=? 122) then ascii_of_N (Z.to_N (n - 32)) else c)
        (upper r)
  end.

Definition _build_access_summary (rule : AccessRule) : string :=
  let access_type := upper (access_type rule) in
  let customer_ids := match customer_ids rule with Some l => l | None => [] end in
  let customer_count := Z.of_nat (List.length customer_ids) in
  if String.eqb access_type "INCLUDE" then
    match customer_ids with
    | [] => "Access given as ADMIN, all customers available"
    | _ => "Access INCLUDED for " ++ str_of_int customer_count
           ++ " customers, EXCLUDED for all others"
    end
  else if String.eqb access_type "EXCLUDE" then
    match customer_ids with
    | [] => "Access EXCLUDED for all customers"
    | _ => "Access EXCLUDED for " ++ str_of_int customer_count
           ++ " customers, PROVIDED for all others"
    end
  else "Access rules not specified".

End AuditReports.

(* ================================================================== *)
(** * Vocabulary of the statements proved below *)
(* ================================================================== *)

Module ParseSpec.
Import PyStr.

(** A token that survives the [if not part: continue] test. *)
Definition nonblank (t : string) : bool := negb (is_empty (strip t)).

(** The input without its empty tokens. *)
Definition drop_empty_tokens (s : string) : string :=
join "," (filter nonblank (split "," s)).

(** The comma-joined rendering of a list of ids. *)
Definition render_ids (ids : list Z) : string := join "," (map str_of_int ids).


End ParseSpec.

Module Statements.
Import PyStr Validators Db AccessManager RlsAbacManager.

Section WithRuntime.
Context {W : Type} `{Runtime W}.

(** The membership query of [check_admin_access] in world [w]. *)
Definition admin_query (w : W) : statement :=
SelectIsMember (replace "'" "''" (admin_group (get_settings w))).

(** The two statements of [add_access_rule], as built in world [w]. *)
Definition add_insert (w : W) (group_name : string) (customer_ids : list Z)
(access_type : string) (effective_date : Z) (expiration_date : option Z)
(notes : option string) : statement :=
InsertAccessRule (qualify_table (access_table (get_settings w)) (get_settings w))
(customer_ids_array (normalize_customer_ids customer_ids))
group_name access_type effective_date expiration_date notes
(get_current_user_email w).

Definition add_audit (w : W) (group_name : string) (customer_ids : list Z)
(access_type : string) (notes : option string) : statement :=
InsertAudit (qualify_table (audit_table (get_settings w)) (get_settings w))
(get_current_user_email w) "INSERT" "GROUP_ACCESS" group_name None
(Some ("customer_ids=" ++ str_of_list (normalize_customer_ids customer_ids)
         ++ ", access_type=" ++ access_type))
notes.

(** The body of the loop of [apply_propagation]. *)
Definition step (executed : list string) (action : PropagationAction)
: M W (list string) :=
bind (execute_update (Sql (sql action))) (fun _ => ret (executed ++ [sql action])%list).

End WithRuntime.
End Statements.

Module AccessSpec.
Import PyStr Db Warehouse.

(** The rule may be deleted: its expiration date is set and not after today. *)
Definition expired_by (today_ : Z) (r : AccessRule) : Prop :=
exists x, expiration_date r = Some x /\ x <= today_.

(** The audit record that [delete_access_rule] writes. *)
Definition delete_entry (w : World) (rule_id : Z) : AuditEntry :=
{| audit_timestamp := now w; audit_user := user_email w;
   audit_action_type := "DELETE"; audit_object_type := "GROUP_ACCESS";
   audit_object_name := str_of_int rule_id; audit_old_value := None;
   audit_new_value := Some "deleted";
   audit_notes := Some "Deleted via UI after expiration" |}.

(** The rule is active at the date: effective, and not yet expired. *)
Definition in_window (today_ : Z) (r : AccessRule) : Prop :=
match effective_date r with Some d => d <= today_ | None => True end
/\ match expiration_date r with Some d => today_ < d | None => True end.

Definition access_table_name (w : World) : string :=
qualify_table (access_table (settings w)) (settings w).

End AccessSpec.

(* ================================================================== *)
(** * The planner as a function of the snapshot *)
(* ================================================================== *)

Module PlannerSpec.
Import PyStr Db RlsAbacManager Warehouse.

Definition table_key_of (t : TableRef) : string :=
  table_catalog t ++ "." ++ table_schema t ++ "." ++ table_name t.

Definition tagged_table (b : TableTag) : TableRef :=
  {| table_catalog := tt_catalog_name b; table_schema := tt_schema_name b;
     table_name := tt_table_name b |}.

(** Catalog and schema names hold no period, as Unity Catalog requires. *)
Definition dot_free (t : TableRef) : Prop :=
  contains "." (table_catalog t) = false /\ contains "." (table_schema t) = false.

Definition well_named (m : Metadata) : Prop :=
  Forall dot_free (tables m) /\ Forall (fun b => dot_free (tagged_table b)) (table_tags m).

(** The text of a tag value as the planner reads it. *)
Definition value_text (v : option string) : string := str_of_value (opt_str v).

(** The categories a tag value declares: split at the commas, trim every
    token, drop the empty ones. *)
Definition categories (v : option string) : list string :=
  filter (fun c => negb (is_empty c)) (map strip (split "," (value_text v))).

(** The values of the bindings of [tag] that cover table [t]: those on its
    catalog and on its schema when the table is listed, and those on the
    table itself. A catalog binding is looked up within the target catalog,
    a schema or table binding within the target catalog and schema. *)
Definition covering_values (m : Metadata) (tag : string) (tc ts : option string)
    (t : TableRef) : list (option string) :=
  (map ct_tag_value
     (filter (fun b => String.eqb (ct_tag_name b) tag
                       && matches (given tc) (ct_catalog_name b)
                       && String.eqb (table_catalog t) (ct_catalog_name b)
                       && existsb (table_ref_eqb t) (tables m))
        (catalog_tags m))
   ++ map st_tag_value
     (filter (fun b => String.eqb (st_tag_name b) tag
                       && matches (given tc) (st_catalog_name b)
                       && matches (given ts) (st_schema_name b)
                       && String.eqb (table_catalog t) (st_catalog_name b)
                       && String.eqb (table_schema t) (st_schema_name b)
                       && existsb (table_ref_eqb t) (tables m))
        (schema_tags m))
   ++ map tt_tag_value
     (filter (fun b => String.eqb (tt_tag_name b) tag
                       && matches (given tc) (tt_catalog_name b)
                       && matches (given ts) (tt_schema_name b)
                       && table_ref_eqb t (tagged_table b))
        (table_tags m)))%list.

(** The union of the categories of every covering binding. *)
Definition accumulated (m : Metadata) (tag : string) (tc ts : option string)
    (t : TableRef) : list string :=
  flat_map categories (covering_values m tag tc ts t).

(** The column list of a table. *)
Definition table_columns (m : Metadata) (t : TableRef) : list string :=
  filter (fun name => negb (is_empty name))
    (map column_name (filter (fun c => table_ref_eqb (column_table c) t) (columns m))).

Definition qualifies (m : Metadata) (tag required column : string)
    (tc ts : option string) (t : TableRef) : bool :=
  in_list required (accumulated m tag tc ts t) && in_list column (table_columns m t).

Definition action_for (column column_tag_name column_tag_value : string) (t : TableRef)
  : PropagationAction :=
  {| table_fqn := table_key_of t;
     RlsAbacManager.column_name := column;
     tag_name := column_tag_name;
     tag_value := column_tag_value;
     sql := "ALTER TABLE "
            ++ _quote_fqn [table_catalog t; table_schema t; table_name t] ++ " "
            ++ "ALTER COLUMN " ++ _quote_identifier column ++ " "
            ++ "SET TAGS ('" ++ _escape_sql_string column_tag_name ++ "' = "
            ++ "'" ++ _escape_sql_string column_tag_value ++ "')" |}.

(** ** The planner as a function of the snapshot *)

Definition cats (v : option string) : list string := _split_rls_types (value_text v).

Definition in_catalog (m : Metadata) (cat : string) : list TableRef :=
  distinct [] (filter (fun t => String.eqb (table_catalog t) cat) (tables m)).

Definition in_schema (m : Metadata) (cat sch : string) : list TableRef :=
  distinct []
    (filter (fun t => String.eqb (table_catalog t) cat && String.eqb (table_schema t) sch)
       (tables m)).

Definition chosen_catalog_tags (m : Metadata) (tag : string) (tc : option string) :=
  filter (fun t => String.eqb (ct_tag_name t) tag && matches (given tc) (ct_catalog_name t))
    (catalog_tags m).

Definition chosen_schema_tags (m : Metadata) (tag : string) (tc ts : option string) :=
  filter (fun t => String.eqb (st_tag_name t) tag
                   && matches (given tc) (st_catalog_name t)
                   && matches (given ts) (st_schema_name t))
    (schema_tags m).

Definition chosen_table_tags (m : Metadata) (tag : string) (tc ts : option string) :=
  filter (fun t => String.eqb (tt_tag_name t) tag
                   && matches (given tc) (tt_catalog_name t)
                   && matches (given ts) (tt_schema_name t))
    (table_tags m).

(** Every (table, categories) pair in the order the three loops meet it. *)
Definition discovered (m : Metadata) (tag : string) (tc ts : option string)
  : list (TableRef * list string) :=
  (flat_map (fun b => map (fun t => (t, cats (ct_tag_value b)))
                        (in_catalog m (ct_catalog_name b)))
     (chosen_catalog_tags m tag tc)
   ++ flat_map (fun b => map (fun t => (t, cats (st_tag_value b)))
                           (in_schema m (st_catalog_name b) (st_schema_name b)))
     (chosen_schema_tags m tag tc ts)
   ++ map (fun b => (tagged_table b, cats (tt_tag_value b)))
     (chosen_table_tags m tag tc ts))%list.

Definition collect (es : list (TableRef * list string)) (d : table_dict) : table_dict :=
  fold_left (fun d e => setdefault_update d (table_key_of (fst e)) (snd e)) es d.

Definition column_names (m : Metadata) (cat sch tab : string) : list string :=
  filter (fun name => negb (is_empty name))
    (order_names
       (map column_name
          (filter (fun c => table_ref_eqb (column_table c)
                              {| table_catalog := cat; table_schema := sch;
                                 table_name := tab |})
             (columns m)))).

(** One step of [collect]. *)
Definition entry_fold (d : table_dict) (e : TableRef * list string) : table_dict :=
  setdefault_update d (table_key_of (fst e)) (snd e).

(** [d.get(key)] on the dictionary of the planner. *)
Fixpoint lookup (d : table_dict) (key : string) : option str_set :=
  match d with
  | [] => None
  | (k, s) :: rest => if String.eqb k key then Some s else lookup rest key
  end.

(** The key is present; the category is in the set under the key. *)
Definition has (d : table_dict) (k : string) : Prop := lookup d k <> None.

Definition mem (d : table_dict) (k c : string) : Prop :=
  exists s, lookup d k = Some s /\ In c s.

(** What one entry of the dictionary adds to the plan. *)
Definition planned (m : Metadata) (required column ctag cval : string)
    (item : string * str_set) : list PropagationAction :=
  match splitn "." (fst item) 2 with
  | [cat; sch; tab] =>
      if set_mem required (snd item) && in_list column (column_names m cat sch tab)
      then [ action_for column ctag cval
               {| table_catalog := cat; table_schema := sch; table_name := tab |} ]
      else []
  | _ => []
  end.

End PlannerSpec.

(* ================================================================== *)
(** * A small warehouse for the worked examples *)
(* ================================================================== *)

Module Sample.
Import PyStr Db RlsAbacManager Warehouse.

Definition app_settings : AppSettings :=
{| catalog := "main"; schema := "governance"; access_table := "group_access";
   audit_table := "audit_log"; admin_group := "uc_admins" |}.

Definition orders : TableRef :=
{| table_catalog := "main"; table_schema := "sales"; table_name := "orders" |}.

Definition refunds : TableRef :=
{| table_catalog := "main"; table_schema := "sales"; table_name := "refunds" |}.

(** Schema [main.sales] is tagged [category=A, B]; table [orders] has a
  [customer_id] column and its own tag [category=C]; [refunds] has no
  such column. *)
Definition snapshot : Metadata :=
{| catalog_tags := [];
   schema_tags :=
     [ {| st_catalog_name := "main"; st_schema_name := "sales";
          st_tag_name := "category"; st_tag_value := Some "A, B" |} ];
   table_tags :=
     [ {| tt_catalog_name := "main"; tt_schema_name := "sales";
          tt_table_name := "orders"; tt_tag_name := "category";
          tt_tag_value := Some "C" |} ];
   tables := [ orders; refunds ];
   columns :=
     [ {| column_table := orders; column_name := "customer_id" |};
       {| column_table := orders; column_name := "amount" |};
       {| column_table := refunds; column_name := "amount" |} ] |}.

Definition world : World :=
{| settings := app_settings; user_email := "ana@example.com"; today := 739000;
   now := 1; member_of := ["uc_admins"; "analysts"]; access_rows := [];
   next_id := 1; audit_rows := []; meta := snapshot; committed := [];
   journal := []; faults := []; page := [] |}.

Definition outage : exn := Exception "RuntimeError" "SQL connection failed using OAuth.".

(** The warehouse is unreachable at the next call. *)
Definition world_down : World := with_faults world [Some outage].

(** The second call fails, the others go through. *)
Definition second_fails : World := with_faults world [None; Some outage].

Definition tag_column (table : string) : PropagationAction :=
{| table_fqn := table; RlsAbacManager.column_name := "customer_id";
   tag_name := "secure"; tag_value := "true";
   sql := "ALTER TABLE " ++ table ++ " ALTER COLUMN `customer_id` SET TAGS ('secure' = 'true')" |}.

Definition three_actions : list PropagationAction :=
[ tag_column "main.sales.orders"; tag_column "main.sales.invoices";
  tag_column "main.sales.payments" ].

(** A connector whose every query comes back without rows. *)
Definition silent : Runtime unit :=
{| cursor_execute := fun _ w => (Return {| rowcount := None; fetchall := [] |}, w);
   get_settings := fun _ => app_settings;
   get_current_user_email := fun _ => "unknown";
   st_error := fun _ w => w |}.

(** An [EXCLUDE] rule without ids, as [add_access_rule] stores it. *)
Definition world_with_blanket_exclude : World :=
snd (AccessManager.add_access_rule "analysts" [] "EXCLUDE" 738000 None None world).

(** The row that this leaves in the access table. *)
Definition blanket_exclude : AccessRule :=
{| id := 1; group_name := "analysts"; customer_ids := None; access_type := "EXCLUDE";
   effective_date := Some 738000; expiration_date := None; notes := None;
   created_by := "ana@example.com"; created_at := 1;
   modified_by := "ana@example.com"; modified_at := 1 |}.

(** A rule that expires tomorrow and one that expired today. *)
Definition world_with_two_rules : World :=
snd (AccessManager.add_access_rule "analysts" [7] "INCLUDE" 738000 (Some 739000) None
       (snd (AccessManager.add_access_rule "analysts" [1; 2] "INCLUDE" 738000
               (Some 739001) None world))).

End Sample.

(* ================================================================== *)
(** * utils/validators.py: [validate_identifier] *)
(* ================================================================== *)

Module Identifier.
Import PyStr.

(** The class [[A-Za-z_]]. *)
Definition is_ident_start (c : ascii) : bool :=
  let n := code c in
  ((65 <=? n) && (n <=? 90)) || ((97 <=? n) && (n <=? 122)) || (n =? 95).

(** The class [[A-Za-z0-9_]]. *)
Definition is_ident_char (c : ascii) : bool :=
  is_ident_start c || ((48 <=? code c) && (code c <=? 57)).

(** [[A-Za-z0-9_]*$] from the current position. Without [re.MULTILINE],
    [$] matches at the end of the string and just before a newline that
    ends the string. *)
Fixpoint ident_rest (s : string) : bool :=
  match s with
  | EmptyString => true
  | String c r =>
      if is_ident_char c then ident_rest r else (code c =? 10) && is_empty r
  end.

(** [validate_identifier]: [None] is matched as the empty string. *)
Definition validate_identifier (value : option string) : bool :=
  match value with
  | Some (String c r) => is_ident_start c && ident_rest r
  | _ => false
  end.

End Identifier.

(* ================================================================== *)
(** * utils/auth.py: [get_current_user_email] *)
(* ================================================================== *)

Module Session.
Import PyStr Db.

(** A mapping is known by its [get]. *)
Definition mapping : Type := string -> option string.

(** What [st.experimental_user] holds: a mapping, or something else. *)
Inductive user_info : Type :=
| UserMapping (fields : mapping)
| UserOther.

(** [not email] *)
Definition no_email (email : option string) : bool :=
  match email with Some s => is_empty s | None => true end.

(** The function reads [st.context.headers] and, when that gives no email,
    [st.experimental_user]; either read may raise, and the headers may be
    missing or empty ([None] here). *)
Definition get_current_user_email (headers : outcome (option mapping))
    (experimental_user : outcome user_info) : string :=
  let email :=
    match headers with
    | Return (Some h) => h "X-Forwarded-Email"
    | Return None => None
    | Raise _ => None
    end in
  let email :=
    if no_email email then
      match experimental_user with
      | Return (UserMapping fields) => fields "email"
      | Return UserOther => None
      | Raise _ => None
      end
    else email in
  match email with
  | Some s => if is_empty s then "unknown" else s
  | None => "unknown"
  end.

End Session.

(* ================================================================== *)
(** * utils/tag_manager.py: applying and removing tags *)
(* ================================================================== *)

Module TagManager.
Import PyStr Db AuditLogger Identifier.
Local Open Scope monad_scope.

(** [str(exc)] *)
Definition str_of_exn (exc : exn) : string :=
  match exc with Exception _ msg => msg end.

Section WithRuntime.
Context {W : Type} `{Runtime W}.

Definition apply_table_tag (catalog schema table tag_name tag_value : string)
  : M W (bool * string) :=
  if negb (validate_identifier (Some tag_name))
  then ret (false, "Tag name contains invalid characters.")
  else
    let full_name := catalog ++ "." ++ schema ++ "." ++ table in
    let query :=
      "ALTER TABLE " ++ full_name ++ " SET TAGS ('" ++ tag_name ++ "' = '"
      ++ tag_value ++ "')" in
    attempt <- try_
      (execute_update (Sql query) ;;;
       user <- read get_current_user_email ;;
       log_action "TAG_APPLY" "TABLE_TAG" full_name None
         (Some (tag_name ++ "=" ++ tag_value)) (Some ("Applied by " ++ user))) ;;
    match attempt with
    | inl _ => ret (true, "Tag applied successfully.")
    | inr exc => ret (false, "Error applying tag: " ++ str_of_exn exc)
    end.

Definition remove_table_tag (catalog schema table tag_name : string)
  : M W (bool * string) :=
  if negb (validate_identifier (Some tag_name))
  then ret (false, "Tag name contains invalid characters.")
  else
    let full_name := catalog ++ "." ++ schema ++ "." ++ table in
    let query := "ALTER TABLE " ++ full_name ++ " UNSET TAGS ('" ++ tag_name ++ "')" in
    attempt <- try_
      (execute_update (Sql query) ;;;
       user <- read get_current_user_email ;;
       log_action "TAG_REMOVE" "TABLE_TAG" full_name None
         (Some tag_name) (Some ("Removed by " ++ user))) ;;
    match attempt with
    | inl _ => ret (true, "Tag removed successfully.")
    | inr exc => ret (false, "Error removing tag: " ++ str_of_exn exc)
    end.

Definition apply_column_tag (catalog schema table column tag_name tag_value : string)
  : M W (bool * string) :=
  if negb (validate_identifier (Some tag_name))
  then ret (false, "Tag name contains invalid characters.")
  else
    let full_name := catalog ++ "." ++ schema ++ "." ++ table ++ "." ++ column in
    let query :=
      "ALTER TABLE " ++ catalog ++ "." ++ schema ++ "." ++ table ++ " "
      ++ "ALTER COLUMN " ++ column ++ " SET TAGS ('" ++ tag_name ++ "' = '"
      ++ tag_value ++ "')" in
    attempt <- try_
      (execute_update (Sql query) ;;;
       user <- read get_current_user_email ;;
       log_action "TAG_APPLY" "COLUMN_TAG" full_name None
         (Some (tag_name ++ "=" ++ tag_value)) (Some ("Applied by " ++ user))) ;;
    match attempt with
    | inl _ => ret (true, "Tag applied successfully.")
    | inr exc => ret (false, "Error applying tag: " ++ str_of_exn exc)
    end.

End WithRuntime.
End TagManager.

(* ================================================================== *)
(** * utils/access_manager.py: the query of [get_access_rules] *)
(* ================================================================== *)

Module AccessQueries.
Import PyStr Db.

(** The filter dictionary: a key is [None] when the dictionary lacks it. *)
Record rule_filters : Type := {
  filter_group_name : option string;
  filter_status : option string;
  filter_customer_id : option Z
}.

Definition no_filters : rule_filters :=
  {| filter_group_name := None; filter_status := None; filter_customer_id := None |}.

(** [filters.get(key)] is truthy. *)
Definition given_str (o : option string) : bool :=
  match o with Some s => negb (is_empty s) | None => false end.

Definition given_int (o : option Z) : bool :=
  match o with Some n => negb (n =? 0) | None => false end.

Definition status_is (o : option string) (s : string) : bool :=
  match o with Some t => String.eqb t s | None => false end.

(** The text and the parameters that [get_access_rules] hands to
    [execute_query]. *)
Definition get_access_rules_query (settings : AppSettings) (filters : rule_filters)
  : string * list (string * param) :=
  let query :=
    lines
      [ EmptyString;
        "        SELECT";
        "            id,";
        "            group_name,";
        "            customer_ids,";
        "            access_type,";
        "            effective_date,";
        "            expiration_date,";
        "            notes,";
        "            created_by,";
        "            created_at,";
        "            modified_by,";
        "            modified_at";
        "        FROM " ++ qualify_table (access_table settings) settings;
        "        WHERE 1 = 1";
        "    " ] in
  let '(query, params) :=
    if given_str (filter_group_name filters)
    then (query ++ " AND group_name = :group_name",
          [("group_name", p_str (filter_group_name filters))])
    else (query, []) in
  let query :=
    if status_is (filter_status filters) "active"
    then query ++ " AND (expiration_date IS NULL OR expiration_date > CURRENT_DATE())"
    else if status_is (filter_status filters) "expired"
    then query ++ " AND expiration_date <= CURRENT_DATE()"
    else query in
  let '(query, params) :=
    if given_int (filter_customer_id filters)
    then (query ++ " AND array_contains(customer_ids, :customer_id)",
          (params ++ [("customer_id",
                       match filter_customer_id filters with
                       | Some n => PInt n
                       | None => PNone
                       end)])%list)
    else (query, params) in
  (query ++ " ORDER BY group_name, effective_date DESC", params).

End AccessQueries.

(* ================================================================== *)
(** * utils/audit_logger.py: the query of [get_audit_log] *)
(* ================================================================== *)

Module AuditQueries.
Import PyStr Db AccessQueries.

Record audit_filters : Type := {
  filter_start_date : option Z;
  filter_end_date : option Z;
  filter_user : option string;
  filter_action_type : option (list string);
  filter_object_type : option string
}.

(** [for idx, action in enumerate(actions)] from index [idx]: the
    placeholders and the parameters. *)
Fixpoint action_placeholders (idx : Z) (actions : list string)
  : list string * list (string * param) :=
  match actions with
  | [] => ([], [])
  | action :: rest =>
      let key := "action_type_" ++ str_of_int idx in
      let '(placeholders, params) := action_placeholders (idx + 1) rest in
      (String ":" key :: placeholders, (key, PStr action) :: params)
  end.

Definition given_list (o : option (list string)) : bool :=
  match o with Some (_ :: _) => true | _ => false end.

Definition given_date (o : option Z) : bool :=
  match o with Some _ => true | None => false end.

(** The text and the parameters that [get_audit_log] hands to
    [execute_query]. *)
Definition get_audit_log_query (settings : AppSettings) (filters : audit_filters)
  : string * list (string * param) :=
  let query :=
    lines
      [ EmptyString;
        "        SELECT";
        "            timestamp,";
        "            user,";
        "            action_type,";
        "            object_type,";
        "            object_name,";
        "            old_value,";
        "            new_value,";
        "            notes";
        "        FROM " ++ qualify_table (audit_table settings) settings;
        "        WHERE 1 = 1";
        "    " ] in
  let '(query, params) :=
    if given_date (filter_start_date filters)
    then (query ++ " AND timestamp >= :start_date",
          [("start_date", p_date (filter_start_date filters))])
    else (query, []) in
  let '(query, params) :=
    if given_date (filter_end_date filters)
    then (query ++ " AND timestamp <= :end_date",
          (params ++ [("end_date", p_date (filter_end_date filters))])%list)
    else (query, params) in
  let '(query, params) :=
    if given_str (filter_user filters)
    then (query ++ " AND user = :user",
          (params ++ [("user", p_str (filter_user filters))])%list)
    else (query, params) in
  let '(query, params) :=
    if given_list (filter_action_type filters)
    then
      let '(placeholders, action_params) :=
        action_placeholders 0
          (match filter_action_type filters with Some l => l | None => [] end) in
      (query ++ " AND action_type IN (" ++ join ", " placeholders ++ ")",
       (params ++ action_params)%list)
    else (query, params) in
  let '(query, params) :=
    if given_str (filter_object_type filters)
    then (query ++ " AND object_type = :object_type",
          (params ++ [("object_type", p_str (filter_object_type filters))])%list)
    else (query, params) in
  (query ++ " ORDER BY timestamp DESC LIMIT 1000", params).

End AuditQueries.

(* ================================================================== *)
(** * pages/1_Group_Access.py *)
(* ================================================================== *)

Module GroupAccessPage.
Import PyStr Validators Db AccessManager AccessQueries Warehouse.
Local Open Scope monad_scope.

(** [_build_filters] on the three sidebar inputs: the filters, and the
    warning shown when the customer id is not an integer. *)
Definition _build_filters (group_filter customer_id_filter status_filter : string)
  : rule_filters * option string :=
  let group :=
    if is_empty group_filter then None else Some (strip group_filter) in
  let '(customer, warning) :=
    if is_empty customer_id_filter then (None, None)
    else
      match int_of_str customer_id_filter with
      | inl n => (Some n, None)
      | inr _ => (None, Some "Customer ID must be an integer.")
      end in
  let status :=
    if String.eqb status_filter "all" then None else Some status_filter in
  ({| filter_group_name := group; filter_status := status;
      filter_customer_id := customer |}, warning).

(** [_normalize_ids] on what the warehouse returns for [customer_ids]:
    NULL or an array. *)
Definition _normalize_ids (value : option (list Z)) : list Z :=
  match value with
  | None => []
  | Some items => items
  end.

(** The text the edit form shows for the ids of a rule. *)
Definition customer_ids_str (rule : AccessRule) : string :=
  join ", " (map str_of_int (_normalize_ids (customer_ids rule))).

(** [_render_metrics]: total, active and expiring-soon counts. A comparison
    with a null date is null, [|] and [&] are three-valued, and [filter]
    keeps the rows whose mask is true. *)
Definition active_mask (today_ : Z) (r : AccessRule) : sql_bool :=
  sql_or (is_null (expiration_date r))
    (option_map (fun d => today_ <? d) (expiration_date r)).

Definition expiring_mask (today_ : Z) (r : AccessRule) : sql_bool :=
  sql_and (sql_not (is_null (expiration_date r)))
    (option_map (fun d => d <=? today_ + 7) (expiration_date r)).

Definition kept (mask : sql_bool) : bool :=
  match mask with Some true => true | _ => false end.

Definition _render_metrics (today_ : Z) (rules : list AccessRule) : Z * Z * Z :=
  let total_rules := Z.of_nat (List.length rules) in
  match rules with
  | [] => (total_rules, 0, 0)
  | _ =>
      (total_rules,
       Z.of_nat (List.length (filter (fun r => kept (active_mask today_ r)) rules)),
       Z.of_nat (List.length (filter (fun r => kept (expiring_mask today_ r)) rules)))
  end.

(** The page beyond [st.error]: [st.success] and [st.rerun]. *)
Class Page (W : Type) : Type := {
  st_success : string -> W -> W;
  st_rerun : W -> W
}.

(** The errors that the add form collects before it saves. *)
Definition add_form_errors (group_name customer_ids_input : string)
    (effective_date : Z) (expiration_date : option Z) : list string :=
  let errors := if is_empty group_name then ["Group name is required."] else [] in
  let '(ids_valid, ids_value) := parse_customer_ids customer_ids_input in
  let errors :=
    if ids_valid then errors
    else (errors ++ [match ids_value with
                     | inr msg => msg
                     | inl ids => str_of_list ids
                     end])%list in
  let '(date_valid, date_error) := validate_dates effective_date expiration_date in
  if date_valid then errors
  else (errors ++ [match date_error with
                   | Some (String c r) => String c r
                   | _ => "Invalid dates."
                   end])%list.

Section WithRuntime.
Context {W : Type} `{Runtime W} `{Page W}.

(** The body of [if submit:] in [_render_add_form]. *)
Definition add_form_submitted (group_name customer_ids_input access_type : string)
    (effective_date : Z) (expiration_date : option Z) (notes : string) : M W unit :=
  match add_form_errors group_name customer_ids_input effective_date expiration_date with
  | [] =>
      saved <- add_access_rule (strip group_name)
                 (match snd (parse_customer_ids customer_ids_input) with
                  | inl ids => ids
                  | inr _ => []
                  end)
                 access_type effective_date expiration_date (Some notes) ;;
      if saved
      then write (st_success "Access rule added successfully.") ;;; write st_rerun
      else write (st_error "Failed to add access rule.")
  | errors => for_each errors (fun _ error => write (st_error error)) tt
  end.

End WithRuntime.

#[export] Instance world_page : Page World := {|
  st_success := fun msg w => with_page w (page w ++ [msg]);
  st_rerun := fun w => w
|}.

End GroupAccessPage.

(* ================================================================== *)
(** * pages/3_Audit_Reports.py: the access matrix *)
(* ================================================================== *)

Module AccessMatrix.
Import PyStr Db Warehouse GroupAccessPage.

(** The mask of [current_df]. *)
Definition current_mask (today_ : Z) (r : AccessRule) : sql_bool :=
  sql_and
    (sql_or (is_null (effective_date r))
       (option_map (fun d => d <=? today_) (effective_date r)))
    (sql_or (is_null (expiration_date r))
       (option_map (fun d => today_ <? d) (expiration_date r))).

(** The mask of [expired_df]. *)
Definition expired_mask (today_ : Z) (r : AccessRule) : sql_bool :=
  sql_and
    (sql_and (sql_not (is_null (expiration_date r)))
       (option_map (fun d => today_ - 60 <=? d) (expiration_date r)))
    (option_map (fun d => d <=? today_) (expiration_date r)).

Definition current_rules (today_ : Z) (rules : list AccessRule) : list AccessRule :=
  filter (fun r => kept (current_mask today_ r)) rules.

Definition expired_rules (today_ : Z) (rules : list AccessRule) : list AccessRule :=
  filter (fun r => kept (expired_mask today_ r)) rules.

End AccessMatrix.

(* ================================================================== *)
(** * Vocabulary of the further statements *)
(* ================================================================== *)

Module Readers.
Import PyStr.

(** Reading a quoted word after its opening quote [q], where a doubled [q]
    stands for one [q]: the word and what follows the closing quote. *)
Fixpoint read_quoted (q : ascii) (s : string) : option (string * string) :=
  match s with
  | EmptyString => None
  | String c r =>
      if Ascii.eqb c q then
        match r with
        | String c2 r2 =>
            if Ascii.eqb c2 q then
              match read_quoted q r2 with
              | Some (word, rest) => Some (String q word, rest)
              | None => None
              end
            else Some (EmptyString, r)
        | EmptyString => Some (EmptyString, EmptyString)
        end
      else
        match read_quoted q r with
        | Some (word, rest) => Some (String c word, rest)
        | None => None
        end
  end.

(** [s] does not begin with [q]. *)
Definition not_at (q : ascii) (s : string) : bool :=
  match s with
  | String c _ => negb (Ascii.eqb c q)
  | EmptyString => true
  end.

End Readers.

Module StoreSpec.
Import Db Warehouse.

(** Two worlds that differ at most in the faults still to come. *)
Definition same_store (w w' : World) : Prop :=
  settings w' = settings w /\ user_email w' = user_email w
  /\ today w' = today w /\ now w' = now w /\ member_of w' = member_of w
  /\ access_rows w' = access_rows w /\ next_id w' = next_id w
  /\ audit_rows w' = audit_rows w /\ meta w' = meta w
  /\ committed w' = committed w /\ journal w' = journal w /\ page w' = page w.

(** A computation that leaves the store as it is, on every path. *)
Definition read_only {A} (m : M World A) : Prop :=
  forall w, same_store w (snd (m w)).

(** The row that [add_access_rule] leaves in the access table. *)
Definition added_rule (w : World) (group : string) (ids : list Z) (access : string)
    (eff : Z) (exp : option Z) (nts : option string) : AccessRule :=
  {| id := next_id w; group_name := group;
     customer_ids :=
       match Validators.normalize_customer_ids ids with
       | [] => None
       | l => Some l
       end;
     access_type := access; effective_date := Some eff; expiration_date := exp;
     notes := nts; created_by := user_email w; created_at := now w;
     modified_by := user_email w; modified_at := now w |}.

(** A rule after [expire_access_rule] has reached it. *)
Definition expired_row (w : World) (r : AccessRule) : AccessRule :=
  {| id := id r; group_name := group_name r; customer_ids := customer_ids r;
     access_type := access_type r; effective_date := effective_date r;
     expiration_date := Some (today w); notes := notes r;
     created_by := created_by r; created_at := created_at r;
     modified_by := user_email w; modified_at := now w |}.


(** The audit record that [log_action] writes in world [w]. *)
Definition logged (w : World) (action_type object_type object_name : string)
    (new_value nts : option string) : AuditEntry :=
  {| audit_timestamp := now w; audit_user := user_email w;
     audit_action_type := action_type; audit_object_type := object_type;
     audit_object_name := object_name; audit_old_value := None;
     audit_new_value := new_value; audit_notes := nts |}.

(** The rule grants the customer: the two-valued reading of the row filter. *)
Definition grants (w : World) (gca : AccessRule) (customer_id : Z) : Prop :=
  In (group_name gca) (member_of w)
  /\ AccessSpec.in_window (today w) gca
  /\ match customer_ids gca with
     | None => True
     | Some ids =>
         (access_type gca = "INCLUDE" /\ In customer_id ids)
         \/ (access_type gca = "EXCLUDE" /\ ~ In customer_id ids)
     end.

End StoreSpec.

Module IdentifierSpec.
Import PyStr Identifier.

(** A name of letters, digits and underscores that does not begin with a
    digit. *)
Definition identifier (name : string) : bool :=
  match name with
  | String c r => is_ident_start c && all_chars is_ident_char r
  | EmptyString => false
  end.

End IdentifierSpec.

Module TagSpec.
Import PyStr.

(** The statements that the tag manager submits. *)
Definition set_table_tag_sql (catalog schema table tag_name tag_value : string) : string :=
  "ALTER TABLE " ++ catalog ++ "." ++ schema ++ "." ++ table
  ++ " SET TAGS ('" ++ tag_name ++ "' = '" ++ tag_value ++ "')".

Definition unset_table_tag_sql (catalog schema table tag_name : string) : string :=
  "ALTER TABLE " ++ catalog ++ "." ++ schema ++ "." ++ table
  ++ " UNSET TAGS ('" ++ tag_name ++ "')".

Definition set_column_tag_sql (catalog schema table column tag_name tag_value : string)
  : string :=
  "ALTER TABLE " ++ catalog ++ "." ++ schema ++ "." ++ table
  ++ " ALTER COLUMN " ++ column ++ " SET TAGS ('" ++ tag_name ++ "' = '"
  ++ tag_value ++ "')".

End TagSpec.

Import PyStr Validators Db AuditLogger AccessManager Auth RlsAbacManager.
Import Warehouse AuditReports ParseSpec Statements AccessSpec PlannerSpec.

Example parse_demo :
  parse_customer_ids "1, 2,5-8 ,2" = (true, inl [1; 2; 5; 6; 7; 8])
  /\ parse_customer_ids "1,x" =
       (false, inr "Invalid customer ID format: invalid literal for int() with base 10: 'x'")
  /\ parse_customer_ids "-3" =
       (false, inr "Invalid customer ID format: invalid literal for int() with base 10: ''")
  /\ str_of_int 1203 = "1203" /\ str_of_int (-45) = "-45" /\ str_of_int 0 = "0"
  /\ int_of_str " 1_000 " = inl 1000
  /\ repr "a'b" = String dquote ("a'b" ++ String dquote EmptyString)
  /\ split "," "a,b,,c" = ["a"; "b"; EmptyString; "c"]
  /\ splitn "." "a.b.c.d" 2 = ["a"; "b"; "c.d"].
Proof. vm_compute. repeat split. Qed.

(* ================================================================== *)
(** * Facts about characters and strings *)
(* ================================================================== *)

Section CharFacts.

Ltac by_cases c :=
  destruct c as [[] [] [] [] [] [] [] []]; vm_compute; intros; congruence.

Lemma digit_not_space c : is_digit c = true -> is_space c = false.
Proof. by_cases c. Qed.

Lemma digit_not_int_space c : is_digit c = true -> is_int_space c = false.
Proof. by_cases c. Qed.

Lemma int_space_is_space c : is_int_space c = true -> is_space c = true.
Proof. by_cases c. Qed.

Lemma digit_not_minus c : is_digit c = true -> Ascii.eqb c "-" = false.
Proof. by_cases c. Qed.

Lemma digit_not_comma c : is_digit c = true -> Ascii.eqb c "," = false.
Proof. by_cases c. Qed.

Lemma comma_not_space : is_space "," = false.
Proof. reflexivity. Qed.

Lemma digit_char_val d : 0 <= d < 10 -> digit_val (digit_char d) = Some d.
Proof.
  intros Hd.
  assert (Hc : d = 0 \/ d = 1 \/ d = 2 \/ d = 3 \/ d = 4 \/ d = 5 \/ d = 6
               \/ d = 7 \/ d = 8 \/ d = 9) by lia.
  repeat (destruct Hc as [-> | Hc]; [reflexivity |]). subst; reflexivity.
Qed.

Lemma digit_char_is_digit d : 0 <= d < 10 -> is_digit (digit_char d) = true.
Proof. intros Hd. unfold is_digit. now rewrite digit_char_val. Qed.

Lemma digit_val_bounds c d : digit_val c = Some d -> 0 <= d < 10.
Proof.
  unfold digit_val. destruct (_ && _) eqn:E; [|discriminate].
  intros [= <-]. apply andb_true_iff in E. lia.
Qed.

End CharFacts.

Section StringFacts.

Lemma all_chars_app p s t :
  all_chars p (s ++ t) = all_chars p s && all_chars p t.
Proof. induction s as [|c s IH]; simpl; [reflexivity|]. now rewrite IH, andb_assoc. Qed.

Lemma all_chars_impl (p q : ascii -> bool) s :
  (forall c, p c = true -> q c = true) -> all_chars p s = true -> all_chars q s = true.
Proof.
  intros Hpq. induction s as [|c s IH]; simpl; [reflexivity|].
  intros H. apply andb_true_iff in H as [H1 H2]. now rewrite (Hpq _ H1), IH.
Qed.

Lemma lstrip_none sp p s :
  (forall c, p c = true -> sp c = false) ->
  all_chars p s = true -> lstrip_by sp s = s.
Proof.
  intros Hp. destruct s as [|c s]; simpl; [reflexivity|].
  intros H. apply andb_true_iff in H as [H1 _]. now rewrite (Hp _ H1).
Qed.

Lemma rstrip_none sp p s :
  (forall c, p c = true -> sp c = false) ->
  all_chars p s = true -> rstrip_by sp s = s.
Proof.
  intros Hp. induction s as [|c s IH]; simpl; [reflexivity|].
  intros H. apply andb_true_iff in H as [H1 H2].
  rewrite (IH H2). destruct s; [now rewrite (Hp _ H1) | reflexivity].
Qed.

Lemma contains_none ch p s :
  p ch = false -> all_chars p s = true -> contains ch s = false.
Proof.
  intros Hch. induction s as [|c s IH]; simpl; [reflexivity|].
  intros H. apply andb_true_iff in H as [H1 H2]. rewrite (IH H2), orb_false_r.
  destruct (Ascii.eqb_spec c ch); [congruence | reflexivity].
Qed.

Lemma contains_app ch s t : contains ch (s ++ t) = contains ch s || contains ch t.
Proof. induction s as [|c s IH]; simpl; [reflexivity|]. now rewrite IH, orb_assoc. Qed.

(** Stripping keeps a substring: no new character appears. *)
Lemma contains_lstrip ch sp s : contains ch s = false -> contains ch (lstrip_by sp s) = false.
Proof.
  induction s as [|c s IH]; simpl; [reflexivity|].
  intros H. apply orb_false_iff in H as [H1 H2].
  destruct (sp c); [auto | simpl; now rewrite H1, H2].
Qed.

Lemma contains_rstrip ch sp s : contains ch s = false -> contains ch (rstrip_by sp s) = false.
Proof.
  induction s as [|c s IH]; simpl; [reflexivity|].
  intros H. apply orb_false_iff in H as [H1 H2]. specialize (IH H2).
  destruct (rstrip_by sp s) eqn:E.
  - destruct (sp c); simpl; [reflexivity | now rewrite H1].
  - simpl in *. now rewrite H1, IH.
Qed.

Lemma contains_strip ch s : contains ch s = false -> contains ch (strip s) = false.
Proof. intros H. unfold strip. now apply contains_rstrip, contains_lstrip. Qed.

(** [strip] leaves nothing exactly when every character is white space. *)
Lemma rstrip_empty sp s : rstrip_by sp s = EmptyString <-> all_chars sp s = true.
Proof.
  induction s as [|c s IH]; simpl; [tauto|].
  destruct (rstrip_by sp s) eqn:E.
  - destruct (sp c); simpl; [rewrite <- IH; tauto | split; discriminate].
  - split; [discriminate|]. intros H. apply andb_true_iff in H as [_ H].
    apply IH in H. discriminate.
Qed.

Lemma lstrip_all sp s : all_chars sp (lstrip_by sp s) = all_chars sp s.
Proof.
  induction s as [|c s IH]; simpl; [reflexivity|].
  destruct (sp c) eqn:E; simpl; [exact IH | now rewrite E].
Qed.

Lemma strip_empty s : strip s = EmptyString <-> all_chars is_space s = true.
Proof. unfold strip. now rewrite rstrip_empty, lstrip_all. Qed.

Lemma is_empty_true s : is_empty s = true <-> s = EmptyString.
Proof. destruct s; simpl; split; congruence. Qed.

Lemma is_empty_false s : is_empty s = false <-> s <> EmptyString.
Proof. destruct s; simpl; split; congruence. Qed.

Lemma blank_iff s : is_empty (strip s) = true <-> all_chars is_space s = true.
Proof. now rewrite is_empty_true, strip_empty. Qed.

(** ** [split] and [join] *)

Lemma split_nonempty sep s : split sep s <> [].
Proof.
  induction s as [|c s IH]; simpl; [discriminate|].
  destruct (Ascii.eqb c sep); [discriminate|].
  destruct (split sep s); [contradiction | discriminate].
Qed.

Lemma split_no_sep sep s : contains sep s = false -> split sep s = [s].
Proof.
  induction s as [|c s IH]; simpl; [reflexivity|].
  intros H. apply orb_false_iff in H as [H1 H2]. now rewrite H1, (IH H2).
Qed.

Lemma split_app_sep sep s t :
  contains sep s = false -> split sep (s ++ String sep t) = s :: split sep t.
Proof.
  induction s as [|c s IH]; simpl.
  - now rewrite Ascii.eqb_refl.
  - intros H. apply orb_false_iff in H as [H1 H2]. now rewrite H1, (IH H2).
Qed.

Lemma split_parts_no_sep sep s : Forall (fun t => contains sep t = false) (split sep s).
Proof.
  induction s as [|c s IH]; simpl; [repeat constructor|].
  destruct (Ascii.eqb c sep) eqn:E; [constructor; [reflexivity | exact IH]|].
  destruct (split sep s) as [|h t]; [repeat constructor; simpl; now rewrite E|].
  inversion IH; subst. constructor; [simpl; now rewrite E | assumption].
Qed.

Lemma split_join sep parts :
  parts <> [] -> Forall (fun t => contains sep t = false) parts ->
  split sep (join (String sep EmptyString) parts) = parts.
Proof.
  induction parts as [|p rest IH]; [intros; congruence|]. intros _ H.
  inversion H as [|? ? Hp Hrest]; subst.
  destruct rest as [|q rest].
  - simpl. now apply split_no_sep.
  - change (join (String sep EmptyString) (p :: q :: rest))
      with (p ++ String sep (join (String sep EmptyString) (q :: rest))).
    rewrite split_app_sep by exact Hp. f_equal. apply IH; [discriminate | assumption].
Qed.

Lemma splitn_zero sep s : splitn sep s 0 = [s].
Proof. destruct s; reflexivity. Qed.

Lemma splitn_one_found sep s t :
  contains sep s = false -> splitn sep (s ++ String sep t) 1 = [s; t].
Proof.
  induction s as [|c s IH]; simpl.
  - now rewrite Ascii.eqb_refl, splitn_zero.
  - intros H. apply orb_false_iff in H as [H1 H2]. rewrite H1.
    specialize (IH H2). simpl in IH. now rewrite IH.
Qed.

(** The first part of a split at the first separator holds no separator. *)
Lemma splitn_one_first sep s a b :
  splitn sep s 1 = [a; b] -> contains sep a = false.
Proof.
  revert a b. induction s as [|c s IH]; simpl; [discriminate|]. intros a b.
  destruct (Ascii.eqb c sep) eqn:E.
  - rewrite splitn_zero. intros [= <- _]. reflexivity.
  - destruct (splitn sep s 1) as [|h [|h2 [|? ?]]] eqn:Es; try discriminate.
    intros [= <- <-]. simpl. rewrite E. simpl. eapply IH. reflexivity.
Qed.

End StringFacts.

(* ================================================================== *)
(** * Decimal rendering and parsing *)
(* ================================================================== *)

Section DecimalFacts.

Lemma log2_tenth n fuel :
  10 <= n -> Z.log2 n < Z.of_nat (S fuel) -> Z.log2 (n / 10) < Z.of_nat fuel.
Proof.
  intros Hn Hlog.
  assert (Hpos : 0 < n / 10) by (apply Z.div_str_pos; lia).
  apply Z.log2_lt_pow2; [exact Hpos|].
  apply Z.log2_lt_pow2 in Hlog; [|lia].
  rewrite Nat2Z.inj_succ, Z.pow_succ_r in Hlog by lia.
  assert (0 < 2 ^ Z.of_nat fuel) by (apply Z.pow_pos_nonneg; lia).
  apply Z.div_lt_upper_bound; lia.
Qed.

(** Reading back the digits that [digits_fuel] writes in front of [acc]. *)
Lemma int_digits_fuel fuel : forall n acc b,
  0 <= n -> Z.log2 n < Z.of_nat fuel ->
  int_digits (digits_fuel fuel n acc) 0 b = int_digits acc n true.
Proof.
  induction fuel as [|fuel IH]; intros n acc b Hn Hlog.
  - pose proof (Z.log2_nonneg n). simpl in Hlog. lia.
  - cbn [digits_fuel]. destruct (n <? 10) eqn:E.
    + apply Z.ltb_lt in E. cbn [int_digits]. rewrite digit_char_val by lia.
      f_equal; lia.
    + apply Z.ltb_ge in E.
      rewrite IH; [| apply Z.div_pos; lia | now apply log2_tenth].
      cbn [int_digits]. rewrite digit_char_val by (apply Z.mod_pos_bound; lia).
      pose proof (Z.div_mod n 10 ltac:(lia)). f_equal; lia.
Qed.

Lemma digits_fuel_all fuel : forall n acc,
  0 <= n -> all_chars is_digit acc = true ->
  all_chars is_digit (digits_fuel fuel n acc) = true.
Proof.
  induction fuel as [|fuel IH]; intros n acc Hn Hacc; cbn [digits_fuel]; [exact Hacc|].
  destruct (n <? 10) eqn:E.
  - apply Z.ltb_lt in E. cbn [all_chars]. rewrite digit_char_is_digit by lia. exact Hacc.
  - apply Z.ltb_ge in E. apply IH; [apply Z.div_pos; lia|].
    cbn [all_chars]. rewrite digit_char_is_digit by (apply Z.mod_pos_bound; lia). exact Hacc.
Qed.

Lemma digits_fuel_nonempty fuel : forall n acc,
  is_empty (digits_fuel (S fuel) n acc) = false.
Proof.
  induction fuel as [|fuel IH]; intros n acc.
  - simpl. now destruct (n <? 10).
  - change (digits_fuel (S (S fuel)) n acc)
      with (if n <? 10 then String (digit_char n) acc
            else digits_fuel (S fuel) (n / 10) (String (digit_char (n mod 10)) acc)).
    destruct (n <? 10); [reflexivity | apply IH].
Qed.

Lemma digits_all n : 0 <= n -> all_chars is_digit (digits n) = true.
Proof. intros Hn. now apply digits_fuel_all. Qed.

Lemma digits_nonempty n : is_empty (digits n) = false.
Proof. apply digits_fuel_nonempty. Qed.

Lemma int_digits_digits n : 0 <= n -> int_digits (digits n) 0 false = Some n.
Proof.
  intros Hn. unfold digits. rewrite int_digits_fuel; [reflexivity | exact Hn |].
  rewrite Nat2Z.inj_succ, Z2Nat.id by apply Z.log2_nonneg. lia.
Qed.

Lemma str_of_int_nonneg n : 0 <= n -> str_of_int n = digits n.
Proof. intros Hn. unfold str_of_int. now rewrite (proj2 (Z.ltb_ge n 0)). Qed.

Lemma int_digits_nonneg s : forall acc b n,
  0 <= acc -> int_digits s acc b = Some n -> 0 <= n.
Proof.
  induction s as [|c s IH]; intros acc b n Hacc; cbn [int_digits].
  - destruct b; [intros [= <-]; exact Hacc | discriminate].
  - destruct (digit_val c) as [d|] eqn:E.
    + apply digit_val_bounds in E. apply IH. lia.
    + destruct (_ && _); [now apply IH | discriminate].
Qed.

Lemma int_sign_digit c r : is_digit c = true -> int_sign (String c r) = (false, String c r).
Proof.
  destruct c as [[] [] [] [] [] [] [] []]; intros Hc; try reflexivity;
    vm_compute in Hc; discriminate.
Qed.

Lemma int_sign_no_minus t : contains "-" t = false -> fst (int_sign t) = false.
Proof.
  destruct t as [|c r]; [reflexivity|]. cbn [contains]. intros Hc.
  apply orb_false_iff in Hc as [Hc _].
  destruct c as [[] [] [] [] [] [] [] []]; try reflexivity; vm_compute in Hc; discriminate.
Qed.

(** The scan of a string of digits counts them all. *)
Lemma scanned_all_digits s : forall at_edge count,
  all_chars is_digit s = true -> is_empty s = false \/ at_edge = false ->
  scanned_digits s at_edge count = Some (count + Z.of_nat (String.length s)).
Proof.
  induction s as [|c r IH]; intros at_edge count Hs Hne.
  - destruct Hne as [Hne | ->]; [discriminate|]. cbn. f_equal. lia.
  - cbn [all_chars] in Hs. apply andb_true_iff in Hs as [Hc Hr].
    cbn [scanned_digits String.length]. unfold is_digit in Hc.
    destruct (digit_val c); [|discriminate].
    rewrite (IH false (count + 1) Hr) by now right. f_equal. lia.
Qed.

(** What [int_digits] reads lies below the power of ten of the number of
    digits that the scan counts. *)
Lemma int_digits_scanned s : forall acc b count n,
  0 <= acc -> int_digits s acc b = Some n ->
  exists c, 0 <= c
            /\ scanned_digits s (negb b) count = Some (count + c)
            /\ n < (acc + 1) * 10 ^ c.
Proof.
  induction s as [|ch r IH]; intros acc b count n Hacc; cbn [int_digits scanned_digits].
  - destruct b; [|discriminate]. intros [= <-]. exists 0. cbn [negb].
    rewrite Z.add_0_r, Z.pow_0_r. repeat split; lia.
  - destruct (digit_val ch) as [d|] eqn:E.
    + apply digit_val_bounds in E. intros Hn.
      destruct (IH (10 * acc + d) true (count + 1) n ltac:(lia) Hn) as (c & Hc & Hs & Hlt).
      exists (c + 1). cbn [negb] in Hs. rewrite Hs.
      split; [lia|]. split; [f_equal; lia|].
      rewrite Z.pow_add_r, Z.pow_1_r by lia.
      assert (Hp : 0 < 10 ^ c) by (apply Z.pow_pos_nonneg; lia). nia.
    + destruct (Ascii.eqb ch "_"); cbn [andb]; [|discriminate].
      destruct b; [|discriminate]. cbn [negb]. intros Hn.
      destruct (IH acc false count n Hacc Hn) as (c & Hc & Hs & Hlt).
      exists c. cbn [negb] in Hs. now rewrite Hs.
Qed.

Lemma digits_fuel_length fuel : forall n acc k,
  0 <= n < 10 ^ k -> 1 <= k ->
  Z.of_nat (String.length (digits_fuel fuel n acc)) <= k + Z.of_nat (String.length acc).
Proof.
  induction fuel as [|fuel IH]; intros n acc k Hn Hk; cbn [digits_fuel]; [lia|].
  destruct (n <? 10) eqn:E.
  - cbn [String.length]. lia.
  - apply Z.ltb_ge in E.
    assert (Hk2 : 2 <= k).
    { destruct (Z.eq_dec k 1) as [-> | Hne]; [rewrite Z.pow_1_r in Hn; lia | lia]. }
    assert (Hpow : 10 ^ k = 10 * 10 ^ (k - 1)).
    { replace k with (Z.succ (k - 1)) at 1 by lia. apply Z.pow_succ_r. lia. }
    assert (Hdiv : 0 <= n / 10 < 10 ^ (k - 1)).
    { split; [apply Z.div_pos; lia|]. apply Z.div_lt_upper_bound; lia. }
    specialize (IH (n / 10) (String (digit_char (n mod 10)) acc) (k - 1) Hdiv ltac:(lia)).
    cbn [String.length] in IH. lia.
Qed.

Lemma digits_length n k :
  0 <= n < 10 ^ k -> 1 <= k -> Z.of_nat (String.length (digits n)) <= k.
Proof.
  intros Hn Hk. pose proof (digits_fuel_length (S (Z.to_nat (Z.log2 n))) n EmptyString k Hn Hk).
  unfold digits. cbn [String.length] in *. lia.
Qed.

(** A literal of digits only, within the limit: no white space to skip
    and no sign. *)
Lemma int_of_str_unsigned s :
  all_chars is_digit s = true ->
  Z.of_nat (String.length s) <= max_str_digits ->
  int_of_str s =
    match int_digits s 0 false with
    | Some n => inl n
    | None => inr ("invalid literal for int() with base 10: " ++ take 200 (repr s))
    end.
Proof.
  intros Hs Hlen. unfold int_of_str.
  rewrite (lstrip_none _ _ _ digit_not_int_space Hs).
  rewrite (rstrip_none _ _ _ digit_not_int_space Hs).
  destruct s as [|c r]; [reflexivity|].
  pose proof Hs as Hc. cbn [all_chars] in Hc. apply andb_true_iff in Hc as [Hc _].
  rewrite (int_sign_digit c r Hc).
  rewrite (scanned_all_digits (String c r) true 0 Hs) by now left.
  rewrite (proj2 (Z.ltb_ge _ _)) by lia.
  now destruct (int_digits (String c r) 0 false).
Qed.

Lemma int_of_str_digits n : 0 <= n < int_limit -> int_of_str (digits n) = inl n.
Proof.
  intros Hn. rewrite int_of_str_unsigned.
  - now rewrite int_digits_digits.
  - apply digits_all. lia.
  - apply digits_length; [exact Hn | unfold max_str_digits; lia].
Qed.







(** Whatever [int] reads lies within the limit. *)
Lemma int_of_str_bound s n : int_of_str s = inl n -> - int_limit < n < int_limit.
Proof.
  unfold int_of_str.
  destruct (int_sign _) as [negative d].
  destruct (int_digits d 0 false) as [m|] eqn:Em.
  2:{ destruct (scanned_digits d true 0) as [count|]; [destruct (_ <? _)|]; discriminate. }
  destruct (int_digits_scanned d 0 false 0 m ltac:(lia) Em) as (c & Hc & Hs & Hlt).
  cbn [negb] in Hs. rewrite Hs. rewrite Z.add_0_l. rewrite Z.add_0_l, Z.mul_1_l in Hlt.
  destruct (Z.ltb_spec max_str_digits c) as [Hover | Hfits]; [discriminate|].
  assert (Hm : 0 <= m) by (eapply int_digits_nonneg; [|exact Em]; lia).
  assert (Hpow : 10 ^ c <= int_limit) by (apply Z.pow_le_mono_r; lia).
  intros [= <-]. destruct negative; lia.
Qed.

Lemma strip_digits n : 0 <= n -> strip (digits n) = digits n.
Proof.
  intros Hn. unfold strip.
  rewrite (lstrip_none _ _ _ digit_not_space (digits_all n Hn)).
  apply (rstrip_none _ _ _ digit_not_space (digits_all n Hn)).
Qed.

Lemma digits_no_char ch n : is_digit ch = false -> 0 <= n -> contains ch (digits n) = false.
Proof. intros Hch Hn. apply (contains_none ch is_digit); [exact Hch | now apply digits_all]. Qed.

(** [int] of a string without a minus sign is never negative. *)
Lemma int_of_str_nonneg s n :
  contains "-" s = false -> int_of_str s = inl n -> 0 <= n.
Proof.
  intros Hs. unfold int_of_str.
  set (t := rstrip_by is_int_space (lstrip_by is_int_space s)).
  assert (Ht : contains "-" t = false) by now apply contains_rstrip, contains_lstrip.
  pose proof (int_sign_no_minus t Ht) as Hsign.
  destruct (int_sign t) as [negative d]. cbn [fst] in Hsign. subst negative.
  destruct (int_digits d 0 false) as [m|] eqn:Em.
  - assert (Hm : 0 <= m) by (eapply int_digits_nonneg; [|exact Em]; lia).
    destruct (scanned_digits d true 0) as [count|]; [destruct (_ <? _)|];
      try discriminate; intros [= <-]; exact Hm.
  - destruct (scanned_digits d true 0) as [count|]; [destruct (_ <? _)|]; discriminate.
Qed.

End DecimalFacts.

(* ================================================================== *)
(** * Sorting and distinct elements *)
(* ================================================================== *)

Section SortingFacts.

Lemma insert_perm x l : Permutation (insert x l) (x :: l).
Proof.
  induction l as [|y t IH]; simpl; [reflexivity|].
  destruct (x <=? y); [reflexivity|].
  rewrite IH. apply perm_swap.
Qed.

Lemma sorted_perm l : Permutation (sorted l) l.
Proof.
  induction l as [|x t IH]; simpl; [reflexivity|].
  rewrite insert_perm. now constructor.
Qed.

Lemma insert_le x l :
  StronglySorted Z.le l -> StronglySorted Z.le (insert x l).
Proof.
  induction 1 as [|y t Hs IH Hall]; simpl; [repeat constructor|].
  destruct (x <=? y) eqn:E.
  - apply Z.leb_le in E. constructor; [now constructor|].
    constructor; [exact E|]. eapply Forall_impl; [|exact Hall]. intros; lia.
  - apply Z.leb_gt in E. constructor; [exact IH|].
    eapply Permutation_Forall; [symmetry; apply insert_perm|].
    constructor; [lia | exact Hall].
Qed.

Lemma sorted_le l : StronglySorted Z.le (sorted l).
Proof. induction l; simpl; [constructor | now apply insert_le]. Qed.

Lemma le_nodup_lt l : StronglySorted Z.le l -> NoDup l -> StronglySorted Z.lt l.
Proof.
  induction 1 as [|y t Hs IH Hall]; intros Hnd; [constructor|].
  inversion Hnd as [|? ? Hnotin Hnd']; subst.
  constructor; [now apply IH|].
  rewrite Forall_forall in *. intros z Hz.
  specialize (Hall z Hz). assert (z <> y) by (intros ->; contradiction). lia.
Qed.

(** [sorted(set(xs))] is strictly ascending, so it has no duplicate. *)
Lemma sorted_set_ascending l : StronglySorted Z.lt (sorted (set_of l)).
Proof.
  apply le_nodup_lt; [apply sorted_le|].
  eapply Permutation_NoDup; [symmetry; apply sorted_perm | apply NoDup_nodup].
Qed.

Lemma sorted_set_in l x : In x (sorted (set_of l)) <-> In x l.
Proof.
  unfold set_of. rewrite <- (nodup_In Z.eq_dec l x).
  split; apply Permutation_in; [| symmetry]; apply sorted_perm.
Qed.

Lemma ascending_nodup l : StronglySorted Z.lt l -> NoDup l.
Proof.
  induction 1 as [|y t Hs IH Hall]; constructor; [|exact IH].
  intros Hin. rewrite Forall_forall in Hall. specialize (Hall y Hin). lia.
Qed.

Lemma sorted_fixed l : StronglySorted Z.lt l -> sorted l = l.
Proof.
  induction 1 as [|y t Hs IH Hall]; simpl; [reflexivity|]. rewrite IH.
  destruct t as [|z t']; [reflexivity|]. simpl.
  inversion Hall; subst. now rewrite (proj2 (Z.leb_le y z)) by lia.
Qed.

Lemma sorted_set_fixed l : StronglySorted Z.lt l -> sorted (set_of l) = l.
Proof.
  intros H. unfold set_of. rewrite nodup_fixed_point by now apply ascending_nodup.
  now apply sorted_fixed.
Qed.

End SortingFacts.

(* ================================================================== *)
(** * The identifier parser *)
(* ================================================================== *)

Section ParseFacts.

Lemma range_nonneg start stop : 0 <= start -> Forall (fun i => 0 <= i) (range start stop).
Proof.
  intros Hs. unfold range. apply Forall_forall. intros x Hx.
  apply in_map_iff in Hx as (i & <- & _). lia.
Qed.

Lemma parse_parts_blank part rest ids :
  nonblank part = false -> parse_parts (part :: rest) ids = parse_parts rest ids.
Proof.
  unfold nonblank. intros H. apply negb_false_iff in H.
  cbn [parse_parts]. now rewrite H.
Qed.

Lemma parse_parts_filter parts : forall ids,
  parse_parts parts ids = parse_parts (filter nonblank parts) ids.
Proof.
  induction parts as [|p rest IH]; intros ids; [reflexivity|].
  cbn [filter]. destruct (nonblank p) eqn:E.
  - unfold nonblank in E. apply negb_true_iff in E.
    cbn [parse_parts]. rewrite E.
    destruct (contains "-" (strip p)).
    + destruct (splitn "-" (strip p) 1) as [|a [|b [|? ?]]]; try reflexivity.
      destruct (int_of_str (strip a)); [|reflexivity].
      destruct (int_of_str (strip b)); [|reflexivity].
      destruct (_ <? _); [reflexivity | apply IH].
    + destruct (int_of_str (strip p)); [apply IH | reflexivity].
  - rewrite parse_parts_blank by exact E. apply IH.
Qed.

Lemma range_within start stop :
  0 <= start -> stop < int_limit ->
  Forall (fun i => 0 <= i < int_limit) (range start (stop + 1)).
Proof.
  intros Hs He. unfold range. apply Forall_forall. intros x Hx.
  apply in_map_iff in Hx as (i & <- & Hi). apply in_seq in Hi. lia.
Qed.

(** What a successful parse returns: the sorted distinct elements of a
    list of non-negative integers that [int] has read. *)
Lemma parse_parts_success parts : forall acc ids,
  Forall (fun i => 0 <= i < int_limit) acc ->
  parse_parts parts acc = (true, inl ids) ->
  exists collected,
    ids = sorted (set_of collected) /\ Forall (fun i => 0 <= i < int_limit) collected.
Proof.
  induction parts as [|p rest IH]; intros acc ids Hacc; cbn [parse_parts].
  - intros [= <-]. now exists acc.
  - destruct (is_empty (strip p)); [now apply IH|].
    destruct (contains "-" (strip p)) eqn:Eminus.
    + destruct (splitn "-" (strip p) 1) as [|a [|b [|? ?]]] eqn:Es;
        try (unfold format_error; discriminate).
      destruct (int_of_str (strip a)) as [start|] eqn:Ea;
        [|unfold format_error; discriminate].
      destruct (int_of_str (strip b)) as [stop|] eqn:Eb;
        [|unfold format_error; discriminate].
      destruct (stop <? start); [discriminate|].
      apply IH. apply Forall_app. split; [exact Hacc|].
      apply range_within; [|apply (int_of_str_bound _ _ Eb)].
      eapply int_of_str_nonneg; [|exact Ea].
      apply contains_strip. eapply splitn_one_first. exact Es.
    + destruct (int_of_str (strip p)) as [n|] eqn:En;
        [|unfold format_error; discriminate].
      apply IH. apply Forall_app. split; [exact Hacc|].
      repeat constructor; [eapply int_of_str_nonneg; eassumption|].
      apply (int_of_str_bound _ _ En).
Qed.



Lemma parse_success s ids :
  parse_customer_ids s = (true, inl ids) ->
  exists collected,
    ids = sorted (set_of collected) /\ Forall (fun i => 0 <= i < int_limit) collected.
Proof.
  unfold parse_customer_ids. destruct (_ || _).
  - intros [= <-]. exists []. split; [reflexivity | constructor].
  - apply parse_parts_success. constructor.
Qed.

Lemma parse_success_within s ids :
  parse_customer_ids s = (true, inl ids) -> Forall (fun i => 0 <= i < int_limit) ids.
Proof.
  intros H. apply parse_success in H as (c & -> & Hc).
  rewrite Forall_forall in *. intros x Hx. apply Hc. now apply sorted_set_in.
Qed.

Lemma parse_success_nonneg s ids :
  parse_customer_ids s = (true, inl ids) -> Forall (fun i => 0 <= i) ids.
Proof.
  intros H. apply parse_success_within in H.
  eapply Forall_impl; [|exact H]. cbn beta. intros i Hi. lia.
Qed.

Lemma parse_success_ascending s ids :
  parse_customer_ids s = (true, inl ids) -> StronglySorted Z.lt ids.
Proof. intros H. apply parse_success in H as (c & -> & _). apply sorted_set_ascending. Qed.

(** Parsing the rendering of non-negative ids within the limit collects
    exactly them. *)
Lemma parse_parts_rendered l : forall acc,
  Forall (fun i => 0 <= i < int_limit) l ->
  parse_parts (map str_of_int l) acc = (true, inl (sorted (set_of (acc ++ l)))).
Proof.
  induction l as [|n l IH]; intros acc Hl; cbn [map parse_parts].
  - now rewrite app_nil_r.
  - inversion Hl as [|? ? Hn Hl']; subst. pose proof (proj1 Hn) as Hpos.
    rewrite str_of_int_nonneg, strip_digits, digits_nonempty by exact Hpos.
    rewrite (digits_no_char "-" n eq_refl Hpos), int_of_str_digits by exact Hn.
    rewrite IH by exact Hl'. now rewrite <- app_assoc.
Qed.

Lemma rendered_chars l :
  Forall (fun i => 0 <= i) l ->
  all_chars (fun c => is_digit c || Ascii.eqb c ",") (render_ids l) = true.
Proof.
  unfold render_ids. induction l as [|n l IH]; intros Hl; [reflexivity|].
  inversion Hl as [|? ? Hn Hl']; subst.
  assert (Hd : all_chars (fun c => is_digit c || Ascii.eqb c ",") (str_of_int n) = true).
  { rewrite str_of_int_nonneg by exact Hn.
    apply (all_chars_impl is_digit); [intros c ->; reflexivity | now apply digits_all]. }
  destruct l as [|m l]; [exact Hd|].
  change (join "," (map str_of_int (n :: m :: l)))
    with (str_of_int n ++ "," ++ join "," (map str_of_int (m :: l))).
  rewrite !all_chars_app, Hd, (IH Hl'). reflexivity.
Qed.

End ParseFacts.

Section ParseTheorems.

Lemma is_empty_app s t : is_empty (s ++ t) = is_empty s && is_empty t.
Proof. destruct s; reflexivity. Qed.

Lemma join_cons sep t rest :
  join sep (t :: rest) = t ++ match rest with [] => EmptyString | _ => sep ++ join sep rest end.
Proof.
  destruct rest; [|reflexivity]. simpl.
  induction t as [|c t IH]; simpl; [reflexivity | now rewrite <- IH].
Qed.

Lemma not_blank_not_empty s : is_empty (strip s) = false -> is_empty s = false.
Proof. destruct s; [discriminate | reflexivity]. Qed.

Lemma strip_unchanged p s :
  (forall c, p c = true -> is_space c = false) -> all_chars p s = true -> strip s = s.
Proof.
  intros Hp Hs. unfold strip. rewrite (lstrip_none _ _ _ Hp Hs).
  apply (rstrip_none _ _ _ Hp Hs).
Qed.

Lemma digit_or_comma_not_space c :
  is_digit c || Ascii.eqb c "," = true -> is_space c = false.
Proof. destruct c as [[] [] [] [] [] [] [] []]; vm_compute; intros; congruence. Qed.

Lemma digit_or_minus_not_space c :
  is_digit c || Ascii.eqb c "-" = true -> is_space c = false.
Proof. destruct c as [[] [] [] [] [] [] [] []]; vm_compute; intros; congruence. Qed.

Lemma parse_rendered ids :
  Forall (fun i => 0 <= i < int_limit) ids -> StronglySorted Z.lt ids ->
  parse_customer_ids (render_ids ids) = (true, inl ids).
Proof.
  intros Hin Hasc. destruct ids as [|n l]; [reflexivity|].
  assert (Hpos : Forall (fun i => 0 <= i) (n :: l))
    by (eapply Forall_impl; [|exact Hin]; cbn beta; intros i Hi; lia).
  pose proof (rendered_chars _ Hpos) as Hchars.
  assert (Hne : is_empty (render_ids (n :: l)) = false).
  { unfold render_ids. cbn [map]. rewrite join_cons, is_empty_app.
    inversion Hpos; subst. now rewrite str_of_int_nonneg, digits_nonempty. }
  unfold parse_customer_ids.
  rewrite (strip_unchanged _ _ digit_or_comma_not_space Hchars), Hne. cbn [orb].
  unfold render_ids. rewrite split_join.
  - rewrite parse_parts_rendered by exact Hin. cbn [app].
    now rewrite sorted_set_fixed.
  - discriminate.
  - apply Forall_map. eapply Forall_impl; [|exact Hpos]. cbn beta. intros i Hi.
    rewrite str_of_int_nonneg by exact Hi. now apply digits_no_char.
Qed.





Lemma parse_blank s : is_empty (strip s) = true -> parse_customer_ids s = (true, inl []).
Proof. intros H. unfold parse_customer_ids. now rewrite H, orb_true_r. Qed.

Lemma parse_drop_empty_tokens s :
  parse_customer_ids s = parse_customer_ids (drop_empty_tokens s).
Proof.
  unfold drop_empty_tokens.
  destruct (is_empty (strip s)) eqn:Eblank.
  - (* nothing but white space: one blank token *)
    rewrite parse_blank by exact Eblank.
    apply blank_iff in Eblank.
    rewrite (split_no_sep "," s) by (apply (contains_none _ is_space); auto).
    cbn [filter]. unfold nonblank at 1.
    rewrite (proj2 (blank_iff s) Eblank). reflexivity.
  - pose proof (not_blank_not_empty _ Eblank) as Ene.
    unfold parse_customer_ids at 1. rewrite Eblank, Ene. cbn [orb].
    rewrite parse_parts_filter.
    pose proof (split_parts_no_sep "," s) as Hsep.
    assert (Hkept : Forall (fun t => contains "," t = false)
                      (filter nonblank (split "," s))).
    { apply Forall_forall. intros t Ht. apply filter_In in Ht as [Ht _].
      rewrite Forall_forall in Hsep. now apply Hsep. }
    destruct (filter nonblank (split "," s)) as [|t rest] eqn:Ek; [reflexivity|].
    assert (Ht : nonblank t = true).
    { assert (Hin : In t (filter nonblank (split "," s))) by (rewrite Ek; now left).
      now apply filter_In in Hin. }
    assert (Hj : is_empty (strip (join "," (t :: rest))) = false).
    { apply not_true_iff_false. rewrite blank_iff, join_cons, all_chars_app.
      unfold nonblank in Ht. apply negb_true_iff in Ht.
      apply not_true_iff_false in Ht. rewrite blank_iff in Ht.
      apply not_true_iff_false in Ht. now rewrite Ht. }
    unfold parse_customer_ids.
    rewrite Hj, (not_blank_not_empty _ Hj). cbn [orb].
    rewrite split_join; [reflexivity | discriminate | exact Hkept].
Qed.

End ParseTheorems.


(** Claim C8. [normalize_customer_ids] is idempotent, and for every string
    that [parse_customer_ids] accepts, parsing the comma-joined rendering of
    the ids it returned gives the same ids again. *)
Theorem normalize_idempotent_parse_roundtrip :
  (forall ids,
      normalize_customer_ids (normalize_customer_ids ids) = normalize_customer_ids ids)
  /\ (forall s ids,
        parse_customer_ids s = (true, inl ids) ->
        parse_customer_ids (render_ids ids) = (true, inl ids)).
Proof.
  split.
  - intros ids. unfold normalize_customer_ids.
    apply sorted_set_fixed, sorted_set_ascending.
  - intros s ids H. apply parse_rendered.
    + now apply parse_success_within in H.
    + now apply parse_success_ascending in H.
Qed.

(** Claim C10. Empty tokens never matter: on every input string
    [parse_customer_ids] returns what it returns on the same input with the
    empty and blank tokens removed, so "1,,2," parses like "1,2". *)
Theorem parse_skips_empty_tokens :
  (forall s, parse_customer_ids s = parse_customer_ids (drop_empty_tokens s))
  /\ drop_empty_tokens "1,,2," = "1,2"
  /\ parse_customer_ids "1,,2," = (true, inl [1; 2]).
Proof.
  split; [exact parse_drop_empty_tokens|]. split; reflexivity.
Qed.

(* ================================================================== *)
(** * Calls through the connector *)
(* ================================================================== *)

Section MonadFacts.
Context {W : Type} `{Runtime W}.

Lemma bind_return {A B} (m : M W A) (k : A -> M W B) w a w' :
  m w = (Return a, w') -> bind m k w = k a w'.
Proof. unfold bind. now intros ->. Qed.

Lemma bind_raise {A B} (m : M W A) (k : A -> M W B) w e w' :
  m w = (Raise e, w') -> bind m k w = (Raise e, w').
Proof. unfold bind. now intros ->. Qed.

Lemma execute_query_cases (q : statement) w :
  (exists c w', cursor_execute q w = (Return c, w')
                /\ execute_query q w = (Return (fetchall c), w'))
  \/ (exists e w', cursor_execute q w = (Raise e, w')
                   /\ execute_query q w = (Raise e, w')).
Proof.
  unfold execute_query, bind, ret.
  destruct (cursor_execute q w) as [[c|e] w']; [left | right]; eauto.
Qed.

Lemma execute_update_cases (q : statement) w :
  (exists c w', cursor_execute q w = (Return c, w')
                /\ execute_update q w
                   = (Return (match rowcount c with Some n => n | None => 0 end), w'))
  \/ (exists e w', cursor_execute q w = (Raise e, w')
                   /\ execute_update q w = (Raise e, w')).
Proof.
  unfold execute_update, bind, ret.
  destruct (cursor_execute q w) as [[c|e] w']; [left | right]; eauto.
Qed.

End MonadFacts.

Section AuthTheorem.
Context {W : Type} `{Runtime W}.

(** Claim C3. When the membership query raises, or returns no rows,
    [check_admin_access] returns [False]. It returns [True] only when the
    query came back with a first row whose [is_admin] is truthy, and it
    never raises. *)
Theorem check_admin_access_fails_closed (w : W) :
  (forall e w', execute_query (admin_query w) w = (Raise e, w') ->
                fst (check_admin_access w) = Return false)
  /\ (forall w', execute_query (admin_query w) w = (Return [], w') ->
                 fst (check_admin_access w) = Return false)
  /\ (fst (check_admin_access w) = Return true ->
      exists first rest w',
        execute_query (admin_query w) w = (Return (first :: rest), w')
        /\ truthy (get first "is_admin") = true)
  /\ (forall e, fst (check_admin_access w) <> Raise e).
Proof.
  unfold check_admin_access, admin_query, bind, read, try_, write, ret.
  destruct (execute_query _ w) as [[[|first rest]|e] w'] eqn:E; cbn.
  - repeat split; try discriminate; reflexivity.
  - repeat split; try discriminate.
    intros [= Ht]. now exists first, rest, w'.
  - repeat split; try discriminate; try reflexivity.
    all: destruct e; cbn; try discriminate; reflexivity.
Qed.
End AuthTheorem.

Section AddTheorem.
Context {W : Type} `{Runtime W}.

Variables (group_name : string) (customer_ids : list Z) (access_type : string)
          (effective_date : Z) (expiration_date : option Z) (notes : option string).

(** Claim C4, amended. [add_access_rule] returns [True] when the INSERT of
    the rule and the INSERT of the audit record both go through. A fault
    raised by either call leaves [add_access_rule] as that exception, and
    [add_access_rule] never returns [False]. *)
Theorem add_access_rule_outcomes (w : W) :
  (forall e w1,
      cursor_execute
        (add_insert w group_name customer_ids access_type effective_date
           expiration_date notes) w = (Raise e, w1) ->
      add_access_rule group_name customer_ids access_type effective_date
        expiration_date notes w = (Raise e, w1))
  /\ (forall c w1 e w2,
        cursor_execute
          (add_insert w group_name customer_ids access_type effective_date
             expiration_date notes) w = (Return c, w1) ->
        cursor_execute (add_audit w1 group_name customer_ids access_type notes) w1
        = (Raise e, w2) ->
        add_access_rule group_name customer_ids access_type effective_date
          expiration_date notes w = (Raise e, w2))
  /\ (forall c w1 c' w2,
        cursor_execute
          (add_insert w group_name customer_ids access_type effective_date
             expiration_date notes) w = (Return c, w1) ->
        cursor_execute (add_audit w1 group_name customer_ids access_type notes) w1
        = (Return c', w2) ->
        add_access_rule group_name customer_ids access_type effective_date
          expiration_date notes w = (Return true, w2))
  /\ (forall w',
        add_access_rule group_name customer_ids access_type effective_date
          expiration_date notes w <> (Return false, w')).
Proof.
  unfold add_access_rule, log_action, add_insert, add_audit, execute_update,
    bind, read, ret.
  destruct (cursor_execute _ w) as [[c|e] w1] eqn:E1.
  - destruct (cursor_execute _ w1) as [[c'|e'] w2] eqn:E2.
    all: repeat split; try discriminate.
    all: intros ? ? ? ? [= <- <-]; rewrite E2; intros [= <- <-] || intros [= <-];
      reflexivity.
  - repeat split; try discriminate. now intros ? ? [= <- <-].
Qed.
End AddTheorem.

Section ApplyTheorem.
Context {W : Type} `{Runtime W}.

Lemma for_each_cons {A S} (a : A) rest (body : S -> A -> M W S) s w :
  for_each (a :: rest) body s w
  = match body s a w with
    | (Return s', w') => for_each rest body s' w'
    | (Raise e, w') => (Raise e, w')
    end.
Proof. reflexivity. Qed.

Lemma step_eq executed action w :
  step executed action w
  = match execute_update (Sql (sql action)) w with
    | (Return _, w') => (Return (executed ++ [sql action])%list, w')
    | (Raise e, w') => (Raise e, w')
    end.
Proof. reflexivity. Qed.

Lemma apply_from actions : forall executed w,
  for_each actions step executed w
  = match for_each actions step [] w with
    | (Return l, w') => (Return (executed ++ l)%list, w')
    | (Raise e, w') => (Raise e, w')
    end.
Proof.
  induction actions as [|a rest IH]; intros executed w.
  - cbn [for_each]. unfold ret. now rewrite app_nil_r.
  - rewrite !for_each_cons, !step_eq.
    destruct (execute_update (Sql (sql a)) w) as [[n|e] w1]; [|reflexivity].
    rewrite (IH (executed ++ [sql a])%list), (IH ([] ++ [sql a])%list).
    destruct (for_each rest step [] w1) as [[l|e] w2]; [|reflexivity].
    now rewrite <- app_assoc.
Qed.

Lemma apply_cons a rest w :
  apply_propagation (a :: rest) w
  = match execute_update (Sql (sql a)) w with
    | (Return _, w1) =>
        match apply_propagation rest w1 with
        | (Return l, w2) => (Return (sql a :: l), w2)
        | (Raise e, w2) => (Raise e, w2)
        end
    | (Raise e, w1) => (Raise e, w1)
    end.
Proof.
  unfold apply_propagation. fold step. rewrite for_each_cons, step_eq.
  destruct (execute_update (Sql (sql a)) w) as [[n|e] w1]; [|reflexivity].
  now rewrite apply_from.
Qed.

Lemma apply_returns_plan actions : forall w executed w',
  apply_propagation actions w = (Return executed, w') -> executed = map sql actions.
Proof.
  induction actions as [|a rest IH]; intros w executed w'.
  - now intros [= <- _].
  - rewrite apply_cons.
    destruct (execute_update (Sql (sql a)) w) as [[n|e] w1]; [|discriminate].
    destruct (apply_propagation rest w1) as [[l|e] w2] eqn:E; [|discriminate].
    intros [= <- <-]. cbn [map]. f_equal. eapply IH; exact E.
Qed.

Lemma apply_stops done_ : forall w failing rest w1 e w2,
  apply_propagation done_ w = (Return (map sql done_), w1) ->
  execute_update (Sql (sql failing)) w1 = (Raise e, w2) ->
  apply_propagation (done_ ++ failing :: rest) w = (Raise e, w2).
Proof.
  induction done_ as [|a done_ IH]; intros w failing rest w1 e w2.
  - intros [= <-] Hf. cbn [app]. rewrite apply_cons. now rewrite Hf.
  - rewrite <- app_comm_cons, !apply_cons.
    destruct (execute_update (Sql (sql a)) w) as [[n|e0] w0]; [|discriminate].
    destruct (apply_propagation done_ w0) as [[l|e0] w0'] eqn:E; [|discriminate].
    intros [= Hl <-] Hf. subst l.
    now rewrite (IH _ _ rest _ _ _ E Hf).
Qed.

Lemma apply_raise_prefix actions : forall w e w',
  apply_propagation actions w = (Raise e, w') ->
  exists done_ failing rest w1,
    actions = (done_ ++ failing :: rest)%list
    /\ apply_propagation done_ w = (Return (map sql done_), w1)
    /\ execute_update (Sql (sql failing)) w1 = (Raise e, w').
Proof.
  induction actions as [|a rest IH]; intros w e w'.
  - discriminate.
  - rewrite apply_cons.
    destruct (execute_update (Sql (sql a)) w) as [[n|e0] w1] eqn:Ea.
    + destruct (apply_propagation rest w1) as [[l|e1] w2] eqn:E; [discriminate|].
      intros [= <- <-]. destruct (IH _ _ _ E) as (d & f & r & w3 & -> & Hd & Hf).
      exists (a :: d), f, r, w3. split; [reflexivity|]. split; [|exact Hf].
      rewrite apply_cons, Ea, Hd. reflexivity.
    + intros [= <- <-]. exists [], a, rest, w. now repeat split.
Qed.

(** Claim C2, amended. [apply_propagation] executes the statements in plan
    order and stops at the first one that fails: the exception of that
    statement leaves the call, in the world right after the failed attempt,
    so no later action is attempted and no list is returned. Every raise
    arises this way, and when the call returns it returns every planned
    statement in plan order. *)
Theorem apply_propagation_stops_at_first_failure
    (actions : list PropagationAction) (w : W) :
  (forall done_ failing rest w1 e w2,
      actions = (done_ ++ failing :: rest)%list ->
      apply_propagation done_ w = (Return (map sql done_), w1) ->
      execute_update (Sql (sql failing)) w1 = (Raise e, w2) ->
      apply_propagation actions w = (Raise e, w2))
  /\ (forall e w',
        apply_propagation actions w = (Raise e, w') ->
        exists done_ failing rest w1,
          actions = (done_ ++ failing :: rest)%list
          /\ apply_propagation done_ w = (Return (map sql done_), w1)
          /\ execute_update (Sql (sql failing)) w1 = (Raise e, w'))
  /\ (forall executed w',
        apply_propagation actions w = (Return executed, w') ->
        executed = map sql actions).
Proof.
  split; [|split].
  - intros d f r w1 e w2 -> Hd Hf. eapply apply_stops; eassumption.
  - apply apply_raise_prefix.
  - apply apply_returns_plan.
Qed.
End ApplyTheorem.

(* ================================================================== *)
(** * The access rule store *)
(* ================================================================== *)

Section DeleteFacts.

Lemma deletable_spec today_ rule_id r :
  deletable today_ rule_id r = true <-> id r = rule_id /\ expired_by today_ r.
Proof.
  unfold deletable, has_id, expired_by. rewrite andb_true_iff, Z.eqb_eq.
  destruct (expiration_date r) as [x|].
  - rewrite Z.leb_le. split.
    + intros [? ?]. eauto.
    + intros [? (y & [= <-] & ?)]. auto.
  - split; [intros [_ ?]; discriminate | intros [_ (y & ? & _)]; discriminate].
Qed.

Lemma filter_nil_iff {A} (p : A -> bool) l :
  filter p l = [] <-> forall x, In x l -> p x = false.
Proof.
  induction l as [|a l IH]; simpl; [tauto|].
  destruct (p a) eqn:E.
  - split; [discriminate|]. intros Hall. rewrite Hall in E by now left. discriminate.
  - rewrite IH. split; [intros Hall x [<-|Hx]; auto | auto].
Qed.

Lemma filter_negb_all {A} (p : A -> bool) l : filter p l = [] -> filter (fun x => negb (p x)) l = l.
Proof.
  induction l as [|a l IH]; simpl; [reflexivity|].
  destruct (p a); [discriminate|]. intros Hn. simpl. now rewrite IH.
Qed.

End DeleteFacts.

Section DeleteFollowsRowcount.
Context {W : Type} `{Runtime W}.

(** For every connector: [delete_access_rule] answers from the row count
    that the cursor reports, [True] exactly when it is positive, and
    calls [log_action] exactly when it is not 0. *)
Lemma delete_follows_rowcount (rule_id : Z) (w : W) (c : cursor) (w1 : W) :
  cursor_execute
    (DeleteAccessRule (qualify_table (access_table (get_settings w)) (get_settings w))
       rule_id) w = (Return c, w1) ->
  let row_count := match rowcount c with Some n => n | None => 0 end in
  delete_access_rule rule_id w
  = if row_count =? 0 then (Return false, w1)
    else bind (log_action "DELETE" "GROUP_ACCESS" (str_of_int rule_id) None
                 (Some "deleted") (Some "Deleted via UI after expiration"))
           (fun _ => ret (0 <? row_count)) w1.
Proof.
  intros Hc row_count. unfold delete_access_rule, execute_update, bind at 1 2 3, read.
  rewrite Hc. unfold ret at 1. fold row_count.
  destruct (Z.eqb_spec row_count 0) as [E | E]; cbn [negb].
  - unfold bind, ret. rewrite E. reflexivity.
  - reflexivity.
Qed.

End DeleteFollowsRowcount.

Section DeleteRuns.

(** A call of [delete_access_rule] in the warehouse, by what the fault
    schedule holds for its two statements. The cursor reports -1 rows, so
    that the audit write is always attempted. *)
Lemma delete_outcomes (w : World) (rule_id : Z) :
  let result := fst (delete_access_rule rule_id w) in
  let w' := snd (delete_access_rule rule_id w) in
  let kept := filter (fun r => negb (deletable (today w) rule_id r)) (access_rows w) in
  today w' = today w /\ member_of w' = member_of w
  /\ match faults w with
     | Some e :: _ =>
         result = Raise e /\ access_rows w' = access_rows w
         /\ audit_rows w' = audit_rows w
     | None :: Some e :: _ =>
         result = Raise e /\ access_rows w' = kept /\ audit_rows w' = audit_rows w
     | _ =>
         result = Return false /\ access_rows w' = kept
         /\ audit_rows w' = (audit_rows w ++ [delete_entry w rule_id])%list
     end.
Proof.
  destruct w as [set usr tdy nw mem rows nid aud met com jou fts pg].
  unfold delete_access_rule, log_action, execute_update, bind, read, ret.
  cbn [cursor_execute get_settings get_current_user_email world_runtime].
  unfold run, delete_entry.
  cbn [is_select faults with_journal today access_rows audit_rows journal now
         user_email member_of].
  destruct fts as [|[e|] [|[e'|] fts]]; cbn; repeat split.
Qed.

Lemma kept_or_expired today_ rule_id rows r :
  In r rows ->
  In r (filter (fun r => negb (deletable today_ rule_id r)) rows)
  \/ (id r = rule_id /\ expired_by today_ r).
Proof.
  intros Hr. destruct (deletable today_ rule_id r) eqn:E.
  - right. now apply deletable_spec.
  - left. apply filter_In. split; [exact Hr | now rewrite E].
Qed.

Lemma kept_all today_ rule_id rows :
  (forall r, In r rows -> id r = rule_id -> ~ expired_by today_ r) ->
  filter (fun r => negb (deletable today_ rule_id r)) rows = rows.
Proof.
  intros Hpre. apply filter_negb_all, filter_nil_iff. intros r Hr.
  apply not_true_iff_false. rewrite deletable_spec. intros [Hid Hexp].
  exact (Hpre r Hr Hid Hexp).
Qed.

End DeleteRuns.

(** Claim C5 fails on the code. The guard of the DELETE statement holds:
    only rules of the id whose expiration date is set and not after the
    current date are removed, and when no rule of the id is expired no row
    is removed. But [delete_access_rule] decides from [cursor.rowcount],
    which the connector leaves at -1: the call never returns [True], also
    when it has removed the rule, and, the count being truthy, it writes
    the DELETE audit record on every call that the warehouse lets through,
    also when no row was removed. The last part gives the outcome for
    every schedule of warehouse faults: a fault of the DELETE leaves
    everything as it was; a fault of the audit write leaves the rows
    removed with no record; otherwise the call returns [False] and the
    record is written. *)
Theorem delete_access_rule_miscounts (w : World) (rule_id : Z) :
  let result := fst (delete_access_rule rule_id w) in
  let w' := snd (delete_access_rule rule_id w) in
  let kept := filter (fun r => negb (deletable (today w) rule_id r)) (access_rows w) in
  (forall r, In r (access_rows w) ->
     In r (access_rows w') \/ (id r = rule_id /\ expired_by (today w) r))
  /\ ((forall r, In r (access_rows w) -> id r = rule_id -> ~ expired_by (today w) r) ->
      access_rows w' = access_rows w)
  /\ result <> Return true
  /\ match faults w with
     | Some e :: _ =>
         result = Raise e /\ access_rows w' = access_rows w
         /\ audit_rows w' = audit_rows w
     | None :: Some e :: _ =>
         result = Raise e /\ access_rows w' = kept /\ audit_rows w' = audit_rows w
     | _ =>
         result = Return false /\ access_rows w' = kept
         /\ audit_rows w' = (audit_rows w ++ [delete_entry w rule_id])%list
     end.
Proof.
  intros result w' kept.
  destruct (delete_outcomes w rule_id) as (_ & _ & Hout).
  fold result w' kept in Hout.
  assert (Hrows : access_rows w' = access_rows w \/ access_rows w' = kept).
  { destruct (faults w) as [|[e|] [|[e'|] fts]]; tauto. }
  split; [|split; [|split]].
  - intros r Hr. destruct Hrows as [-> | ->]; [now left|].
    now apply kept_or_expired.
  - intros Hpre. destruct Hrows as [-> | ->]; [reflexivity|]. now apply kept_all.
  - destruct (faults w) as [|[e|] [|[e'|] fts]];
      destruct Hout as (-> & _); discriminate.
  - exact Hout.
Qed.

(** Claim C9. When the ids normalize to the empty list, [add_access_rule] and
    [update_access_rule] interpolate [NULL] for [customer_ids]: the statement
    submitted carries the text [NULL], and the inserted row, like every
    updated row, holds SQL NULL rather than an empty array. *)
Theorem empty_ids_stored_as_null (w : World) (rule_id : Z) (group : string)
    (ids : list Z) (access : string) (eff : Z) (exp : option Z) (nts : option string) :
  normalize_customer_ids ids = [] ->
  faults w = [] ->
  let w1 := snd (add_access_rule group ids access eff exp nts w) in
  let w2 := snd (update_access_rule rule_id group ids access eff exp nts w) in
  customer_ids_array (normalize_customer_ids ids) = "NULL"
  /\ (exists r, access_rows w1 = (access_rows w ++ [r])%list /\ customer_ids r = None)
  /\ (exists audit,
        journal w1
        = (journal w ++
             [ InsertAccessRule (access_table_name w) "NULL" group access eff exp nts
                 (user_email w); audit ])%list)
  /\ (forall r, In r (access_rows w2) -> id r = rule_id -> customer_ids r = None)
  /\ (exists audit,
        journal w2
        = (journal w ++
             [ UpdateAccessRule (access_table_name w) "NULL" rule_id group access eff
                 exp nts (user_email w); audit ])%list).
Proof.
  intros Hids Hf w1 w2. subst w1 w2.
  destruct w as [set usr tdy nw mem rows nid aud met com jou fts pg].
  cbn [faults] in Hf. subst fts.
  unfold add_access_rule, update_access_rule, log_action, execute_update, bind, read, ret,
    access_table_name.
  cbn [cursor_execute get_settings get_current_user_email world_runtime].
  rewrite Hids. unfold run. cbn.
  split; [reflexivity|]. split; [eexists; split; reflexivity|].
  split; [eexists; rewrite <- app_assoc; reflexivity|].
  split; [|eexists; rewrite <- app_assoc; reflexivity].
  intros r Hr Hid. apply in_map_iff in Hr as (r0 & <- & _).
  destruct (has_id rule_id r0) eqn:E; [reflexivity|].
  unfold has_id in E. apply Z.eqb_neq in E. contradiction.
Qed.

(** Claim C1 fails on the code. For an [EXCLUDE] rule whose [customer_ids] is
    NULL (what [add_access_rule] stores for an empty list) or the empty
    array, of a group the user belongs to and active at the current date, the
    row filter is true for every customer id, while the access summary of
    the same rule reads "Access EXCLUDED for all customers". *)
Theorem exclude_without_ids_grants_every_customer
    (w : World) (gca : AccessRule) (customer_id : Z) :
  In gca (access_rows w) ->
  access_type gca = "EXCLUDE" ->
  customer_ids gca = None \/ customer_ids gca = Some [] ->
  In (group_name gca) (member_of w) ->
  in_window (today w) gca ->
  customer_access_filter w customer_id = true
  /\ _build_access_summary gca = "Access EXCLUDED for all customers".
Proof.
  intros Hin Htype Hids Hmem [Heff Hexp]. split.
  - unfold customer_access_filter. apply existsb_exists. exists gca. split; [exact Hin|].
    unfold filter_condition.
    assert (Hm : existsb (String.eqb (group_name gca)) (member_of w) = true).
    { apply existsb_exists. exists (group_name gca). split; [exact Hmem|].
      apply String.eqb_refl. }
    rewrite Hm, Htype.
    destruct (effective_date gca) as [d|]; destruct (expiration_date gca) as [x|];
      cbn [is_null option_map];
      rewrite ?(proj2 (Z.leb_le _ _) Heff), ?(proj2 (Z.ltb_lt _ _) Hexp);
      destruct Hids as [-> | ->]; reflexivity.
  - unfold _build_access_summary. rewrite Htype.
    destruct Hids as [-> | ->]; reflexivity.
Qed.

(* ================================================================== *)
(** * The propagation planner *)
(* ================================================================== *)

Section PureLoops.

Lemma for_each_pure {A S} (xs : list A) (body : S -> A -> M World S)
    (g : S -> A -> S) (w : World) :
  (forall s a, In a xs -> body s a w = (Return (g s a), w)) ->
  forall s, for_each xs body s w = (Return (fold_left g xs s), w).
Proof.
  induction xs as [|x xs IH]; intros Hbody s; [reflexivity|].
  rewrite for_each_cons, Hbody by now left.
  cbn [fold_left]. apply IH. intros s' a Ha. apply Hbody. now right.
Qed.

Lemma for_each_map_pure {A B S} (f : B -> A) (bs : list B) (body : S -> A -> M World S)
    (g : S -> B -> S) (w : World) :
  (forall s b, In b bs -> body s (f b) w = (Return (g s b), w)) ->
  forall s, for_each (map f bs) body s w = (Return (fold_left g bs s), w).
Proof.
  induction bs as [|b bs IH]; intros Hbody s; [reflexivity|].
  cbn [map]. rewrite for_each_cons, Hbody by now left.
  cbn [fold_left]. apply IH. intros s' a Ha. apply Hbody. now right.
Qed.

Lemma fold_left_flat_map {A B S} (h : S -> B -> S) (f : A -> list B) xs : forall s,
  fold_left (fun s x => fold_left h (f x) s) xs s = fold_left h (flat_map f xs) s.
Proof.
  induction xs as [|x xs IH]; intros s; [reflexivity|].
  cbn [fold_left flat_map]. now rewrite fold_left_app, IH.
Qed.

Lemma fold_left_map {A B S} (h : S -> B -> S) (f : A -> B) xs : forall s,
  fold_left (fun s x => h s (f x)) xs s = fold_left h (map f xs) s.
Proof. induction xs as [|x xs IH]; intros s; [reflexivity | apply IH]. Qed.

End PureLoops.

Section Discovery.
Variable w : World.
Hypothesis no_fault : faults w = [].

Ltac answer := unfold execute_query, bind, ret; cbn [cursor_execute world_runtime];
               unfold run; cbn [is_select]; rewrite no_fault; reflexivity.

Lemma tagged_catalogs_answer tag tc :
  get_tagged_catalogs tag tc w
  = (Return (select_catalog_tags (meta w) tag (given tc)), w).
Proof. unfold get_tagged_catalogs. answer. Qed.

Lemma tagged_schemas_answer tag tc ts :
  get_tagged_schemas tag tc ts w
  = (Return (select_schema_tags (meta w) tag (given tc) (given ts)), w).
Proof. unfold get_tagged_schemas. answer. Qed.

Lemma tagged_tables_answer tag tc ts :
  get_tagged_tables tag tc ts w
  = (Return (select_table_tags (meta w) tag (given tc) (given ts)), w).
Proof. unfold get_tagged_tables. answer. Qed.

Lemma tables_in_catalog_answer cat :
  get_tables_in_catalog cat w = (Return (map table_row (in_catalog (meta w) cat)), w).
Proof. unfold get_tables_in_catalog. answer. Qed.

Lemma tables_in_schema_answer cat sch :
  get_tables_in_schema cat sch w
  = (Return (map table_row (in_schema (meta w) cat sch)), w).
Proof. unfold get_tables_in_schema. answer. Qed.

Lemma column_rows names : forall acc,
  for_each
    (filter (fun r => truthy (get r "column_name"))
       (map (fun name => [("column_name", VStr name)]) names))
    (fun names r => bind (getitem r "column_name")
                      (fun v => ret (names ++ [str_of_value v])%list))
    acc w
  = (Return (acc ++ filter (fun name => negb (is_empty name)) names)%list, w).
Proof.
  induction names as [|n names IH]; intros acc; cbn [map filter].
  - cbn [for_each]. unfold ret. now rewrite app_nil_r.
  - cbn [get String.eqb Ascii.eqb Bool.eqb truthy fst snd].
    change (("column_name" =? "column_name")%string) with true. cbn iota.
    destruct (negb (is_empty n)); [|apply IH].
    rewrite for_each_cons. unfold bind at 1, getitem at 1. cbn [find fst snd].
    change (("column_name" =? "column_name")%string) with true. cbn iota.
    unfold ret at 1. cbn [snd str_of_value]. rewrite IH. now rewrite <- app_assoc.
Qed.

Lemma table_columns_answer cat sch tab :
  get_table_columns cat sch tab w = (Return (column_names (meta w) cat sch tab), w).
Proof.
  unfold get_table_columns.
  erewrite bind_return; [| unfold execute_query, bind, ret;
                           cbn [cursor_execute world_runtime]; unfold run;
                           cbn [is_select]; rewrite no_fault; reflexivity].
  cbn [fetchall]. unfold select_columns. now rewrite column_rows.
Qed.

Lemma table_key_answer (t : TableRef) :
  table_key (table_row t) "table_catalog" "table_schema" "table_name" w
  = (Return (table_key_of t), w).
Proof. reflexivity. Qed.

Lemma cover_tables_answer (r : row) (ts : list TableRef) (d : table_dict) :
  cover_tables r (map table_row ts) d w
  = (Return (fold_left (fun d t => setdefault_update d (table_key_of t) (tag_categories r))
               ts d), w).
Proof.
  unfold cover_tables. apply for_each_map_pure. intros s t _.
  erewrite bind_return by apply table_key_answer. reflexivity.
Qed.

Lemma cover_entries (c : list string) ts d :
  fold_left (fun d t => setdefault_update d (table_key_of t) c) ts d
  = fold_left entry_fold (map (fun t => (t, c)) ts) d.
Proof. revert d. induction ts as [|t ts IH]; intros d; [reflexivity | apply IH]. Qed.

(** The three discovery loops build the dictionary of [discovered]. *)
Lemma discovery_answer tag tc ts :
  let m := meta w in
  exists d3,
    d3 = collect (discovered m tag tc ts) []
    /\ forall (k : table_dict -> M World (list PropagationAction)),
        bind (get_tagged_catalogs tag tc)
          (fun catalog_rows =>
             bind (for_each catalog_rows
                     (fun d r =>
                        bind (getitem r "catalog_name")
                          (fun vc =>
                             bind (get_tables_in_catalog (str_of_value vc))
                               (fun table_rows => cover_tables r table_rows d)))
                     [])
               (fun d1 =>
                  bind (get_tagged_schemas tag tc ts)
                    (fun schema_rows =>
                       bind (for_each schema_rows
                               (fun d r =>
                                  bind (getitem r "catalog_name")
                                    (fun vc =>
                                       bind (getitem r "schema_name")
                                         (fun vs =>
                                            bind (get_tables_in_schema (str_of_value vc)
                                                    (str_of_value vs))
                                              (fun table_rows =>
                                                 cover_tables r table_rows d))))
                               d1)
                         (fun d2 =>
                            bind (get_tagged_tables tag tc ts)
                              (fun tag_rows =>
                                 bind (for_each tag_rows
                                         (fun d r =>
                                            bind (table_key r "catalog_name"
                                                    "schema_name" "table_name")
                                              (fun key =>
                                                 ret (setdefault_update d key
                                                        (tag_categories r))))
                                         d2)
                                   k))))) w
        = k d3 w.
Proof.
  intros m. eexists. split; [reflexivity|]. intros k.
  erewrite bind_return by apply tagged_catalogs_answer.
  erewrite bind_return.
  2:{ unfold select_catalog_tags. apply for_each_map_pure. intros d b _.
      erewrite bind_return by reflexivity. cbn [snd str_of_value].
      erewrite bind_return by apply tables_in_catalog_answer.
      rewrite cover_tables_answer, cover_entries. reflexivity. }
  erewrite bind_return by apply tagged_schemas_answer.
  erewrite bind_return.
  2:{ unfold select_schema_tags. apply for_each_map_pure. intros d b _.
      erewrite bind_return by reflexivity. cbn [snd str_of_value].
      erewrite bind_return by reflexivity. cbn [snd str_of_value].
      erewrite bind_return by apply tables_in_schema_answer.
      rewrite cover_tables_answer, cover_entries. reflexivity. }
  erewrite bind_return by apply tagged_tables_answer.
  erewrite bind_return.
  2:{ unfold select_table_tags. apply for_each_map_pure. intros d b _.
      erewrite bind_return by reflexivity. unfold ret. reflexivity. }
  f_equal. unfold collect, discovered. fold m.
  rewrite !fold_left_app.
  rewrite <- !(fold_left_flat_map entry_fold).
  rewrite <- (fold_left_map entry_fold
                (fun b => (tagged_table b, cats (tt_tag_value b)))).
  reflexivity.
Qed.

End Discovery.

Section DictFacts.

Lemma in_list_iff x xs : in_list x xs = true <-> In x xs.
Proof.
  unfold in_list. rewrite existsb_exists. split.
  - intros (y & Hy & E). apply String.eqb_eq in E. now subst.
  - intros H. exists x. split; [exact H | apply String.eqb_refl].
Qed.

Lemma set_mem_iff x s : set_mem x s = true <-> In x s.
Proof. apply in_list_iff. Qed.

Lemma set_add_in x s c : In c (set_add x s) <-> In c s \/ c = x.
Proof.
  unfold set_add. destruct (existsb (String.eqb x) s) eqn:E.
  - split; [auto|]. intros [H | ->]; [exact H|]. now apply in_list_iff.
  - rewrite in_app_iff. simpl. intuition.
Qed.

Lemma set_update_in items : forall s c,
  In c (set_update s items) <-> In c s \/ In c items.
Proof.
  unfold set_update. induction items as [|x items IH]; intros s c; cbn [fold_left].
  - simpl. tauto.
  - rewrite IH, set_add_in. simpl. intuition.
Qed.

Lemma lookup_update d key items : forall k,
  lookup (setdefault_update d key items) k
  = if String.eqb key k
    then Some (set_update (match lookup d key with Some s => s | None => [] end) items)
    else lookup d k.
Proof.
  induction d as [|[k0 s0] d IH]; intros k; cbn [setdefault_update lookup].
  - reflexivity.
  - destruct (String.eqb_spec k0 key) as [->|Hne]; cbn [lookup].
    + destruct (String.eqb_spec key k); reflexivity.
    + rewrite IH. destruct (String.eqb_spec k0 k) as [->|Hne'].
      * destruct (String.eqb_spec key k); [congruence | reflexivity].
      * reflexivity.
Qed.

Lemma keys_update d key items :
  map fst (setdefault_update d key items)
  = if in_list key (map fst d) then map fst d else (map fst d ++ [key])%list.
Proof.
  induction d as [|[k0 s0] d IH]; cbn [setdefault_update map fst]; [reflexivity|].
  unfold in_list in *. cbn [existsb].
  destruct (String.eqb_spec k0 key) as [->|Hne].
  - now rewrite String.eqb_refl.
  - cbn [map fst]. rewrite IH.
    destruct (String.eqb_spec key k0); [congruence|]. cbn [orb].
    now destruct (existsb (String.eqb key) (map fst d)).
Qed.

Lemma keys_update_nodup d key items :
  NoDup (map fst d) -> NoDup (map fst (setdefault_update d key items)).
Proof.
  intros Hnd. rewrite keys_update. destruct (in_list key (map fst d)) eqn:E; [exact Hnd|].
  apply NoDup_app; [exact Hnd | repeat constructor; intros [] |].
  intros k Hk [<-|[]]. apply in_list_iff in Hk. congruence.
Qed.

Lemma lookup_in d : NoDup (map fst d) ->
  forall k s, In (k, s) d <-> lookup d k = Some s.
Proof.
  induction d as [|[k0 s0] d IH]; intros Hnd k s; cbn [lookup].
  - split; [intros [] | discriminate].
  - inversion Hnd as [|? ? Hnotin Hnd']; subst. cbn [In].
    destruct (String.eqb_spec k0 k) as [->|Hne].
    + split.
      * intros [[= ->] | Hin]; [reflexivity|].
        exfalso. apply Hnotin. apply in_map_iff. now exists (k, s).
      * intros [= ->]. now left.
    + rewrite <- (IH Hnd'). split; [intros [[= ? ?] | ?]; [congruence | assumption] | auto].
Qed.

Lemma collect_nodup es : forall d, NoDup (map fst d) -> NoDup (map fst (collect es d)).
Proof.
  unfold collect. induction es as [|e es IH]; intros d Hnd; cbn [fold_left]; [exact Hnd|].
  apply IH. now apply keys_update_nodup.
Qed.

Lemma update_has d key items k :
  has (setdefault_update d key items) k <-> has d k \/ key = k.
Proof.
  unfold has. rewrite lookup_update.
  destruct (String.eqb_spec key k) as [->|Hne].
  - split; [now right | discriminate].
  - tauto.
Qed.

Lemma update_mem d key items k c :
  mem (setdefault_update d key items) k c <-> mem d k c \/ (key = k /\ In c items).
Proof.
  unfold mem. rewrite lookup_update.
  destruct (String.eqb_spec key k) as [->|Hne].
  - split.
    + intros (s & [= <-] & Hc). apply set_update_in in Hc as [Hc | Hc]; [|now right].
      left. destruct (lookup d k) as [s0|]; [now exists s0 | destruct Hc].
    + intros [(s & Hs & Hc) | [_ Hc]]; eexists; (split; [reflexivity|]);
        apply set_update_in; [left; now rewrite Hs | now right].
  - split; [now left | intros [H | [? _]]; [exact H | contradiction]].
Qed.

Lemma collect_has es : forall d k,
  has (collect es d) k
  <-> has d k \/ exists t cs, In (t, cs) es /\ table_key_of t = k.
Proof.
  unfold collect. induction es as [|[t0 cs0] es IH]; intros d k; cbn [fold_left fst snd].
  - split; [now left | intros [H | (t & cs & [] & _)]; exact H].
  - rewrite IH, update_has. split.
    + intros [[H | H] | (t & cs & Hin & Hk)].
      * now left.
      * right. exists t0, cs0. split; [now left | exact H].
      * right. exists t, cs. split; [now right | exact Hk].
    + intros [H | (t & cs & [[= <- <-] | Hin] & Hk)].
      * left. now left.
      * left. now right.
      * right. now exists t, cs.
Qed.

(** The set under a key is the union of what every entry of that key brought. *)
Lemma collect_mem es : forall d k c,
  mem (collect es d) k c
  <-> mem d k c \/ exists t cs, In (t, cs) es /\ table_key_of t = k /\ In c cs.
Proof.
  unfold collect. induction es as [|[t0 cs0] es IH]; intros d k c; cbn [fold_left fst snd].
  - split; [now left | intros [H | (t & cs & [] & _)]; exact H].
  - rewrite IH, update_mem. split.
    + intros [[H | [Hk Hc]] | (t & cs & Hin & Hk & Hc)].
      * now left.
      * right. exists t0, cs0. repeat split; [now left | exact Hk | exact Hc].
      * right. exists t, cs. repeat split; [now right | exact Hk | exact Hc].
    + intros [H | (t & cs & [[= <- <-] | Hin] & Hk & Hc)].
      * left. now left.
      * left. now right.
      * right. now exists t, cs.
Qed.

End DictFacts.

Section NameFacts.

Lemma splitn_found sep s t n :
  contains sep s = false -> splitn sep (s ++ String sep t) (S n) = s :: splitn sep t n.
Proof.
  induction s as [|c s IH]; cbn [append contains splitn].
  - now rewrite Ascii.eqb_refl.
  - intros H. apply orb_false_iff in H as [H1 H2]. rewrite H1.
    cbn [append contains splitn] in IH. now rewrite (IH H2).
Qed.

Lemma splitn_key t :
  dot_free t ->
  splitn "." (table_key_of t) 2 = [table_catalog t; table_schema t; table_name t].
Proof.
  intros [Hc Hs]. unfold table_key_of.
  change (table_catalog t ++ "." ++ table_schema t ++ "." ++ table_name t)
    with (table_catalog t ++ String "." (table_schema t ++ String "." (table_name t))).
  rewrite splitn_found by exact Hc. rewrite splitn_found by exact Hs.
  now rewrite splitn_zero.
Qed.

Lemma key_injective t t' :
  dot_free t -> dot_free t' -> table_key_of t = table_key_of t' -> t = t'.
Proof.
  intros Ht Ht' E. pose proof (splitn_key t Ht) as H. rewrite E, splitn_key in H by exact Ht'.
  destruct t, t'. cbn in H. now injection H as -> -> ->.
Qed.

Lemma table_ref_eqb_eq a b : table_ref_eqb a b = true <-> a = b.
Proof.
  unfold table_ref_eqb. rewrite !andb_true_iff, !String.eqb_eq.
  destruct a, b; cbn. split; [intros [[-> ->] ->]; reflexivity | intros [= -> -> ->]; auto].
Qed.

Lemma listed_iff t l : existsb (table_ref_eqb t) l = true <-> In t l.
Proof.
  rewrite existsb_exists. split.
  - intros (x & Hx & E). apply table_ref_eqb_eq in E. now subst.
  - intros H. exists t. split; [exact H | now apply table_ref_eqb_eq].
Qed.

Lemma distinct_in t l : forall seen,
  In t (distinct seen l) <-> In t l /\ ~ In t seen.
Proof.
  induction l as [|x l IH]; intros seen; cbn [distinct].
  - simpl. tauto.
  - destruct (existsb (table_ref_eqb x) seen) eqn:E.
    + apply listed_iff in E. rewrite IH. simpl. split; [tauto|].
      intros [[<- | H] Hn]; [contradiction | tauto].
    + assert (Hx : ~ In x seen) by (rewrite <- listed_iff; congruence).
      cbn [In]. rewrite IH. cbn [In]. split.
      * intros [<- | [H Hn]]; [tauto|]. split; [now right | tauto].
      * intros [[<- | H] Hn]; [now left|].
        destruct (table_ref_eqb x t) eqn:Ext.
        -- apply table_ref_eqb_eq in Ext. now left.
        -- right. split; [exact H|]. intros [-> | Hs]; [|contradiction].
           rewrite (proj2 (table_ref_eqb_eq t t) eq_refl) in Ext. discriminate.
Qed.

Lemma insert_name_in x y l : In y (insert_name x l) <-> y = x \/ In y l.
Proof.
  induction l as [|z l IH]; cbn [insert_name].
  - simpl. intuition.
  - destruct (String.leb x z); cbn [In]; [intuition | rewrite IH; intuition].
Qed.

Lemma order_names_in y l : In y (order_names l) <-> In y l.
Proof.
  induction l as [|x l IH]; cbn [order_names]; [tauto|].
  rewrite insert_name_in, IH. simpl. intuition.
Qed.

Lemma map_filter_comm {A B} (f : A -> B) (p : B -> bool) l :
  map f (filter (fun x => p (f x)) l) = filter p (map f l).
Proof.
  induction l as [|x l IH]; [reflexivity|]. cbn [filter map].
  destruct (p (f x)); cbn [map]; now rewrite IH.
Qed.

(** Trimming before or after dropping the empty tokens gives one list. *)
Lemma cats_categories v : cats v = categories v.
Proof.
  unfold cats, categories, _split_rls_types.
  apply (map_filter_comm strip (fun c => negb (is_empty c))).
Qed.

Lemma columns_in m t column :
  in_list column (column_names m (table_catalog t) (table_schema t) (table_name t))
  = in_list column (table_columns m t).
Proof.
  apply eq_true_iff_eq. rewrite !in_list_iff.
  unfold column_names, table_columns. rewrite !filter_In, order_names_in.
  now destruct t.
Qed.

End NameFacts.

Section Coverage.
Variables (m : Metadata) (tag : string) (tc ts : option string).

Lemma in_catalog_iff t cat :
  In t (in_catalog m cat) <-> In t (tables m) /\ table_catalog t = cat.
Proof.
  unfold in_catalog. rewrite distinct_in, filter_In, String.eqb_eq. simpl. tauto.
Qed.

Lemma in_schema_iff t cat sch :
  In t (in_schema m cat sch)
  <-> In t (tables m) /\ table_catalog t = cat /\ table_schema t = sch.
Proof.
  unfold in_schema.
  rewrite distinct_in, filter_In, andb_true_iff, !String.eqb_eq. simpl. tauto.
Qed.

(** An entry is discovered exactly when a covering binding declares it. *)
Lemma discovered_covering t cs :
  In (t, cs) (discovered m tag tc ts)
  <-> exists v, In v (covering_values m tag tc ts t) /\ cs = cats v.
Proof.
  unfold discovered, covering_values, chosen_catalog_tags, chosen_schema_tags,
    chosen_table_tags.
  rewrite !in_app_iff, !in_flat_map. split.
  - intros [(b & Hb & Hin) | [(b & Hb & Hin) | Hin]].
    + apply in_map_iff in Hin as (t' & [= -> <-] & Ht).
      apply in_catalog_iff in Ht as [Ht Hc].
      apply filter_In in Hb as [Hb Hsel].
      exists (ct_tag_value b). split; [|reflexivity].
      rewrite !in_app_iff. left. apply in_map. apply filter_In. split; [exact Hb|].
      rewrite Hsel, Hc, String.eqb_refl, (proj2 (listed_iff _ _) Ht). reflexivity.
    + apply in_map_iff in Hin as (t' & [= -> <-] & Ht).
      apply in_schema_iff in Ht as (Ht & Hc & Hs).
      apply filter_In in Hb as [Hb Hsel].
      exists (st_tag_value b). split; [|reflexivity].
      rewrite !in_app_iff. right. left. apply in_map. apply filter_In.
      split; [exact Hb|].
      rewrite Hsel, Hc, Hs, !String.eqb_refl, (proj2 (listed_iff _ _) Ht). reflexivity.
    + apply in_map_iff in Hin as (b & [= <- <-] & Hb).
      apply filter_In in Hb as [Hb Hsel].
      exists (tt_tag_value b). split; [|reflexivity].
      rewrite !in_app_iff. right. right. apply in_map. apply filter_In.
      split; [exact Hb|].
      rewrite Hsel, (proj2 (table_ref_eqb_eq _ _) eq_refl). reflexivity.
  - intros (v & Hv & ->). rewrite !in_app_iff in Hv.
    destruct Hv as [Hv | [Hv | Hv]]; apply in_map_iff in Hv as (b & <- & Hb);
      apply filter_In in Hb as [Hb Hsel]; rewrite !andb_true_iff in Hsel.
    + destruct Hsel as [[[Htag Hsel] Hc] Ht].
      apply String.eqb_eq in Hc. apply listed_iff in Ht.
      left. exists b. split.
      * apply filter_In. split; [exact Hb | now rewrite Htag, Hsel].
      * apply in_map_iff. exists t. split; [reflexivity|]. now apply in_catalog_iff.
    + destruct Hsel as [[[[[Htag Hsel] Hsel'] Hc] Hs] Ht].
      apply String.eqb_eq in Hc, Hs. apply listed_iff in Ht.
      right. left. exists b. split.
      * apply filter_In. split; [exact Hb | now rewrite Htag, Hsel, Hsel'].
      * apply in_map_iff. exists t. split; [reflexivity|]. now apply in_schema_iff.
    + destruct Hsel as [[[Htag Hsel] Hsel'] Ht]. apply table_ref_eqb_eq in Ht. subst t.
      right. right. apply in_map_iff. exists b. split; [reflexivity|].
      apply filter_In. split; [exact Hb | now rewrite Htag, Hsel, Hsel'].
Qed.

Lemma covered_dot_free t v :
  well_named m -> In v (covering_values m tag tc ts t) -> dot_free t.
Proof.
  intros [Htab Htag] Hv. unfold covering_values in Hv. rewrite !in_app_iff in Hv.
  rewrite Forall_forall in Htab, Htag.
  destruct Hv as [Hv | [Hv | Hv]]; apply in_map_iff in Hv as (b & _ & Hb);
    apply filter_In in Hb as [Hb Hsel]; rewrite !andb_true_iff in Hsel.
  - apply Htab, listed_iff, (proj2 Hsel).
  - apply Htab, listed_iff, (proj2 Hsel).
  - destruct Hsel as [_ Ht]. apply table_ref_eqb_eq in Ht. subst t. now apply Htag.
Qed.

Lemma accumulated_iff t c :
  In c (accumulated m tag tc ts t)
  <-> exists cs, In (t, cs) (discovered m tag tc ts) /\ In c cs.
Proof.
  unfold accumulated. rewrite in_flat_map. split.
  - intros (v & Hv & Hc). exists (cats v). split.
    + apply discovered_covering. now exists v.
    + now rewrite cats_categories.
  - intros (cs & Hin & Hc). apply discovered_covering in Hin as (v & Hv & ->).
    exists v. split; [exact Hv | now rewrite <- cats_categories].
Qed.

End Coverage.

Section PlanLoop.
Variable w : World.
Hypothesis no_fault : faults w = [].
Variables (required column ctag cval : string).

Lemma for_each_append {A B} (xs : list A) (body : list B -> A -> M World (list B))
    (h : A -> list B) :
  (forall acc x, In x xs -> body acc x w = (Return (acc ++ h x)%list, w)) ->
  forall acc, for_each xs body acc w = (Return (acc ++ flat_map h xs)%list, w).
Proof.
  induction xs as [|x xs IH]; intros Hbody acc; cbn [for_each flat_map].
  - unfold ret. now rewrite app_nil_r.
  - unfold bind. rewrite Hbody by now left.
    rewrite IH by (intros; apply Hbody; now right). now rewrite app_assoc.
Qed.

Lemma planned_key t s :
  dot_free t ->
  planned (meta w) required column ctag cval (table_key_of t, s)
  = if set_mem required s && in_list column (table_columns (meta w) t)
    then [action_for column ctag cval t] else [].
Proof.
  intros Ht. unfold planned. cbn [fst snd]. rewrite (splitn_key t Ht), columns_in.
  now destruct t.
Qed.

Lemma plan_action_answer t s actions :
  dot_free t ->
  plan_action required column ctag cval actions (table_key_of t, s) w
  = (Return (actions ++ planned (meta w) required column ctag cval (table_key_of t, s))%list,
     w).
Proof.
  intros Ht. rewrite (planned_key t s Ht). unfold plan_action.
  destruct (set_mem required s); cbn [negb andb].
  - rewrite (splitn_key t Ht).
    erewrite bind_return by now apply table_columns_answer.
    rewrite columns_in.
    destruct (in_list column (table_columns (meta w) t)); cbn [negb].
    + reflexivity.
    + unfold ret. now rewrite app_nil_r.
  - unfold ret. now rewrite app_nil_r.
Qed.

End PlanLoop.

Section PlanFacts.
Variables (m : Metadata) (required column ctag cval : string).

Lemma planned_nodup (d : table_dict) :
  NoDup (map fst d) ->
  (forall k s, In (k, s) d -> exists t, dot_free t /\ table_key_of t = k) ->
  NoDup (map table_fqn (flat_map (planned m required column ctag cval) d)).
Proof.
  induction d as [|[k s] d IH]; intros Hnd Hkeys; cbn [flat_map map]; [constructor|].
  inversion Hnd as [|? ? Hnotin Hnd']; subst.
  assert (Hrest : NoDup (map table_fqn (flat_map (planned m required column ctag cval) d)))
    by (apply IH; [exact Hnd' | intros k' s' H; apply (Hkeys k' s'); now right]).
  destruct (Hkeys k s (or_introl eq_refl)) as (t & Ht & <-).
  unfold planned at 1. cbn [fst snd]. rewrite (splitn_key t Ht).
  destruct (_ && _); [|exact Hrest].
  cbn [app map]. constructor; [|exact Hrest].
  intros Hin. apply in_map_iff in Hin as (a & Ha & Hin).
  apply in_flat_map in Hin as ([k' s'] & Hitem & Hin).
  destruct (Hkeys k' s' (or_intror Hitem)) as (t' & Ht' & <-).
  unfold planned in Hin. cbn [fst snd] in Hin. rewrite (splitn_key t' Ht') in Hin.
  destruct (_ && _); [|destruct Hin]. destruct Hin as [<- | []].
  apply Hnotin. apply in_map_iff. exists (table_key_of t', s'). split; [|exact Hitem].
  cbn [fst]. destruct t, t'. exact Ha.
Qed.

End PlanFacts.

(** Claim C6. On a snapshot whose catalog and schema names hold no period,
    and without an upstream fault, [build_propagation_plan] returns a plan
    with at most one action per table, and an action is in the plan exactly
    when it is the action of a table whose accumulated categories, the union
    over every catalog, schema and table binding that covers it, contain the
    required category and whose column list contains the column. No other
    table yields an action, and the call does not raise. *)
Theorem build_propagation_plan_spec (w : World)
    (tag required column ctag cval : string) (tc ts : option string) :
  faults w = [] ->
  well_named (meta w) ->
  exists plan,
    build_propagation_plan tag required column ctag cval tc ts w = (Return plan, w)
    /\ NoDup (map table_fqn plan)
    /\ forall a,
         In a plan
         <-> exists t, dot_free t
                       /\ qualifies (meta w) tag required column tc ts t = true
                       /\ a = action_for column ctag cval t.
Proof.
  intros Hf Hwn.
  destruct (discovery_answer w Hf tag tc ts) as (d3 & Hd3 & Hrun).
  assert (Hnd : NoDup (map fst d3)) by (subst d3; apply collect_nodup; constructor).
  assert (Hkeys : forall k, has d3 k ->
            exists t cs, In (t, cs) (discovered (meta w) tag tc ts) /\ table_key_of t = k
                         /\ dot_free t).
  { intros k Hk. subst d3. apply collect_has in Hk as [Hk | (t & cs & Hin & Hkey)].
    - now elim Hk.
    - exists t, cs. split; [exact Hin|]. split; [exact Hkey|].
      apply discovered_covering in Hin as (v & Hv & _).
      eapply covered_dot_free; eassumption. }
  assert (Hitems : forall k s, In (k, s) d3 -> exists t, dot_free t /\ table_key_of t = k).
  { intros k s Hin. apply (lookup_in d3 Hnd) in Hin.
    destruct (Hkeys k) as (t & _ & _ & Hkey & Ht); [unfold has; congruence|]. now exists t. }
  exists (flat_map (planned (meta w) required column ctag cval) d3).
  split; [|split].
  - unfold build_propagation_plan. rewrite Hrun.
    apply (for_each_append w d3 _ (planned (meta w) required column ctag cval)).
    intros acc [k s] Hin. destruct (Hitems k s Hin) as (t & Ht & <-).
    now apply plan_action_answer.
  - now apply planned_nodup.
  - intros a. rewrite in_flat_map. split.
    + intros ([k s] & Hin & Ha). destruct (Hitems k s Hin) as (t & Ht & <-).
      rewrite (planned_key w required column ctag cval t s Ht) in Ha.
      destruct (set_mem required s) eqn:Ereq; [|destruct Ha].
      destruct (in_list column (table_columns (meta w) t)) eqn:Ecol; [|destruct Ha].
      destruct Ha as [<- | []]. exists t. split; [exact Ht|]. split; [|reflexivity].
      unfold qualifies. rewrite Ecol, andb_true_r. apply in_list_iff, accumulated_iff.
      assert (Hmem : mem d3 (table_key_of t) required).
      { exists s. split; [now apply (lookup_in d3 Hnd) | now apply set_mem_iff]. }
      subst d3. apply collect_mem in Hmem as [(s0 & Hs0 & _) | (t' & cs & Hin' & Hkey & Hc)];
        [discriminate|].
      assert (t' = t) as ->.
      { apply key_injective; [| exact Ht | exact Hkey].
        pose proof Hin' as Hcov. apply discovered_covering in Hcov as (v & Hv & _).
        eapply covered_dot_free; eassumption. }
      now exists cs.
    + intros (t & Ht & Hq & ->). unfold qualifies in Hq.
      apply andb_true_iff in Hq as [Hreq Hcol].
      apply in_list_iff, accumulated_iff in Hreq as (cs & Hin & Hc).
      assert (Hmem : mem d3 (table_key_of t) required).
      { subst d3. apply collect_mem. right. now exists t, cs. }
      destruct Hmem as (s & Hs & Hreq).
      exists (table_key_of t, s). split; [now apply (lookup_in d3 Hnd)|].
      rewrite (planned_key w required column ctag cval t s Ht).
      rewrite (proj2 (set_mem_iff _ _) Hreq), Hcol. now left.
Qed.

(* ================================================================== *)
(** * Worked examples *)
(* ================================================================== *)

Section Witnesses.
Import Sample.



(** Re-parsing what "1, 2,5-8 ,2" parsed to. *)
Lemma normalize_idempotent_parse_roundtrip_witness :
  parse_customer_ids (render_ids [1; 2; 5; 6; 7; 8]) = (true, inl [1; 2; 5; 6; 7; 8]).
Proof.
  apply (proj2 normalize_idempotent_parse_roundtrip "1, 2,5-8 ,2"). reflexivity.
Defined.

(** The admin check with the warehouse down, and with a connector that
    returns no rows. *)
Lemma check_admin_access_fails_closed_witness :
  fst (check_admin_access world_down) = Return false
  /\ fst (@check_admin_access unit silent tt) = Return false.
Proof.
  split.
  - apply (proj1 (check_admin_access_fails_closed world_down) outage
             (snd (execute_query (admin_query world_down) world_down))).
    reflexivity.
  - apply (proj1 (proj2 (@check_admin_access_fails_closed unit silent tt)) tt).
    reflexivity.
Defined.

(** Adding a rule goes through in [world] and raises in [world_down]. *)
Lemma add_access_rule_outcomes_witness :
  (exists w1, add_access_rule "analysts" [1; 2] "INCLUDE" 738000 None None world_down
              = (Raise outage, w1))
  /\ (exists w2, add_access_rule "analysts" [1; 2] "INCLUDE" 738000 None None world
                 = (Return true, w2)).
Proof.
  split; eexists.
  - apply (proj1 (add_access_rule_outcomes "analysts" [1; 2] "INCLUDE" 738000 None None
                    world_down)).
    reflexivity.
  - eapply (proj1 (proj2 (proj2 (add_access_rule_outcomes "analysts" [1; 2] "INCLUDE"
                                   738000 None None world)))); reflexivity.
Defined.

(** Counterexample to C4 as stated: with the warehouse down the call ends
    in the exception of the connector, not in a result. *)
Lemma add_access_rule_lets_fault_through :
  fst (add_access_rule "analysts" [1; 2] "INCLUDE" 738000 None None world_down)
  = Raise outage
  /\ forall b,
       fst (add_access_rule "analysts" [1; 2] "INCLUDE" 738000 None None world_down)
       <> Return b.
Proof. split; [reflexivity | intros b; discriminate]. Qed.

(** Three actions of which the second fails. *)
Lemma apply_propagation_stops_at_first_failure_witness :
  exists w2, apply_propagation three_actions second_fails = (Raise outage, w2).
Proof.
  eexists.
  eapply (proj1 (apply_propagation_stops_at_first_failure three_actions second_fails)
            [tag_column "main.sales.orders"] (tag_column "main.sales.invoices")
            [tag_column "main.sales.payments"]);
    reflexivity.
Defined.

(** Counterexample to C2 as stated: after the second statement fails the
    third is never submitted, and the call raises instead of returning the
    first and the third. *)
Lemma apply_propagation_abandons_later_actions :
  fst (apply_propagation three_actions second_fails) = Raise outage
  /\ journal (snd (apply_propagation three_actions second_fails))
     = [ Sql (sql (tag_column "main.sales.orders"));
         Sql (sql (tag_column "main.sales.invoices")) ]
  /\ committed (snd (apply_propagation three_actions second_fails))
     = [ sql (tag_column "main.sales.orders") ]
  /\ fst (apply_propagation three_actions second_fails)
     <> Return [ sql (tag_column "main.sales.orders");
                 sql (tag_column "main.sales.payments") ].
Proof. repeat split; try reflexivity. discriminate. Qed.

(** Rule 1 expires tomorrow: the call removes nothing and reports no
    success, and yet leaves a DELETE record. Rule 2 expired today: the
    call removes it and reports no success either. *)
Lemma delete_access_rule_miscounts_witness :
  (fst (delete_access_rule 1 world_with_two_rules) = Return false
   /\ access_rows (snd (delete_access_rule 1 world_with_two_rules))
      = access_rows world_with_two_rules
   /\ audit_rows (snd (delete_access_rule 1 world_with_two_rules))
      = (audit_rows world_with_two_rules ++ [delete_entry world_with_two_rules 1])%list)
  /\ (fst (delete_access_rule 2 world_with_two_rules) = Return false
      /\ map id (access_rows (snd (delete_access_rule 2 world_with_two_rules))) = [1]).
Proof.
  split.
  - pose proof (delete_access_rule_miscounts world_with_two_rules 1) as H.
    cbv zeta in H. destruct H as (_ & Hsame & _ & Hresult & _ & Haudit).
    split; [exact Hresult|]. split; [|exact Haudit].
    apply Hsame. intros r Hin Hid (x & Hx & Hle).
    destruct Hin as [<- | [<- | []]]; vm_compute in Hid, Hx.
    + injection Hx as <-. vm_compute in Hle. apply Hle. reflexivity.
    + discriminate Hid.
  - pose proof (delete_access_rule_miscounts world_with_two_rules 2) as H.
    cbv zeta in H. destruct H as (_ & _ & _ & Hresult & Hrows & _).
    split; [exact Hresult|]. rewrite Hrows. reflexivity.
Defined.

(** Adding and updating with no ids at all. *)
Lemma empty_ids_stored_as_null_witness :
  customer_ids_array (normalize_customer_ids []) = "NULL"
  /\ exists r,
       access_rows (snd (add_access_rule "analysts" [] "EXCLUDE" 738000 None None world))
       = (access_rows world ++ [r])%list
       /\ customer_ids r = None.
Proof.
  pose proof (empty_ids_stored_as_null world 1 "analysts" [] "EXCLUDE" 738000 None None
                eq_refl eq_refl) as H.
  split; [exact (proj1 H) | exact (proj1 (proj2 H))].
Defined.

(** The blanket [EXCLUDE] rule lets customer 42 through. *)
Lemma exclude_without_ids_grants_every_customer_witness :
  customer_access_filter world_with_blanket_exclude 42 = true
  /\ _build_access_summary blanket_exclude = "Access EXCLUDED for all customers".
Proof.
  apply (exclude_without_ids_grants_every_customer world_with_blanket_exclude
           blanket_exclude 42).
  - left. reflexivity.
  - reflexivity.
  - left. reflexivity.
  - right. left. reflexivity.
  - split; cbn; lia.
Defined.

(** The plan for category B on the sample snapshot. *)
Lemma build_propagation_plan_spec_witness :
  exists plan,
    build_propagation_plan "category" "B" "customer_id" "secure" "true" None None world
    = (Return plan, world)
    /\ NoDup (map table_fqn plan)
    /\ forall a,
         In a plan
         <-> exists t, dot_free t
                       /\ qualifies (meta world) "category" "B" "customer_id" None None t
                          = true
                       /\ a = action_for "customer_id" "secure" "true" t.
Proof.
  apply build_propagation_plan_spec; [reflexivity|].
  split; repeat constructor.
Defined.

(** The schema tag [A, B] and the table tag [C] add up on [orders], which
    has the column; [refunds] lacks the column and yields nothing. *)
Example plan_for_sample :
  fst (build_propagation_plan "category" "B" "customer_id" "secure" "true" None None world)
  = Return [ action_for "customer_id" "secure" "true" orders ]
  /\ accumulated snapshot "category" None None orders = ["A"; "B"; "C"]
  /\ fst (build_propagation_plan "category" "C" "amount" "secure" "true" None None world)
     = Return [ action_for "amount" "secure" "true" orders ]
  /\ fst (build_propagation_plan "category" "D" "amount" "secure" "true" None None world)
     = Return [].
Proof. repeat split. Qed.

End Witnesses.

(* ================================================================== *)
(** * Further properties of the sources *)
(* ================================================================== *)

Import Identifier TagManager AccessQueries AuditQueries GroupAccessPage.
Import AccessMatrix Readers StoreSpec IdentifierSpec TagSpec.

(* ================================================================== *)
(** * Identifiers *)
(* ================================================================== *)

Section IdentifierFacts.

Lemma ident_rest_shape s :
  ident_rest s = true ->
  all_chars is_ident_char s = true
  \/ exists name, s = name ++ nl /\ all_chars is_ident_char name = true.
Proof.
  induction s as [|c s IH]; cbn [ident_rest all_chars]; [now left|].
  destruct (is_ident_char c) eqn:E.
  - intros Hs. destruct (IH Hs) as [Hall | (name & -> & Hname)].
    + left. exact Hall.
    + right. exists (String c name). split; [reflexivity|]. cbn [all_chars].
      now rewrite E.
  - intros Hs. apply andb_true_iff in Hs as [Hc Hr].
    apply Z.eqb_eq in Hc. apply is_empty_true in Hr. subst s.
    right. exists EmptyString. split; [|reflexivity].
    unfold nl. cbn [append]. f_equal.
    destruct c as [[] [] [] [] [] [] [] []]; vm_compute in Hc; try discriminate.
    reflexivity.
Qed.

Lemma ident_rest_all s : all_chars is_ident_char s = true -> ident_rest s = true.
Proof.
  induction s as [|c s IH]; cbn [ident_rest all_chars]; [reflexivity|].
  intros Hs. apply andb_true_iff in Hs as [-> Hs]. now apply IH.
Qed.

Lemma ident_rest_newline s :
  all_chars is_ident_char s = true -> ident_rest (s ++ nl) = true.
Proof.
  induction s as [|c s IH]; cbn [ident_rest all_chars append].
  - reflexivity.
  - intros Hs. apply andb_true_iff in Hs as [-> Hs]. now apply IH.
Qed.

Lemma ident_char_plain c :
  is_ident_char c = true ->
  Ascii.eqb c "'" = false /\ Ascii.eqb c "`" = false /\ Ascii.eqb c " " = false
  /\ Ascii.eqb c backslash = false /\ Ascii.eqb c "." = false
  /\ Ascii.eqb c dquote = false /\ Ascii.eqb c ";" = false.
Proof.
  destruct c as [[] [] [] [] [] [] [] []]; vm_compute; intros; repeat split; congruence.
Qed.

Lemma ident_start_char c : is_ident_start c = true -> is_ident_char c = true.
Proof. unfold is_ident_char. now intros ->. Qed.

End IdentifierFacts.

(** Property X1. [validate_identifier] accepts exactly the names of letters,
    digits and underscores that do not begin with a digit, and the same
    names followed by one final newline; it rejects [None] and the empty
    string. Whatever it accepts holds no quote, back quote, double quote,
    backslash, space, period or semicolon. *)
Theorem validate_identifier_accepts (value : option string) :
  (validate_identifier value = true
   <-> exists name, identifier name = true
                    /\ (value = Some name \/ value = Some (name ++ nl)))
  /\ (forall s, value = Some s -> validate_identifier value = true ->
        contains "'" s = false /\ contains "`" s = false /\ contains " " s = false
        /\ contains backslash s = false /\ contains "." s = false
        /\ contains dquote s = false /\ contains ";" s = false).
Proof.
  assert (Hshape : validate_identifier value = true
            <-> exists name, identifier name = true
                             /\ (value = Some name \/ value = Some (name ++ nl))).
  { split.
    - destruct value as [[|c r]|]; cbn [validate_identifier]; try discriminate.
      intros Hv. apply andb_true_iff in Hv as [Hc Hr].
      destruct (ident_rest_shape r Hr) as [Hall | (name & -> & Hname)].
      + exists (String c r). split; [cbn; now rewrite Hc, Hall | now left].
      + exists (String c name). split; [cbn; now rewrite Hc, Hname | now right].
    - intros (name & Hname & [-> | ->]); destruct name as [|c r]; try discriminate;
        cbn in Hname; apply andb_true_iff in Hname as [Hc Hr];
        cbn [validate_identifier append]; rewrite Hc; cbn [andb].
      + now apply ident_rest_all.
      + now apply ident_rest_newline. }
  split; [exact Hshape|].
  intros s -> Hv. apply Hshape in Hv as (name & Hname & Hs).
  assert (Hchars : all_chars is_ident_char name = true).
  { destruct name as [|c r]; [discriminate|]. cbn in Hname.
    apply andb_true_iff in Hname as [Hc Hr]. cbn [all_chars].
    now rewrite (ident_start_char c Hc), Hr. }
  assert (Hno : forall ch, is_ident_char ch = false -> Ascii.eqb (ascii_of_N 10) ch = false ->
                           contains ch s = false).
  { intros ch Hch Hnl.
    assert (Hn : contains ch name = false) by (apply (contains_none ch is_ident_char); auto).
    destruct Hs as [[= ->] | [= ->]]; [exact Hn|].
    rewrite contains_app, Hn. unfold nl. cbn [contains orb]. now rewrite Hnl. }
  repeat split; apply Hno; reflexivity.
Qed.

(* ================================================================== *)
(** * More on the identifier parser *)
(* ================================================================== *)

(** Property X2. [normalize_customer_ids] returns the input ids in strictly
    ascending order: the same members, each once. *)
Theorem normalize_customer_ids_sorted_distinct (values : list Z) :
  StronglySorted Z.lt (normalize_customer_ids values)
  /\ NoDup (normalize_customer_ids values)
  /\ forall x, In x (normalize_customer_ids values) <-> In x values.
Proof.
  unfold normalize_customer_ids. split; [apply sorted_set_ascending|].
  split; [apply ascending_nodup, sorted_set_ascending | apply sorted_set_in].
Qed.

Section NegativeFacts.

Lemma parse_negative_literal n :
  0 < n -> fst (parse_customer_ids (str_of_int (- n))) = false.
Proof.
  intros Hn. unfold str_of_int. rewrite (proj2 (Z.ltb_lt (- n) 0)) by lia.
  rewrite Z.opp_involutive.
  set (token := String "-" (digits n)).
  assert (Hchars : all_chars (fun c => is_digit c || Ascii.eqb c "-") token = true).
  { unfold token. cbn [all_chars]. cbn [is_digit orb andb].
    apply (all_chars_impl is_digit); [intros c ->; reflexivity | apply digits_all; lia]. }
  assert (Hstrip : strip token = token)
    by exact (strip_unchanged _ _ digit_or_minus_not_space Hchars).
  assert (Hcomma : contains "," token = false)
    by exact (contains_none "," (fun c => is_digit c || Ascii.eqb c "-") token
                eq_refl Hchars).
  unfold parse_customer_ids. rewrite Hstrip. cbn [is_empty orb token].
  fold token. rewrite (split_no_sep _ _ Hcomma). cbn [parse_parts].
  rewrite Hstrip. unfold token at 1 2. cbn [is_empty contains Ascii.eqb Bool.eqb orb].
  change token with (EmptyString ++ String "-" (digits n)).
  rewrite splitn_one_found by reflexivity. reflexivity.
Qed.

End NegativeFacts.

(** Property X3. [parse_customer_ids] never returns a negative id, and the
    rendering of a negative integer is always rejected. *)
Theorem parse_customer_ids_never_negative :
  (forall s ids, parse_customer_ids s = (true, inl ids) -> Forall (fun i => 0 <= i) ids)
  /\ (forall n, 0 < n -> fst (parse_customer_ids (str_of_int (- n))) = false).
Proof. split; [exact parse_success_nonneg | exact parse_negative_literal]. Qed.

Section EditFormFacts.

Lemma join_padded u ts :
  String " " (join ", " (u :: ts)) = join "," (map (String " ") (u :: ts)).
Proof.
  revert u. induction ts as [|v ts IH]; intros u; [reflexivity|].
  cbn [map]. rewrite (join_cons ", " u), (join_cons "," (String " " u)).
  cbn [append]. f_equal. f_equal. f_equal. exact (IH v).
Qed.

Lemma join_comma_space ts t :
  join ", " (t :: ts) = join "," (t :: map (String " ") ts).
Proof.
  destruct ts as [|u ts]; [reflexivity|].
  rewrite (join_cons ", " t), (join_cons "," t). cbn [map].
  f_equal. cbn [append]. f_equal. apply join_padded.
Qed.

Lemma strip_padded n : 0 <= n -> strip (String " " (digits n)) = digits n.
Proof. intros Hn. unfold strip. cbn [lstrip_by is_space]. now apply strip_digits. Qed.

(** Tokens that strip to the rendering of non-negative ids within the
    limit parse to them. *)
Lemma parse_parts_padded tokens : forall l acc,
  Forall2 (fun t n => strip t = digits n /\ 0 <= n < int_limit) tokens l ->
  parse_parts tokens acc = (true, inl (sorted (set_of (acc ++ l)))).
Proof.
  induction tokens as [|t tokens IH]; intros l acc H; inversion H as [|? n ? l' [Ht Hn] Hrest];
    subst; cbn [parse_parts].
  - now rewrite app_nil_r.
  - rewrite Ht, digits_nonempty.
    rewrite (digits_no_char "-" n eq_refl (proj1 Hn)), int_of_str_digits by exact Hn.
    rewrite (IH l' _ Hrest). now rewrite <- app_assoc.
Qed.

Lemma parse_edit_text ids :
  Forall (fun i => 0 <= i < int_limit) ids -> StronglySorted Z.lt ids ->
  parse_customer_ids (join ", " (map str_of_int ids)) = (true, inl ids).
Proof.
  intros Hin Hasc. destruct ids as [|n l]; [reflexivity|].
  cbn [map]. rewrite join_comma_space.
  inversion Hin as [|? ? Hn' Hl']; subst.
  assert (Hn : 0 <= n) by lia.
  assert (Hl : Forall (fun i => 0 <= i) l)
    by (eapply Forall_impl; [|exact Hl']; cbn beta; intros i Hi; lia).
  set (tokens := str_of_int n :: map (String " ") (map str_of_int l)).
  assert (Htok : Forall2 (fun t i => strip t = digits i /\ 0 <= i < int_limit)
                   tokens (n :: l)).
  { unfold tokens. constructor.
    - split; [|exact Hn']. rewrite str_of_int_nonneg by exact Hn. now apply strip_digits.
    - clear -Hl'. induction l as [|m l IH]; cbn [map]; [constructor|].
      inversion Hl' as [|? ? Hm Hl'']; subst. constructor; [|now apply IH].
      split; [|exact Hm]. rewrite str_of_int_nonneg by lia. apply strip_padded. lia. }
  assert (Hcomma : Forall (fun t => contains "," t = false) tokens).
  { unfold tokens. constructor.
    - rewrite str_of_int_nonneg by exact Hn. now apply digits_no_char.
    - clear -Hl. induction l as [|m l IH]; cbn [map]; [constructor|].
      inversion Hl as [|? ? Hm Hl']; subst. constructor; [|now apply IH].
      cbn [contains]. rewrite str_of_int_nonneg by exact Hm.
      now rewrite (digits_no_char "," m eq_refl Hm). }
  assert (Hblank : is_empty (strip (join "," tokens)) = false).
  { apply not_true_iff_false. rewrite blank_iff. unfold tokens.
    rewrite join_cons, all_chars_app, str_of_int_nonneg by exact Hn.
    assert (Hd : all_chars is_space (digits n) = false).
    { pose proof (digits_all n Hn) as Hall. pose proof (digits_nonempty n) as Hne.
      destruct (digits n) as [|c r]; [discriminate|]. cbn [all_chars] in *.
      apply andb_true_iff in Hall as [Hc _]. now rewrite (digit_not_space c Hc). }
    now rewrite Hd. }
  unfold parse_customer_ids. rewrite Hblank, (not_blank_not_empty _ Hblank). cbn [orb].
  rewrite split_join; [|discriminate | exact Hcomma].
  rewrite (parse_parts_padded tokens (n :: l) [] Htok). cbn [app].
  now rewrite sorted_set_fixed.
Qed.

End EditFormFacts.

(** Property X4. The edit form round trip: for a stored rule whose ids came
    from [parse_customer_ids], or whose [customer_ids] is NULL, parsing the
    text that the edit form shows gives the stored ids back (the empty list
    for NULL). *)
Theorem edit_form_round_trip (rule : AccessRule) :
  (forall s ids,
      parse_customer_ids s = (true, inl ids) ->
      customer_ids rule = Some ids ->
      parse_customer_ids (customer_ids_str rule) = (true, inl ids))
  /\ (customer_ids rule = None ->
      parse_customer_ids (customer_ids_str rule) = (true, inl [])).
Proof.
  unfold customer_ids_str, _normalize_ids. split.
  - intros s ids Hparse ->. apply parse_edit_text.
    + now apply parse_success_within in Hparse.
    + now apply parse_success_ascending in Hparse.
  - intros ->. reflexivity.
Qed.

(* ================================================================== *)
(** * Qualified names, quoting and tag values *)
(* ================================================================== *)

(** Property X5. [qualify_table] always returns a name that holds a period,
    leaves such a name as it is, prefixes any other name with the catalog
    and the schema of the settings, and is idempotent. *)
Theorem qualify_table_qualified (table_name : string) (settings : AppSettings) :
  contains "." (qualify_table table_name settings) = true
  /\ qualify_table (qualify_table table_name settings) settings
     = qualify_table table_name settings
  /\ (contains "." table_name = true -> qualify_table table_name settings = table_name)
  /\ (contains "." table_name = false ->
      qualify_table table_name settings
      = catalog settings ++ "." ++ schema settings ++ "." ++ table_name).
Proof.
  assert (Hdot : contains "." (qualify_table table_name settings) = true).
  { unfold qualify_table. destruct (contains "." table_name) eqn:E; [exact E|].
    rewrite contains_app. cbn [append contains]. rewrite Ascii.eqb_refl.
    cbn [orb]. apply orb_true_r. }
  split; [exact Hdot|]. split.
  - unfold qualify_table at 1. now rewrite Hdot.
  - unfold qualify_table. split; intros ->; reflexivity.
Qed.

Section QuotingFacts.

Lemma append_assoc (a b c : string) : (a ++ b) ++ c = a ++ b ++ c.
Proof. induction a as [|x a IH]; cbn [append]; [reflexivity | now rewrite IH]. Qed.

Lemma read_quoted_replace q v : forall rest,
  not_at q rest = true ->
  read_quoted q (replace q (String q (String q EmptyString)) v ++ String q rest)
  = Some (v, rest).
Proof.
  induction v as [|c v IH]; intros rest Hrest.
  - cbn [replace append read_quoted]. rewrite Ascii.eqb_refl.
    destruct rest as [|c2 r2]; [reflexivity|].
    cbn [not_at] in Hrest. apply negb_true_iff in Hrest. now rewrite Hrest.
  - cbn [replace]. destruct (Ascii.eqb c q) eqn:E.
    + apply Ascii.eqb_eq in E. subst c. cbn [append read_quoted].
      rewrite Ascii.eqb_refl. now rewrite (IH rest Hrest).
    + cbn [append read_quoted]. rewrite E. now rewrite (IH rest Hrest).
Qed.

Lemma quote_identifier_read v rest :
  not_at "`" rest = true ->
  exists body, _quote_identifier v ++ rest = String "`" body
               /\ read_quoted "`" body = Some (v, rest).
Proof.
  intros Hrest. exists (replace "`" "``" v ++ String "`" rest). split.
  - unfold _quote_identifier. cbn [append]. f_equal.
    now rewrite append_assoc.
  - now apply read_quoted_replace.
Qed.

Lemma quote_fqn_cons p ps :
  _quote_fqn (p :: ps)
  = _quote_identifier p
    ++ match ps with [] => EmptyString | _ => String "." (_quote_fqn ps) end.
Proof.
  unfold _quote_fqn. cbn [map]. rewrite join_cons. destruct ps; reflexivity.
Qed.

Lemma quote_fqn_tail_not_quote ps :
  not_at "`" (match ps with [] => EmptyString | _ => String "." (_quote_fqn ps) end) = true.
Proof. destruct ps; reflexivity. Qed.

Lemma quote_fqn_injective ps : forall qs, _quote_fqn ps = _quote_fqn qs -> ps = qs.
Proof.
  induction ps as [|p ps IH]; intros [|q qs] Heq.
  - reflexivity.
  - rewrite quote_fqn_cons in Heq. discriminate.
  - rewrite quote_fqn_cons in Heq. discriminate.
  - rewrite !quote_fqn_cons in Heq.
    destruct (quote_identifier_read p _ (quote_fqn_tail_not_quote ps)) as (b1 & E1 & R1).
    destruct (quote_identifier_read q _ (quote_fqn_tail_not_quote qs)) as (b2 & E2 & R2).
    rewrite E1, E2 in Heq. injection Heq as Hb. subst b2. rewrite R1 in R2.
    injection R2 as Hp Ht. subst q. f_equal.
    destruct ps as [|p' ps], qs as [|q' qs]; try discriminate; [reflexivity|].
    injection Ht as Ht. now apply IH.
Qed.

End QuotingFacts.

(** Property X6. A name quoted by [_quote_identifier] reads back from behind
    its opening back quote, whatever it holds and whatever follows that is
    not a back quote; hence [_quote_fqn] never gives one text for two
    different lists of parts. *)
Theorem quote_fqn_reads_back :
  (forall value rest,
      not_at "`" rest = true ->
      exists body, _quote_identifier value ++ rest = String "`" body
                   /\ read_quoted "`" body = Some (value, rest))
  /\ (forall parts parts', _quote_fqn parts = _quote_fqn parts' -> parts = parts').
Proof. split; [exact quote_identifier_read | exact quote_fqn_injective]. Qed.

(** Property X7. A value escaped by [_escape_sql_string] and closed by a quote
    reads back as the value under the doubled-quote convention, whatever
    it holds: the reader stops at the closing quote and nowhere before.
    Only quote doubling is meant; a dialect in which the backslash escapes
    as well is outside the statement. *)
Theorem escape_sql_string_reads_back (value rest : string) :
  not_at "'" rest = true ->
  read_quoted "'" (_escape_sql_string value ++ String "'" rest) = Some (value, rest).
Proof. intros Hrest. unfold _escape_sql_string. now apply read_quoted_replace. Qed.

Section StripFacts.

Lemma rstrip_keeps_head sp c r :
  sp c = false -> rstrip_by sp (String c r) = String c (rstrip_by sp r).
Proof. intros Hc. cbn [rstrip_by]. rewrite Hc. now destruct (rstrip_by sp r). Qed.

Lemma rstrip_idempotent sp s : rstrip_by sp (rstrip_by sp s) = rstrip_by sp s.
Proof.
  induction s as [|c r IH]; [reflexivity|]. cbn [rstrip_by].
  destruct (rstrip_by sp r) as [|d r'] eqn:E.
  - destruct (sp c) eqn:Ec; [reflexivity|]. cbn [rstrip_by]. now rewrite Ec.
  - change (rstrip_by sp (String c (String d r'))) with
      (match rstrip_by sp (String d r') with
       | EmptyString => if sp c then EmptyString else String c EmptyString
       | r'' => String c r''
       end).
    now rewrite IH.
Qed.

Lemma lstrip_head sp s :
  lstrip_by sp s = EmptyString
  \/ exists c r, lstrip_by sp s = String c r /\ sp c = false.
Proof.
  induction s as [|c r IH]; [now left|]. cbn [lstrip_by].
  destruct (sp c) eqn:E; [exact IH|]. right. now exists c, r.
Qed.

Lemma strip_idempotent s : strip (strip s) = strip s.
Proof.
  unfold strip. destruct (lstrip_head is_space s) as [-> | (c & r & -> & Hc)].
  - reflexivity.
  - rewrite (rstrip_keeps_head _ _ _ Hc). cbn [lstrip_by]. rewrite Hc.
    rewrite (rstrip_keeps_head _ _ _ Hc). now rewrite rstrip_idempotent.
Qed.

End StripFacts.

Section TagValueFacts.

Lemma split_rls_types_tokens tag_value t :
  In t (_split_rls_types tag_value) ->
  is_empty t = false /\ strip t = t /\ contains "," t = false.
Proof.
  unfold _split_rls_types. intros Ht. apply in_map_iff in Ht as (item & <- & Hitem).
  apply filter_In in Hitem as [Hin Hne]. apply negb_true_iff in Hne.
  split; [exact Hne|]. split; [apply strip_idempotent|].
  apply contains_strip.
  pose proof (split_parts_no_sep "," tag_value) as Hall.
  rewrite Forall_forall in Hall. now apply Hall.
Qed.

Lemma split_rls_types_join ts :
  Forall (fun t => is_empty t = false /\ strip t = t /\ contains "," t = false) ts ->
  _split_rls_types (join "," ts) = ts.
Proof.
  intros Hts. destruct ts as [|t ts]; [reflexivity|].
  unfold _split_rls_types. rewrite split_join.
  - induction Hts as [|u us (Hne & Hs & _) _ IH]; [reflexivity|].
    cbn [filter map]. rewrite Hs, Hne. cbn [negb map]. rewrite Hs. now f_equal.
  - discriminate.
  - eapply Forall_impl; [|exact Hts]. now intros u (_ & _ & Hu).
Qed.

End TagValueFacts.

(** Property X8. The categories that [_split_rls_types] reads off a tag value
    are non-empty, trimmed and comma-free, and joining them with commas
    gives a tag value that reads back as the same categories. *)
Theorem split_rls_types_normal_form (tag_value : string) :
  Forall (fun t => is_empty t = false /\ strip t = t /\ contains "," t = false)
    (_split_rls_types tag_value)
  /\ _split_rls_types (join "," (_split_rls_types tag_value))
     = _split_rls_types tag_value.
Proof.
  assert (Hts : Forall (fun t => is_empty t = false /\ strip t = t /\ contains "," t = false)
                  (_split_rls_types tag_value)).
  { apply Forall_forall. intros t. apply split_rls_types_tokens. }
  split; [exact Hts | now apply split_rls_types_join].
Qed.

(* ================================================================== *)
(** * The session user *)
(* ================================================================== *)

(** Property X9. [get_current_user_email] never returns the empty string; a
    non-empty forwarded header wins over the user record; without any
    email the answer is "unknown", also when reading the headers or the
    user record raises. *)
Theorem get_current_user_email_total headers experimental_user :
  is_empty (Session.get_current_user_email headers experimental_user) = false
  /\ (forall h s, headers = Return (Some h) -> h "X-Forwarded-Email" = Some s ->
        is_empty s = false ->
        Session.get_current_user_email headers experimental_user = s)
  /\ (forall e e', headers = Raise e -> experimental_user = Raise e' ->
        Session.get_current_user_email headers experimental_user = "unknown").
Proof.
  unfold Session.get_current_user_email. split; [|split].
  - destruct headers as [[h|]|e]; cbn [Session.no_email].
    + destruct (h "X-Forwarded-Email") as [[|c r]|]; cbn [Session.no_email is_empty];
        try reflexivity;
        destruct experimental_user as [[f|]|e]; try reflexivity;
        destruct (f "email") as [[|c r]|]; reflexivity.
    + destruct experimental_user as [[f|]|e]; try reflexivity;
        destruct (f "email") as [[|c r]|]; reflexivity.
    + destruct experimental_user as [[f|]|e']; try reflexivity;
        destruct (f "email") as [[|c r]|]; reflexivity.
  - intros h s -> Hs Hne. cbv zeta. rewrite Hs. cbn [Session.no_email].
    rewrite !Hne. reflexivity.
  - intros e e' -> ->. reflexivity.
Qed.

(* ================================================================== *)
(** * The array literal of the customer ids *)
(* ================================================================== *)

Section ArrayLiteral.

Lemma all_digits_int_digits s : forall acc b,
  all_chars is_digit s = true -> is_empty s = false \/ b = true ->
  all_digits s acc = int_digits s acc b.
Proof.
  induction s as [|c r IH]; intros acc b Hall Hne.
  - destruct Hne as [Hne | ->]; [discriminate | reflexivity].
  - cbn [all_chars] in Hall. apply andb_true_iff in Hall as [Hc Hr].
    cbn [all_digits int_digits]. unfold is_digit in Hc.
    destruct (digit_val c) as [d|]; [|discriminate].
    apply IH; [exact Hr | now right].
Qed.

Lemma all_digits_digits n : 0 <= n -> all_digits (digits n) 0 = Some n.
Proof.
  intros Hn. rewrite (all_digits_int_digits _ 0 false).
  - now apply int_digits_digits.
  - now apply digits_all.
  - left. apply digits_nonempty.
Qed.

Lemma int_literal_no_minus c r :
  Ascii.eqb c "-" = false -> int_literal (String c r) = all_digits (String c r) 0.
Proof.
  destruct c as [[] [] [] [] [] [] [] []]; intros Hc; try reflexivity.
  discriminate.
Qed.

Lemma int_literal_str_of_int n : int_literal (str_of_int n) = Some n.
Proof.
  unfold str_of_int. destruct (n <? 0) eqn:E.
  - apply Z.ltb_lt in E.
    pose proof (all_digits_digits (- n) ltac:(lia)) as Hd.
    pose proof (digits_nonempty (- n)) as Hne.
    destruct (digits (- n)) as [|c r]; [discriminate|].
    cbn [int_literal]. rewrite Hd. cbn [option_map]. f_equal. lia.
  - apply Z.ltb_ge in E.
    pose proof (all_digits_digits n E) as Hd.
    pose proof (digits_nonempty n) as Hne.
    pose proof (digits_all n E) as Hall.
    destruct (digits n) as [|c r]; [discriminate|].
    cbn [all_chars] in Hall. apply andb_true_iff in Hall as [Hc _].
    rewrite int_literal_no_minus; [exact Hd|].
    apply not_true_iff_false. intros Heq. apply Ascii.eqb_eq in Heq. now subst c.
Qed.

Lemma int_literals_rendered l : int_literals (map str_of_int l) = Some l.
Proof.
  induction l as [|n l IH]; [reflexivity|]. cbn [map int_literals].
  now rewrite int_literal_str_of_int, IH.
Qed.

Lemma str_of_int_no_comma n : contains "," (str_of_int n) = false.
Proof.
  unfold str_of_int. destruct (n <? 0) eqn:E.
  - apply Z.ltb_lt in E. cbn [contains]. rewrite digits_no_char by (reflexivity || lia).
    reflexivity.
  - apply Z.ltb_ge in E. now apply digits_no_char.
Qed.

Lemma str_of_int_nonempty n : is_empty (str_of_int n) = false.
Proof.
  unfold str_of_int. destruct (n <? 0); [reflexivity | apply digits_nonempty].
Qed.

Lemma ends_with_last ch s : ends_with ch (s ++ String ch EmptyString) = true.
Proof.
  induction s as [|c r IH]; [apply Ascii.eqb_refl|].
  cbn [append ends_with]. rewrite IH. now destruct (r ++ String ch EmptyString).
Qed.

Lemma substring_front s t : String.substring 0 (String.length s) (s ++ t) = s.
Proof. induction s as [|c r IH]; cbn; [now destruct t | now rewrite IH]. Qed.

Lemma length_append s t : String.length (s ++ t) = (String.length s + String.length t)%nat.
Proof. induction s as [|c r IH]; cbn; [reflexivity | now rewrite IH]. Qed.

Lemma prefix_append p s : String.prefix p (p ++ s) = true.
Proof.
  induction p as [|c p IH]; cbn [append String.prefix]; [now destruct s|].
  destruct (ascii_dec c c); [exact IH | congruence].
Qed.

Lemma eval_array body :
  is_empty body = false ->
  eval_customer_ids ("array(" ++ body ++ ")")
  = option_map Some (int_literals (split "," body)).
Proof.
  intros Hne. unfold eval_customer_ids.
  rewrite prefix_append.
  replace (ends_with ")" ("array(" ++ body ++ ")")) with true.
  2:{ symmetry. rewrite <- append_assoc. apply ends_with_last. }
  replace (String.substring 6 (String.length ("array(" ++ body ++ ")") - 7)
             ("array(" ++ body ++ ")")) with body.
  2:{ rewrite !length_append. cbn [String.length].
      replace (6 + (String.length body + 1) - 7)%nat with (String.length body) by lia.
      cbn [append String.substring]. symmetry. apply substring_front. }
  rewrite Hne. reflexivity.
Qed.

Lemma join_nonempty sep t ts : is_empty t = false -> is_empty (join sep (t :: ts)) = false.
Proof. intros Ht. rewrite join_cons, is_empty_app, Ht. reflexivity. Qed.

(** The literal that [customer_ids_array] writes evaluates to the ids it
    was written from; the empty list gives NULL. *)
Lemma eval_customer_ids_array l :
  eval_customer_ids (customer_ids_array l)
  = Some (match l with [] => None | _ => Some l end).
Proof.
  destruct l as [|n l]; [reflexivity|]. unfold customer_ids_array.
  rewrite eval_array.
  - change (String "," EmptyString) with ","%string.
    rewrite split_join.
    + now rewrite int_literals_rendered.
    + discriminate.
    + apply Forall_forall. intros t Ht. apply in_map_iff in Ht as (m & <- & _).
      apply str_of_int_no_comma.
  - apply join_nonempty, str_of_int_nonempty.
Qed.

End ArrayLiteral.

(* ================================================================== *)
(** * The access table under the access manager *)
(* ================================================================== *)

Section RowFilterFacts.

Lemma member_iff w g : existsb (String.eqb g) (member_of w) = true <-> In g (member_of w).
Proof.
  rewrite existsb_exists. split.
  - intros (x & Hx & Heq). apply String.eqb_eq in Heq. now subst.
  - intros Hin. exists g. split; [exact Hin | apply String.eqb_refl].
Qed.

Lemma contains_iff l x : existsb (Z.eqb x) l = true <-> In x l.
Proof.
  rewrite existsb_exists. split.
  - intros (y & Hy & Heq). apply Z.eqb_eq in Heq. now subst.
  - intros Hin. exists x. split; [exact Hin | apply Z.eqb_refl].
Qed.

Lemma sql_and_true a b : sql_and a b = Some true <-> a = Some true /\ b = Some true.
Proof. destruct a as [[]|], b as [[]|]; cbn; intuition congruence. Qed.

Lemma sql_or_true a b : sql_or a b = Some true <-> a = Some true \/ b = Some true.
Proof. destruct a as [[]|], b as [[]|]; cbn; intuition congruence. Qed.

Lemma window_from_true (d : option Z) (p : Z -> bool) :
  sql_or (is_null d) (option_map p d) = Some true
  <-> match d with Some x => p x = true | None => True end.
Proof. destruct d as [x|]; cbn; [destruct (p x)|]; intuition congruence. Qed.

Lemma filter_condition_grants w gca c :
  filter_condition w gca c = Some true <-> grants w gca c.
Proof.
  unfold filter_condition, grants, in_window.
  rewrite !sql_and_true, !window_from_true, !sql_or_true, !sql_and_true.
  rewrite <- member_iff.
  assert (Heff : match effective_date gca with
                 | Some x => (x <=? today w) = true | None => True end
                 <-> match effective_date gca with
                     | Some d => d <= today w | None => True end).
  { destruct (effective_date gca); [apply Z.leb_le | tauto]. }
  assert (Hexp : match expiration_date gca with
                 | Some x => (today w <? x) = true | None => True end
                 <-> match expiration_date gca with
                     | Some d => today w < d | None => True end).
  { destruct (expiration_date gca); [apply Z.ltb_lt | tauto]. }
  rewrite Heff, Hexp.
  assert (Hids :
    (is_null (customer_ids gca) = Some true
     \/ Some (String.eqb (access_type gca) "INCLUDE") = Some true
        /\ array_contains (customer_ids gca) c = Some true)
    \/ Some (String.eqb (access_type gca) "EXCLUDE") = Some true
       /\ sql_not (array_contains (customer_ids gca) c) = Some true
    <-> match customer_ids gca with
        | None => True
        | Some ids =>
            (access_type gca = "INCLUDE" /\ In c ids)
            \/ (access_type gca = "EXCLUDE" /\ ~ In c ids)
        end).
  { destruct (customer_ids gca) as [ids|];
      cbn [is_null array_contains option_map sql_not]; [|tauto].
    rewrite <- (contains_iff ids c), <- !String.eqb_eq.
    destruct (String.eqb (access_type gca) "INCLUDE"),
             (String.eqb (access_type gca) "EXCLUDE"),
             (existsb (Z.eqb c) ids); unfold is_null; cbn; intuition congruence. }
  rewrite Hids.
  intuition congruence.
Qed.

Lemma filter_iff_grants w c :
  customer_access_filter w c = true
  <-> exists gca, In gca (access_rows w) /\ grants w gca c.
Proof.
  unfold customer_access_filter. rewrite existsb_exists.
  split; intros (gca & Hin & Hg); exists gca; (split; [exact Hin|]).
  - apply filter_condition_grants.
    destruct (filter_condition w gca c) as [[]|]; congruence.
  - apply filter_condition_grants in Hg. now rewrite Hg.
Qed.

End RowFilterFacts.

(** Property X10. The row filter is true for a customer exactly when some rule
    of the access table grants them: the rule names a group of the user,
    is inside its date window, and its ids are NULL, or list the customer
    for INCLUDE, or do not list them for EXCLUDE. Hence no rule takes
    access away: with more rules in the table, every customer that passed
    still passes. *)
Theorem customer_access_filter_grants (w : World) (customer_id : Z) :
  (customer_access_filter w customer_id = true
   <-> exists gca, In gca (access_rows w) /\ grants w gca customer_id)
  /\ (forall more next,
        customer_access_filter w customer_id = true ->
        customer_access_filter (with_access w (access_rows w ++ more) next) customer_id
        = true).
Proof.
  split; [apply filter_iff_grants|].
  intros more next Hw. apply filter_iff_grants in Hw as (gca & Hin & Hg).
  apply filter_iff_grants.
  exists gca. split; [cbn [access_rows with_access]; apply in_or_app; now left|].
  exact Hg.
Qed.

Section StoreFacts.


End StoreFacts.

Section AddFacts.

Lemma add_run (w : World) (group : string) (ids : list Z)
    (access : string) (eff : Z) (exp : option Z) (nts : option string) :
  faults w = [] ->
  fst (add_access_rule group ids access eff exp nts w) = Return true
  /\ access_rows (snd (add_access_rule group ids access eff exp nts w))
     = (access_rows w ++ [added_rule w group ids access eff exp nts])%list
  /\ next_id (snd (add_access_rule group ids access eff exp nts w)) = next_id w + 1
  /\ audit_rows (snd (add_access_rule group ids access eff exp nts w))
     = (audit_rows w
          ++ [logged w "INSERT" "GROUP_ACCESS" group
                (Some ("customer_ids=" ++ str_of_list (normalize_customer_ids ids)
                         ++ ", access_type=" ++ access)%string)
                nts])%list
  /\ page (snd (add_access_rule group ids access eff exp nts w)) = page w.
Proof.
  intros Hf.
  destruct w as [set usr tdy nw mem rows nid aud met com jou fts pg].
  cbn [faults] in Hf. subst fts.
  unfold add_access_rule, log_action, execute_update, bind, read, ret.
  cbn [cursor_execute get_settings get_current_user_email world_runtime].
  unfold run.
  cbn [is_select faults with_journal settings user_email today now member_of
         access_rows next_id audit_rows meta committed journal page].
  cbn [effect]. rewrite eval_customer_ids_array.
  unfold added_rule.
  destruct (normalize_customer_ids ids) as [|n l]; cbn; repeat split.
Qed.

End AddFacts.


Section ExpireFacts.

Lemma expire_run (w : World) (rule_id : Z) :
  faults w = [] ->
  fst (expire_access_rule rule_id w) = Return true
  /\ access_rows (snd (expire_access_rule rule_id w))
     = map (fun r => if has_id rule_id r then expired_row w r else r) (access_rows w)
  /\ audit_rows (snd (expire_access_rule rule_id w))
     = (audit_rows w
          ++ [logged w "EXPIRE" "GROUP_ACCESS" (str_of_int rule_id) (Some "expired")
                (Some "Manually expired via UI")])%list
  /\ today (snd (expire_access_rule rule_id w)) = today w
  /\ member_of (snd (expire_access_rule rule_id w)) = member_of w
  /\ faults (snd (expire_access_rule rule_id w)) = []
  /\ next_id (snd (expire_access_rule rule_id w)) = next_id w.
Proof.
  intros Hf. destruct w as [set usr tdy nw mem rows nid aud met com jou fts pg].
  cbn [faults] in Hf. subst fts.
  unfold expire_access_rule, log_action, execute_update, bind, read, ret.
  cbn [cursor_execute get_settings get_current_user_email world_runtime].
  unfold run. cbn. repeat split.
Qed.

Lemma expired_row_grants_nothing w w' r c :
  today w' = today w -> ~ grants w' (expired_row w r) c.
Proof.
  intros Ht (_ & [_ Hexp] & _). cbn [expired_row expiration_date] in Hexp. lia.
Qed.

End ExpireFacts.

(** Property X12. Without a fault of the warehouse, [expire_access_rule]
    returns [True] and writes its EXPIRE audit record whether or not a rule
    has the id. Every rule of the id gets the current date as expiration
    date, also one that had expired earlier, and from then on grants no
    customer; the other rules stay as they are; the table keeps its
    length; and the row filter passes no customer that it did not pass
    before. *)
Theorem expire_access_rule_effect (w : World) (rule_id : Z) :
  faults w = [] ->
  let w' := snd (expire_access_rule rule_id w) in
  fst (expire_access_rule rule_id w) = Return true
  /\ audit_rows w'
     = (audit_rows w
          ++ [logged w "EXPIRE" "GROUP_ACCESS" (str_of_int rule_id) (Some "expired")
                (Some "Manually expired via UI")])%list
  /\ List.length (access_rows w') = List.length (access_rows w)
  /\ (forall r, In r (access_rows w') -> id r = rule_id ->
        expiration_date r = Some (today w) /\ forall c, ~ grants w' r c)
  /\ (forall r, id r <> rule_id -> (In r (access_rows w') <-> In r (access_rows w)))
  /\ (forall c, customer_access_filter w' c = true -> customer_access_filter w c = true).
Proof.
  intros Hf w'. destruct (expire_run w rule_id Hf) as (Hres & Hrows & Haud & Ht & Hm & _).
  fold w' in Hrows, Haud, Ht, Hm.
  assert (Hold : forall r, In r (access_rows w') ->
            (id r = rule_id /\ exists r0, In r0 (access_rows w) /\ r = expired_row w r0)
            \/ (id r <> rule_id /\ In r (access_rows w))).
  { intros r Hr. rewrite Hrows in Hr. apply in_map_iff in Hr as (r0 & Heq & Hr0).
    unfold has_id in Heq. destruct (Z.eqb_spec (id r0) rule_id) as [Hid|Hid]; subst r.
    - left. split; [exact Hid | now exists r0].
    - right. now split. }
  split; [exact Hres|]. split; [exact Haud|].
  split; [rewrite Hrows; apply length_map|].
  split; [|split].
  - intros r Hr Hid. destruct (Hold r Hr) as [(_ & r0 & _ & ->) | [Hne _]]; [|contradiction].
    split; [reflexivity|]. intros c. now apply expired_row_grants_nothing.
  - intros r Hne. split.
    + intros Hr. destruct (Hold r Hr) as [[Hid _] | [_ Hin]]; [contradiction | exact Hin].
    + intros Hr. rewrite Hrows. apply in_map_iff. exists r. split; [|exact Hr].
      unfold has_id. destruct (Z.eqb_spec (id r) rule_id); [contradiction | reflexivity].
  - intros c Hc. apply filter_iff_grants in Hc as (gca & Hin & Hg).
    apply filter_iff_grants.
    destruct (Hold gca Hin) as [(_ & r0 & _ & ->) | [_ Hin0]].
    + exfalso. exact (expired_row_grants_nothing w w' r0 c Ht Hg).
    + exists gca. split; [exact Hin0|].
      destruct Hg as (Hg1 & Hg2 & Hg3). unfold grants. rewrite <- Hm, <- Ht.
      exact (conj Hg1 (conj Hg2 Hg3)).
Qed.

Section ExpiredRows.

Lemma deletable_grants_nothing w today_ rule_id r c :
  today_ = today w -> deletable today_ rule_id r = true -> ~ grants w r c.
Proof.
  intros -> Hd (_ & [_ Hexp] & _). apply deletable_spec in Hd as (_ & x & Hx & Hle).
  rewrite Hx in Hexp. lia.
Qed.

Lemma expired_rows_deletable w rule_id rows :
  filter (fun r => negb (deletable (today w) rule_id r))
    (map (fun r => if has_id rule_id r then expired_row w r else r) rows)
  = filter (fun r => negb (has_id rule_id r)) rows.
Proof.
  induction rows as [|r rows IH]; [reflexivity|]. cbn [map filter].
  destruct (has_id rule_id r) eqn:E.
  - unfold deletable. cbn [expired_row expiration_date].
    replace (has_id rule_id (expired_row w r)) with true by (symmetry; exact E).
    rewrite Z.leb_refl. cbn [andb negb]. exact IH.
  - unfold deletable at 1. rewrite E. cbn [andb negb]. now rewrite IH.
Qed.

End ExpiredRows.

(** Property X13. [delete_access_rule] never changes what the row filter
    passes: whatever the fault schedule, every customer passes the filter
    after the call exactly when they passed before, because a rule that
    may be deleted grants nothing any more. *)
Theorem delete_access_rule_keeps_filter (w : World) (rule_id customer_id : Z) :
  customer_access_filter (snd (delete_access_rule rule_id w)) customer_id
  = customer_access_filter w customer_id.
Proof.
  destruct (delete_outcomes w rule_id) as (Ht & Hm & Hout).
  assert (Hrows :
    access_rows (snd (delete_access_rule rule_id w)) = access_rows w
    \/ access_rows (snd (delete_access_rule rule_id w))
       = filter (fun r => negb (deletable (today w) rule_id r)) (access_rows w)).
  { destruct (faults w) as [|[e|] [|[e'|] fts]]; tauto. }
  clear Hout. set (w' := snd (delete_access_rule rule_id w)) in *.
  assert (Hg : forall r, grants w' r customer_id <-> grants w r customer_id).
  { intros r. unfold grants. now rewrite Hm, Ht. }
  apply eq_true_iff_eq. rewrite !filter_iff_grants.
  split; intros (gca & Hin & Hgr).
  - exists gca. split; [|now apply Hg].
    destruct Hrows as [Hsame | Hcut]; [now rewrite <- Hsame|].
    rewrite Hcut in Hin. now apply filter_In in Hin.
  - exists gca. split; [|now apply Hg].
    destruct Hrows as [Hsame | Hcut]; [now rewrite Hsame|].
    rewrite Hcut. apply filter_In. split; [exact Hin|].
    apply negb_true_iff, not_true_iff_false. intros Hd.
    exact (deletable_grants_nothing w (today w) rule_id gca customer_id eq_refl Hd Hgr).
Qed.

(** Property X14. Expiring a rule and then deleting it, without a fault of the
    warehouse, removes exactly the rules of that id and nothing else, and
    the audit table gains the EXPIRE record and the DELETE record after
    it. The delete returns [False] all the same, because the cursor
    reports no row count, and it writes its DELETE record also when no
    rule had the id. *)
Theorem expire_then_delete_removes_rule (w : World) (rule_id : Z) :
  faults w = [] ->
  let w1 := snd (expire_access_rule rule_id w) in
  let w2 := snd (delete_access_rule rule_id w1) in
  fst (delete_access_rule rule_id w1) = Return false
  /\ access_rows w2 = filter (fun r => negb (has_id rule_id r)) (access_rows w)
  /\ audit_rows w2
     = (audit_rows w
          ++ [ logged w "EXPIRE" "GROUP_ACCESS" (str_of_int rule_id) (Some "expired")
                 (Some "Manually expired via UI");
               logged w "DELETE" "GROUP_ACCESS" (str_of_int rule_id) (Some "deleted")
                 (Some "Deleted via UI after expiration") ])%list.
Proof.
  intros Hf w1 w2.
  destruct (expire_run w rule_id Hf) as (_ & Hrows & Haud & Ht & _ & Hf1 & _).
  fold w1 in Hrows, Haud, Ht, Hf1.
  destruct (delete_outcomes w1 rule_id) as (_ & _ & Hout).
  rewrite Hf1 in Hout. fold w2 in Hout. destruct Hout as (Hres & Hrows2 & Haud2).
  assert (Hlog : delete_entry w1 rule_id
                 = logged w "DELETE" "GROUP_ACCESS" (str_of_int rule_id) (Some "deleted")
                     (Some "Deleted via UI after expiration")).
  { unfold delete_entry, logged, w1.
    destruct w as [set usr tdy nw mem rows nid aud met com jou fts pg].
    cbn [faults] in Hf. subst fts. reflexivity. }
  rewrite Ht, Hrows, expired_rows_deletable in Hrows2.
  split; [exact Hres|]. split; [exact Hrows2|].
  rewrite Haud2, Haud, Hlog, <- app_assoc. reflexivity.
Qed.

Section UpdateFacts.


End UpdateFacts.


(* ================================================================== *)
(** * What the planner and the propagation leave behind *)
(* ================================================================== *)

Section ReadOnly.

Lemma same_store_refl w : same_store w w.
Proof. unfold same_store. repeat split. Qed.

Lemma same_store_trans w1 w2 w3 : same_store w1 w2 -> same_store w2 w3 -> same_store w1 w3.
Proof.
  unfold same_store. intros H1 H2.
  repeat match goal with H : _ /\ _ |- _ => destruct H end.
  repeat split; congruence.
Qed.

Lemma read_only_ret {A} (a : A) : read_only (ret a).
Proof. intros w. apply same_store_refl. Qed.

Lemma read_only_raise {A} (e : exn) : read_only (fun w : World => (@Raise A e, w)).
Proof. intros w. apply same_store_refl. Qed.

Lemma read_only_bind {A B} (m : M World A) (k : A -> M World B) :
  read_only m -> (forall a, read_only (k a)) -> read_only (bind m k).
Proof.
  intros Hm Hk w. unfold bind. specialize (Hm w).
  destruct (m w) as [[a|e] w1]; cbn [snd] in *; [|exact Hm].
  eapply same_store_trans; [exact Hm | apply Hk].
Qed.

Lemma read_only_for_each {A S} (xs : list A) (body : S -> A -> M World S) :
  (forall s x, read_only (body s x)) -> forall s, read_only (for_each xs body s).
Proof.
  intros Hbody. induction xs as [|x xs IH]; intros s; cbn [for_each].
  - apply read_only_ret.
  - apply read_only_bind; [apply Hbody | exact IH].
Qed.

Lemma read_only_getitem (r : row) key : read_only (getitem r key).
Proof.
  intros w. unfold getitem. destruct (find _ r); apply same_store_refl.
Qed.

Lemma read_only_query (q : statement) :
  is_select q = true -> read_only (execute_query q).
Proof.
  intros Hq w. unfold execute_query, bind, ret.
  cbn [cursor_execute world_runtime]. unfold run. rewrite Hq.
  destruct w as [set usr tdy nw mem rows nid aud met com jou fts pg].
  cbn [faults].
  destruct q; try discriminate; destruct fts as [|[e|] fts]; cbn;
    unfold same_store; cbn; repeat split.
Qed.

Lemma read_only_columns c s t : read_only (get_table_columns c s t).
Proof.
  unfold get_table_columns. apply read_only_bind; [now apply read_only_query|].
  intros rows. apply read_only_for_each. intros names r.
  apply read_only_bind; [apply read_only_getitem | intros v; apply read_only_ret].
Qed.

Lemma read_only_table_key r c s t : read_only (table_key r c s t).
Proof.
  unfold table_key.
  repeat (apply read_only_bind; [apply read_only_getitem | intros ?]).
  apply read_only_ret.
Qed.

Lemma read_only_cover r table_rows d : read_only (cover_tables r table_rows d).
Proof.
  unfold cover_tables. apply read_only_for_each. intros d' table_row.
  apply read_only_bind; [apply read_only_table_key | intros key; apply read_only_ret].
Qed.

Lemma read_only_plan_action required column_name tag_name tag_value actions item :
  read_only (plan_action required column_name tag_name tag_value actions item).
Proof.
  unfold plan_action. destruct item as [table_fqn rls_types].
  destruct (negb (set_mem required rls_types)); [apply read_only_ret|].
  destruct (splitn "." table_fqn 2) as [|a [|b [|c [|d l]]]]; try apply read_only_raise.
  apply read_only_bind; [apply read_only_columns|]. intros columns.
  destruct (negb (in_list column_name columns)); apply read_only_ret.
Qed.

Lemma read_only_plan parent required column_name tag_name tag_value tc ts :
  read_only (build_propagation_plan parent required column_name tag_name tag_value tc ts).
Proof.
  unfold build_propagation_plan, get_tagged_catalogs, get_tagged_schemas,
    get_tagged_tables, get_tables_in_catalog, get_tables_in_schema.
  apply read_only_bind; [now apply read_only_query | intros catalog_rows].
  apply read_only_bind.
  { apply read_only_for_each. intros d r.
    apply read_only_bind; [apply read_only_getitem | intros vc].
    apply read_only_bind; [now apply read_only_query | intros table_rows].
    apply read_only_cover. }
  intros d1. apply read_only_bind; [now apply read_only_query | intros schema_rows].
  apply read_only_bind.
  { apply read_only_for_each. intros d r.
    apply read_only_bind; [apply read_only_getitem | intros vc].
    apply read_only_bind; [apply read_only_getitem | intros vs].
    apply read_only_bind; [now apply read_only_query | intros table_rows].
    apply read_only_cover. }
  intros d2. apply read_only_bind; [now apply read_only_query | intros tag_rows].
  apply read_only_bind.
  { apply read_only_for_each. intros d r.
    apply read_only_bind; [apply read_only_table_key | intros key; apply read_only_ret]. }
  intros tables_to_process. apply read_only_for_each. intros actions item.
  apply read_only_plan_action.
Qed.

End ReadOnly.

(** Property X16. [build_propagation_plan] only reads: whatever the snapshot,
    the arguments and the fault schedule, and whether it returns a plan or
    raises, the access table, the audit table, the journal of submitted
    mutations, the statements the warehouse ran and the page are what they
    were; a dry run changes nothing. *)
Theorem build_propagation_plan_read_only (w : World)
    (parent_tag_name required_parent_tag column_name column_tag_name
       column_tag_value : string) (target_catalog target_schema : option string) :
  let w' := snd (build_propagation_plan parent_tag_name required_parent_tag column_name
                   column_tag_name column_tag_value target_catalog target_schema w) in
  same_store w w'
  /\ journal w' = journal w /\ committed w' = committed w
  /\ access_rows w' = access_rows w /\ audit_rows w' = audit_rows w.
Proof.
  intros w'.
  pose proof (read_only_plan parent_tag_name required_parent_tag column_name
                column_tag_name column_tag_value target_catalog target_schema w) as Hs.
  fold w' in Hs. split; [exact Hs|]. unfold same_store in Hs. tauto.
Qed.

Section ApplyRuns.

Lemma apply_loop_store (actions : list PropagationAction) : forall executed (w : World),
  let out := for_each actions
               (fun executed action =>
                  bind (execute_update (Sql (sql action)))
                    (fun _ => ret (executed ++ [sql action])%list))
               executed w in
  access_rows (snd out) = access_rows w
  /\ audit_rows (snd out) = audit_rows w
  /\ page (snd out) = page w
  /\ exists k, (k <= List.length actions)%nat
       /\ committed (snd out) = (committed w ++ firstn k (map sql actions))%list
       /\ journal (snd out)
          = (journal w ++ map (fun a => Sql (sql a)) (firstn k actions)
               ++ match fst out with
                  | Raise _ => map (fun a => Sql (sql a)) (firstn 1 (skipn k actions))
                  | Return _ => []
                  end)%list
       /\ (forall r, fst out = Return r -> k = List.length actions).
Proof.
  induction actions as [|a actions IH]; intros executed w.
  - cbn. repeat split. exists 0%nat. cbn. rewrite !app_nil_r. repeat split. lia.
  - cbn [for_each].
    destruct (bind (execute_update (Sql (sql a))) (fun _ => ret (executed ++ [sql a])%list) w)
      as [[ex|e] w1] eqn:Hstep.
    + specialize (IH ex w1). cbv zeta in IH.
      assert (Hw1 : access_rows w1 = access_rows w /\ audit_rows w1 = audit_rows w
                    /\ page w1 = page w
                    /\ committed w1 = (committed w ++ [sql a])%list
                    /\ journal w1 = (journal w ++ [Sql (sql a)])%list).
      { clear IH. unfold bind, execute_update, ret in Hstep.
        cbn [cursor_execute world_runtime] in Hstep. unfold run in Hstep.
        cbn [is_select] in Hstep.
        destruct w as [set usr tdy nw mem rows nid aud met com jou fts pg].
        cbn [faults with_journal] in Hstep.
        destruct fts as [|[e|] fts]; cbn in Hstep; inversion Hstep; subst; cbn;
          repeat split. }
      destruct Hw1 as (Ha & Hu & Hp & Hc & Hj).
      destruct IH as (Ia & Iu & Ip & k & Hk & Ic & Ij & Ir).
      cbv zeta. rewrite !(bind_return _ _ _ _ _ Hstep).
      split; [congruence|]. split; [congruence|]. split; [congruence|].
      exists (S k). split; [cbn [List.length]; lia|].
      split; [rewrite Ic, Hc, <- app_assoc; reflexivity|].
      split; [rewrite Ij, Hj, <- app_assoc; reflexivity|].
      intros r Hr. cbn [List.length]. f_equal. now apply (Ir r).
    + cbv zeta. rewrite !(bind_raise _ _ _ _ _ Hstep). cbn [fst snd].
      assert (Hw1 : access_rows w1 = access_rows w /\ audit_rows w1 = audit_rows w
                    /\ page w1 = page w
                    /\ committed w1 = committed w
                    /\ journal w1 = (journal w ++ [Sql (sql a)])%list).
      { unfold bind, execute_update, ret in Hstep.
        cbn [cursor_execute world_runtime] in Hstep. unfold run in Hstep.
        cbn [is_select] in Hstep.
        destruct w as [set usr tdy nw mem rows nid aud met com jou fts pg].
        cbn [faults with_journal] in Hstep.
        destruct fts as [|[e0|] fts]; cbn in Hstep; inversion Hstep; subst; cbn;
          repeat split. }
      destruct Hw1 as (Ha & Hu & Hp & Hc & Hj).
      split; [exact Ha|]. split; [exact Hu|]. split; [exact Hp|].
      exists 0%nat. split; [lia|]. cbn. rewrite app_nil_r.
      split; [exact Hc|]. split; [exact Hj|]. intros r Hr. discriminate.
Qed.

End ApplyRuns.

(** Property X17. [apply_propagation] writes no audit record and touches
    neither the access table nor the page, whatever the plan and the fault
    schedule. The warehouse runs a prefix of the plan's statements, in plan
    order and each once; the whole plan when the call returns. When the
    call raises, the journal shows one more statement submitted: the one
    that failed. *)
Theorem apply_propagation_unaudited (w : World) (actions : list PropagationAction) :
  let out := apply_propagation actions w in
  audit_rows (snd out) = audit_rows w
  /\ access_rows (snd out) = access_rows w
  /\ page (snd out) = page w
  /\ exists k, (k <= List.length actions)%nat
       /\ committed (snd out) = (committed w ++ firstn k (map sql actions))%list
       /\ journal (snd out)
          = (journal w ++ map (fun a => Sql (sql a)) (firstn k actions)
               ++ match fst out with
                  | Raise _ => map (fun a => Sql (sql a)) (firstn 1 (skipn k actions))
                  | Return _ => []
                  end)%list
       /\ (forall r, fst out = Return r -> k = List.length actions).
Proof.
  intros out. destruct (apply_loop_store actions [] w) as (Ha & Hu & Hp & k & Hk).
  split; [exact Hu|]. split; [exact Ha|]. split; [exact Hp|]. exists k. exact Hk.
Qed.

(* ================================================================== *)
(** * The tag manager *)
(* ================================================================== *)

Section TagGuard.
Context {W : Type} `{Runtime W}.

Lemma try_match_returns {A B} (m : M W A) (ok : B) (err : exn -> B) w :
  exists r w',
    bind (try_ m)
      (fun attempt =>
         match attempt with
         | inl _ => ret ok
         | inr exc => ret (err exc)
         end) w = (Return r, w').
Proof. unfold bind, try_. destruct (m w) as [[a|e] w']; unfold ret; eauto. Qed.

Lemma try_match_run {A B} (m : M W A) (ok : B) (err : exn -> B) w :
  bind (try_ m)
    (fun attempt =>
       match attempt with
       | inl _ => ret ok
       | inr exc => ret (err exc)
       end) w
  = (Return (match fst (m w) with Return _ => ok | Raise e => err e end), snd (m w)).
Proof. unfold bind, try_. destruct (m w) as [[a|e] w']; reflexivity. Qed.

(** Property X18. No function of the tag manager that changes a tag ever
    raises: each returns its pair. With a tag name that is no identifier
    each returns [False] with the message about invalid characters and
    calls nothing: the world is the one it was given. [True] is returned
    only for a tag name that is an identifier. *)
Theorem tag_functions_guarded (w : W)
    (catalog schema table column tag_name tag_value : string) :
  ((exists r w', apply_table_tag catalog schema table tag_name tag_value w = (Return r, w'))
   /\ (exists r w', remove_table_tag catalog schema table tag_name w = (Return r, w'))
   /\ (exists r w', apply_column_tag catalog schema table column tag_name tag_value w
                    = (Return r, w')))
  /\ (validate_identifier (Some tag_name) = false ->
      apply_table_tag catalog schema table tag_name tag_value w
      = (Return (false, "Tag name contains invalid characters."), w)
      /\ remove_table_tag catalog schema table tag_name w
         = (Return (false, "Tag name contains invalid characters."), w)
      /\ apply_column_tag catalog schema table column tag_name tag_value w
         = (Return (false, "Tag name contains invalid characters."), w))
  /\ (forall msg w',
        apply_table_tag catalog schema table tag_name tag_value w = (Return (true, msg), w')
        \/ remove_table_tag catalog schema table tag_name w = (Return (true, msg), w')
        \/ apply_column_tag catalog schema table column tag_name tag_value w
           = (Return (true, msg), w') ->
        validate_identifier (Some tag_name) = true).
Proof.
  unfold apply_table_tag, remove_table_tag, apply_column_tag.
  destruct (validate_identifier (Some tag_name)) eqn:E; cbn [negb].
  - split; [|split; [discriminate | reflexivity]].
    split; [|split]; apply try_match_returns.
  - unfold ret. split; [repeat split; eauto|]. split; [intros _; repeat split|].
    intros msg w' [Hc | [Hc | Hc]]; discriminate.
Qed.

End TagGuard.

Section TagRuns.

Lemma log_after_alter (w : World) (text action object_type object_name : string)
    (new_value : option string) (notes_of : string -> string) :
  let m := bind (execute_update (Sql text))
             (fun _ => bind (read get_current_user_email)
                (fun user => log_action action object_type object_name None new_value
                               (Some (notes_of user)))) in
  (faults w = [] ->
   fst (m w) = Return tt
   /\ committed (snd (m w)) = (committed w ++ [text])%list
   /\ audit_rows (snd (m w))
      = (audit_rows w ++ [logged w action object_type object_name new_value
                            (Some (notes_of (user_email w)))])%list
   /\ access_rows (snd (m w)) = access_rows w)
  /\ (forall e rest, faults w = None :: Some e :: rest ->
        fst (m w) = Raise e
        /\ committed (snd (m w)) = (committed w ++ [text])%list
        /\ audit_rows (snd (m w)) = audit_rows w)
  /\ (forall e rest, faults w = Some e :: rest ->
        fst (m w) = Raise e
        /\ committed (snd (m w)) = committed w
        /\ audit_rows (snd (m w)) = audit_rows w).
Proof.
  intros m. subst m.
  destruct w as [set usr tdy nw mem rows nid aud met com jou fts pg].
  unfold log_action, execute_update, bind, read, ret.
  cbn [cursor_execute get_settings get_current_user_email world_runtime].
  unfold run. cbn [faults is_select with_journal].
  split; [|split].
  - intros ->. cbn. repeat split.
  - intros e rest ->. cbn. repeat split.
  - intros e rest ->. cbn. repeat split.
Qed.

End TagRuns.

Section TagOutcomes.

Lemma set_table_tag_text catalog schema table tag_name tag_value :
  "ALTER TABLE " ++ (catalog ++ "." ++ schema ++ "." ++ table) ++ " SET TAGS ('"
  ++ tag_name ++ "' = '" ++ tag_value ++ "')"
  = set_table_tag_sql catalog schema table tag_name tag_value.
Proof.
  unfold set_table_tag_sql. now rewrite !append_assoc.
Qed.

Lemma unset_table_tag_text catalog schema table tag_name :
  "ALTER TABLE " ++ (catalog ++ "." ++ schema ++ "." ++ table) ++ " UNSET TAGS ('"
  ++ tag_name ++ "')"
  = unset_table_tag_sql catalog schema table tag_name.
Proof.
  unfold unset_table_tag_sql. now rewrite !append_assoc.
Qed.

Lemma set_column_tag_text catalog schema table column tag_name tag_value :
  "ALTER TABLE " ++ catalog ++ "." ++ schema ++ "." ++ table ++ " "
  ++ "ALTER COLUMN " ++ column ++ " SET TAGS ('" ++ tag_name ++ "' = '"
  ++ tag_value ++ "')"
  = set_column_tag_sql catalog schema table column tag_name tag_value.
Proof. reflexivity. Qed.

End TagOutcomes.

(** Property X19. With a tag name that is an identifier and no fault of the
    warehouse, each tag function returns [True] with its success message,
    the warehouse has run exactly its one ALTER statement, and one audit
    record of the change is written, with the session user in the notes. *)
Theorem tag_functions_succeed (w : World)
    (catalog schema table column tag_name tag_value : string) :
  validate_identifier (Some tag_name) = true ->
  faults w = [] ->
  let a := apply_table_tag catalog schema table tag_name tag_value w in
  let r := remove_table_tag catalog schema table tag_name w in
  let c := apply_column_tag catalog schema table column tag_name tag_value w in
  (fst a = Return (true, "Tag applied successfully.")
   /\ committed (snd a)
      = (committed w ++ [set_table_tag_sql catalog schema table tag_name tag_value])%list
   /\ audit_rows (snd a)
      = (audit_rows w
           ++ [logged w "TAG_APPLY" "TABLE_TAG" (catalog ++ "." ++ schema ++ "." ++ table)
                 (Some (tag_name ++ "=" ++ tag_value)%string)
                 (Some ("Applied by " ++ user_email w)%string)])%list)
  /\ (fst r = Return (true, "Tag removed successfully.")
      /\ committed (snd r)
         = (committed w ++ [unset_table_tag_sql catalog schema table tag_name])%list
      /\ audit_rows (snd r)
         = (audit_rows w
              ++ [logged w "TAG_REMOVE" "TABLE_TAG"
                    (catalog ++ "." ++ schema ++ "." ++ table)
                    (Some tag_name) (Some ("Removed by " ++ user_email w)%string)])%list)
  /\ (fst c = Return (true, "Tag applied successfully.")
      /\ committed (snd c)
         = (committed w
              ++ [set_column_tag_sql catalog schema table column tag_name tag_value])%list
      /\ audit_rows (snd c)
         = (audit_rows w
              ++ [logged w "TAG_APPLY" "COLUMN_TAG"
                    (catalog ++ "." ++ schema ++ "." ++ table ++ "." ++ column)
                    (Some (tag_name ++ "=" ++ tag_value)%string)
                    (Some ("Applied by " ++ user_email w)%string)])%list).
Proof.
  intros Hid Hf a r c. subst a r c.
  unfold apply_table_tag, remove_table_tag, apply_column_tag. rewrite Hid. cbn [negb].
  rewrite set_table_tag_text, unset_table_tag_text, set_column_tag_text.
  split; [|split].
  - destruct (proj1 (log_after_alter w
        (set_table_tag_sql catalog schema table tag_name tag_value)
        "TAG_APPLY" "TABLE_TAG" (catalog ++ "." ++ schema ++ "." ++ table)
        (Some (tag_name ++ "=" ++ tag_value)) (fun user => "Applied by " ++ user)) Hf)
      as (Hr & Hc & Ha & _).
    rewrite try_match_run. cbn [fst snd]. rewrite Hr. auto.
  - destruct (proj1 (log_after_alter w
        (unset_table_tag_sql catalog schema table tag_name)
        "TAG_REMOVE" "TABLE_TAG" (catalog ++ "." ++ schema ++ "." ++ table)
        (Some tag_name) (fun user => "Removed by " ++ user)) Hf)
      as (Hr & Hc & Ha & _).
    rewrite try_match_run. cbn [fst snd]. rewrite Hr. auto.
  - destruct (proj1 (log_after_alter w
        (set_column_tag_sql catalog schema table column tag_name tag_value)
        "TAG_APPLY" "COLUMN_TAG"
        (catalog ++ "." ++ schema ++ "." ++ table ++ "." ++ column)
        (Some (tag_name ++ "=" ++ tag_value)) (fun user => "Applied by " ++ user)) Hf)
      as (Hr & Hc & Ha & _).
    rewrite try_match_run. cbn [fst snd]. rewrite Hr. auto.
Qed.

(** Property X20. When the ALTER statement of a tag function goes through and
    the audit write after it fails, the function returns [False] with the
    error of the audit write, although the warehouse has run the ALTER
    statement: the tag is changed, the caller is told it was not, and no
    audit record exists. When the ALTER statement itself fails, nothing
    has run and nothing is recorded. *)
Theorem tag_functions_audit_fault (w : World)
    (catalog schema table column tag_name tag_value : string)
    (e : exn) (rest : list (option exn)) :
  validate_identifier (Some tag_name) = true ->
  faults w = None :: Some e :: rest \/ faults w = Some e :: rest ->
  let a := apply_table_tag catalog schema table tag_name tag_value w in
  let r := remove_table_tag catalog schema table tag_name w in
  let c := apply_column_tag catalog schema table column tag_name tag_value w in
  let ran (text : string) : list string :=
    match faults w with None :: _ => [text] | _ => [] end in
  (fst a = Return (false, "Error applying tag: " ++ str_of_exn e)
   /\ committed (snd a)
      = (committed w ++ ran (set_table_tag_sql catalog schema table tag_name tag_value))%list
   /\ audit_rows (snd a) = audit_rows w)
  /\ (fst r = Return (false, "Error removing tag: " ++ str_of_exn e)
      /\ committed (snd r)
         = (committed w ++ ran (unset_table_tag_sql catalog schema table tag_name))%list
      /\ audit_rows (snd r) = audit_rows w)
  /\ (fst c = Return (false, "Error applying tag: " ++ str_of_exn e)
      /\ committed (snd c)
         = (committed w
              ++ ran (set_column_tag_sql catalog schema table column tag_name
                        tag_value))%list
      /\ audit_rows (snd c) = audit_rows w).
Proof.
  intros Hid Hf a r c ran. subst a r c ran.
  unfold apply_table_tag, remove_table_tag, apply_column_tag. rewrite Hid. cbn [negb].
  rewrite set_table_tag_text, unset_table_tag_text, set_column_tag_text.
  split; [|split].
  - pose proof (log_after_alter w
        (set_table_tag_sql catalog schema table tag_name tag_value)
        "TAG_APPLY" "TABLE_TAG" (catalog ++ "." ++ schema ++ "." ++ table)
        (Some (tag_name ++ "=" ++ tag_value)) (fun user => "Applied by " ++ user))
      as (_ & Hlate & Hearly).
    rewrite try_match_run. cbn [fst snd].
    destruct Hf as [Hf | Hf]; rewrite Hf;
      [destruct (Hlate e rest Hf) as (Hr & Hc & Ha)
      | destruct (Hearly e rest Hf) as (Hr & Hc & Ha)];
      rewrite Hr, Hc, Ha, ?app_nil_r; auto.
  - pose proof (log_after_alter w
        (unset_table_tag_sql catalog schema table tag_name)
        "TAG_REMOVE" "TABLE_TAG" (catalog ++ "." ++ schema ++ "." ++ table)
        (Some tag_name) (fun user => "Removed by " ++ user))
      as (_ & Hlate & Hearly).
    rewrite try_match_run. cbn [fst snd].
    destruct Hf as [Hf | Hf]; rewrite Hf;
      [destruct (Hlate e rest Hf) as (Hr & Hc & Ha)
      | destruct (Hearly e rest Hf) as (Hr & Hc & Ha)];
      rewrite Hr, Hc, Ha, ?app_nil_r; auto.
  - pose proof (log_after_alter w
        (set_column_tag_sql catalog schema table column tag_name tag_value)
        "TAG_APPLY" "COLUMN_TAG"
        (catalog ++ "." ++ schema ++ "." ++ table ++ "." ++ column)
        (Some (tag_name ++ "=" ++ tag_value)) (fun user => "Applied by " ++ user))
      as (_ & Hlate & Hearly).
    rewrite try_match_run. cbn [fst snd].
    destruct Hf as [Hf | Hf]; rewrite Hf;
      [destruct (Hlate e rest Hf) as (Hr & Hc & Ha)
      | destruct (Hearly e rest Hf) as (Hr & Hc & Ha)];
      rewrite Hr, Hc, Ha, ?app_nil_r; auto.
Qed.

(* ================================================================== *)
(** * The filtered queries *)
(* ================================================================== *)

(** Property X21. The text that [get_access_rules] submits never holds a
    filter value: it depends only on which filters apply and on whether
    the status is "active" or "expired", and every value travels as a
    bound parameter, under a name of its own. A group name that is empty
    and a customer id that is 0 are no filter at all. *)
Theorem get_access_rules_query_text (settings : AppSettings) (f f' : rule_filters) :
  (given_str (filter_group_name f) = given_str (filter_group_name f') ->
   status_is (filter_status f) "active" = status_is (filter_status f') "active" ->
   status_is (filter_status f) "expired" = status_is (filter_status f') "expired" ->
   given_int (filter_customer_id f) = given_int (filter_customer_id f') ->
   fst (get_access_rules_query settings f) = fst (get_access_rules_query settings f'))
  /\ snd (get_access_rules_query settings f)
     = ((if given_str (filter_group_name f)
         then [("group_name", p_str (filter_group_name f))] else [])
        ++ match filter_customer_id f with
           | Some n => if n =? 0 then [] else [("customer_id", PInt n)]
           | None => []
           end)%list
  /\ (given_str (filter_group_name f) = false ->
      given_int (filter_customer_id f) = false ->
      get_access_rules_query settings f
      = get_access_rules_query settings
          {| filter_group_name := None; filter_status := filter_status f;
             filter_customer_id := None |}).
Proof.
  unfold get_access_rules_query. split; [|split].
  - intros Hg Ha He Hc. rewrite Hg, Ha, He, Hc.
    destruct (given_str (filter_group_name f')), (status_is (filter_status f') "active"),
      (status_is (filter_status f') "expired"), (given_int (filter_customer_id f'));
      reflexivity.
  - destruct (given_str (filter_group_name f)); destruct (filter_customer_id f) as [n|];
      cbn [given_int]; try destruct (n =? 0); cbn [negb];
      destruct (status_is (filter_status f) "active"),
        (status_is (filter_status f) "expired"); reflexivity.
  - intros Hg Hc. rewrite Hg, Hc. cbn [filter_group_name filter_customer_id filter_status
      given_str given_int].
    destruct (status_is (filter_status f) "active"),
      (status_is (filter_status f) "expired"); reflexivity.
Qed.

Section SidebarFacts.

Lemma strip_blank s : all_chars is_space s = true -> strip s = EmptyString.
Proof. intros Hs. apply is_empty_true. now apply blank_iff. Qed.

End SidebarFacts.

(** Property X22. The sidebar of the rules page: a group filter of white
    space only, and a customer id that reads as the integer 0, leave the
    query of [get_access_rules] as it is without them, so that every rule
    is listed; an input that is no integer gives the warning and no
    customer filter. *)
Theorem build_filters_blind_spots (settings : AppSettings)
    (group_filter customer_id_filter status_filter : string) :
  (all_chars is_space group_filter = true ->
   get_access_rules_query settings
     (fst (_build_filters group_filter customer_id_filter status_filter))
   = get_access_rules_query settings
       (fst (_build_filters EmptyString customer_id_filter status_filter)))
  /\ (int_of_str customer_id_filter = inl 0 ->
      get_access_rules_query settings
        (fst (_build_filters group_filter customer_id_filter status_filter))
      = get_access_rules_query settings
          (fst (_build_filters group_filter EmptyString status_filter))
      /\ snd (_build_filters group_filter customer_id_filter status_filter) = None)
  /\ (forall msg, is_empty customer_id_filter = false ->
        int_of_str customer_id_filter = inr msg ->
        _build_filters group_filter customer_id_filter status_filter
        = (fst (_build_filters group_filter EmptyString status_filter),
           Some "Customer ID must be an integer.")).
Proof.
  split; [|split].
  - intros Hg. unfold _build_filters.
    destruct (is_empty group_filter) eqn:Eg.
    + apply is_empty_true in Eg. now subst.
    + rewrite (strip_blank _ Hg). cbn [is_empty].
      destruct (is_empty customer_id_filter);
        [|destruct (int_of_str customer_id_filter)];
        cbn [fst]; unfold get_access_rules_query;
        cbn [filter_group_name filter_status filter_customer_id given_str is_empty negb];
        reflexivity.
  - intros Hc. unfold _build_filters. rewrite Hc.
    destruct (is_empty customer_id_filter) eqn:Ec.
    + apply is_empty_true in Ec. subst. split; reflexivity.
    + cbn [is_empty fst snd]. split; [|reflexivity].
      unfold get_access_rules_query.
      cbn [filter_group_name filter_status filter_customer_id given_int Z.eqb negb].
      reflexivity.
  - intros msg Hne Hc. unfold _build_filters. rewrite Hne, Hc. reflexivity.
Qed.

Section PlaceholderFacts.

Lemma str_of_int_injective i j : 0 <= i -> 0 <= j -> str_of_int i = str_of_int j -> i = j.
Proof.
  intros _ _ Heq. pose proof (int_literal_str_of_int i) as Ei.
  rewrite Heq, int_literal_str_of_int in Ei. now injection Ei.
Qed.

Lemma placeholder_keys actions : forall idx k,
  In k (map fst (snd (action_placeholders idx actions))) ->
  exists i, idx <= i /\ k = "action_type_" ++ str_of_int i.
Proof.
  induction actions as [|a actions IH]; intros idx k Hk; [destruct Hk|].
  cbn [action_placeholders] in Hk.
  destruct (action_placeholders (idx + 1) actions) as [ph ps] eqn:E.
  cbn [snd map fst] in Hk. destruct Hk as [<- | Hk].
  - exists idx. split; [lia | reflexivity].
  - specialize (IH (idx + 1) k). rewrite E in IH. destruct (IH Hk) as (i & Hi & ->).
    exists i. split; [lia | reflexivity].
Qed.

Lemma placeholder_keys_nodup actions : forall idx,
  0 <= idx -> NoDup (map fst (snd (action_placeholders idx actions))).
Proof.
  induction actions as [|a actions IH]; intros idx Hidx; [constructor|].
  cbn [action_placeholders].
  pose proof (placeholder_keys actions (idx + 1)) as Hkeys.
  specialize (IH (idx + 1) ltac:(lia)).
  destruct (action_placeholders (idx + 1) actions) as [ph ps].
  cbn [snd map fst] in *. constructor; [|exact IH].
  intros Hin. destruct (Hkeys _ Hin) as (i & Hi & Heq).
  cbn [append] in Heq. injection Heq as Heq.
  apply str_of_int_injective in Heq; lia.
Qed.

Lemma placeholder_shape actions : forall idx,
  fst (action_placeholders idx actions)
  = map (fun kv => String ":" (fst kv)) (snd (action_placeholders idx actions))
  /\ map snd (snd (action_placeholders idx actions)) = map PStr actions.
Proof.
  induction actions as [|a actions IH]; intros idx; [split; reflexivity|].
  cbn [action_placeholders]. specialize (IH (idx + 1)).
  destruct (action_placeholders (idx + 1) actions) as [ph ps].
  cbn [fst snd map] in *. destruct IH as [-> ->]. split; reflexivity.
Qed.

Lemma placeholder_text actions : forall actions' idx,
  List.length actions = List.length actions' ->
  fst (action_placeholders idx actions) = fst (action_placeholders idx actions').
Proof.
  induction actions as [|a actions IH]; intros [|a' actions'] idx Hlen;
    try discriminate; [reflexivity|].
  cbn [action_placeholders]. injection Hlen as Hlen.
  specialize (IH actions' (idx + 1) Hlen).
  destruct (action_placeholders (idx + 1) actions) as [ph ps].
  destruct (action_placeholders (idx + 1) actions') as [ph' ps'].
  cbn [fst] in *. now rewrite IH.
Qed.

(** The parameter names of [get_audit_log], filter by filter. *)
Lemma audit_parameter_names settings f :
  map fst (snd (get_audit_log_query settings f))
  = ((if given_date (filter_start_date f) then ["start_date"] else [])
     ++ (if given_date (filter_end_date f) then ["end_date"] else [])
     ++ (if given_str (filter_user f) then ["user"] else [])
     ++ (if given_list (filter_action_type f)
         then map fst (snd (action_placeholders 0
                              (match filter_action_type f with
                               | Some l => l | None => [] end)))
         else [])
     ++ (if given_str (filter_object_type f) then ["object_type"] else []))%list.
Proof.
  unfold get_audit_log_query.
  destruct (action_placeholders 0 _) as [ph ps].
  destruct (given_date (filter_start_date f)), (given_date (filter_end_date f)),
    (given_str (filter_user f)), (given_list (filter_action_type f)),
    (given_str (filter_object_type f)); cbn [fst snd map app];
    rewrite ?map_app; cbn [map fst app]; rewrite <- ?app_assoc, ?app_nil_r; reflexivity.
Qed.

Lemma nodup_around (xs keys ys : list string) :
  NoDup keys ->
  (forall k, In k keys -> String.prefix "action_type_" k = true) ->
  NoDup (xs ++ ys) ->
  forallb (fun k => negb (String.prefix "action_type_" k)) (xs ++ ys) = true ->
  NoDup (xs ++ keys ++ ys).
Proof.
  intros Hk Hp Hx Hf.
  apply (Permutation_NoDup (l := (keys ++ xs ++ ys)%list)).
  - apply Permutation_app_swap_app.
  - apply NoDup_app; [exact Hk | exact Hx|].
    intros k Hin Hin'. rewrite forallb_forall in Hf. specialize (Hf k Hin').
    rewrite (Hp k Hin) in Hf. discriminate.
Qed.

End PlaceholderFacts.

(** Property X23. In the query of [get_audit_log] every filter value is a
    bound parameter and no two parameters share a name, so that the
    dictionary holds them all. The IN list names one parameter for each
    action, in order, each bound to its action. The text holds no filter
    value: it depends only on which filters are given and on the number
    of actions. *)
Theorem get_audit_log_query_parameters (settings : AppSettings) (f f' : audit_filters) :
  NoDup (map fst (snd (get_audit_log_query settings f)))
  /\ (forall actions,
        filter_action_type f = Some actions ->
        fst (action_placeholders 0 actions)
        = map (fun kv => String ":" (fst kv)) (snd (action_placeholders 0 actions))
        /\ map snd (snd (action_placeholders 0 actions)) = map PStr actions
        /\ incl (snd (action_placeholders 0 actions))
             (snd (get_audit_log_query settings f)))
  /\ (given_date (filter_start_date f) = given_date (filter_start_date f') ->
      given_date (filter_end_date f) = given_date (filter_end_date f') ->
      given_str (filter_user f) = given_str (filter_user f') ->
      given_str (filter_object_type f) = given_str (filter_object_type f') ->
      List.length (match filter_action_type f with Some l => l | None => [] end)
      = List.length (match filter_action_type f' with Some l => l | None => [] end) ->
      fst (get_audit_log_query settings f) = fst (get_audit_log_query settings f')).
Proof.
  split; [|split].
  - rewrite audit_parameter_names.
    set (actions := match filter_action_type f with Some l => l | None => [] end).
    pose proof (placeholder_keys_nodup actions 0 ltac:(lia)) as Hnd.
    pose proof (placeholder_keys actions 0) as Hkeys.
    set (keys := map fst (snd (action_placeholders 0 actions))) in *.
    match goal with
    | |- NoDup (?A ++ ?B ++ ?C ++ ?K ++ ?O) =>
        replace (A ++ B ++ C ++ K ++ O)%list with ((A ++ B ++ C) ++ K ++ O)%list
          by (rewrite <- !app_assoc; reflexivity)
    end.
    apply nodup_around.
    + destruct (given_list (filter_action_type f)); [exact Hnd | constructor].
    + intros k Hk. destruct (given_list (filter_action_type f)); [|destruct Hk].
      destruct (Hkeys k Hk) as (i & _ & ->). apply prefix_append.
    + destruct (given_date (filter_start_date f)), (given_date (filter_end_date f)),
        (given_str (filter_user f)), (given_str (filter_object_type f)); cbn [app];
        repeat constructor; cbn [In]; intuition discriminate.
    + destruct (given_date (filter_start_date f)), (given_date (filter_end_date f)),
        (given_str (filter_user f)), (given_str (filter_object_type f)); reflexivity.
  - intros actions Hf. destruct (placeholder_shape actions 0) as [H1 H2].
    split; [exact H1|]. split; [exact H2|].
    unfold get_audit_log_query. rewrite Hf.
    destruct actions as [|a actions]; [intros x []|].
    cbn [given_list].
    destruct (action_placeholders 0 (a :: actions)) as [ph ps]. cbn [snd].
    destruct (given_date (filter_start_date f)), (given_date (filter_end_date f)),
      (given_str (filter_user f)), (given_str (filter_object_type f)); cbn [snd];
      intros x Hx; repeat (apply in_or_app; first [now right | left]); try exact Hx;
      (apply in_or_app; now right).
  - intros Hs He Hu Ho Hlen. unfold get_audit_log_query.
    rewrite Hs, He, Hu, Ho.
    assert (Hgl : given_list (filter_action_type f) = given_list (filter_action_type f')).
    { destruct (filter_action_type f) as [[|a l]|], (filter_action_type f') as [[|a' l']|];
        try reflexivity; discriminate. }
    rewrite Hgl.
    pose proof (placeholder_text _ _ 0 Hlen) as Hph.
    destruct (action_placeholders 0
                (match filter_action_type f with Some l => l | None => [] end)) as [ph ps].
    destruct (action_placeholders 0
                (match filter_action_type f' with Some l => l | None => [] end))
      as [ph' ps'].
    cbn [fst] in Hph. subst ph'.
    destruct (given_date (filter_start_date f')), (given_date (filter_end_date f')),
      (given_str (filter_user f')), (given_list (filter_action_type f')),
      (given_str (filter_object_type f')); reflexivity.
Qed.

(* ================================================================== *)
(** * The pages *)
(* ================================================================== *)

Section AddFormFacts.

Lemma parse_parts_shape parts : forall acc,
  fst (parse_parts parts acc) = true ->
  exists ids, parse_parts parts acc = (true, inl ids).
Proof.
  induction parts as [|p rest IH]; intros acc; cbn [parse_parts].
  - intros _. eexists. reflexivity.
  - destruct (is_empty (strip p)); [apply IH|].
    destruct (contains "-" (strip p)).
    + destruct (splitn "-" (strip p) 1) as [|a [|b [|? ?]]];
        try (unfold format_error; discriminate).
      destruct (int_of_str (strip a)); [|unfold format_error; discriminate].
      destruct (int_of_str (strip b)); [|unfold format_error; discriminate].
      destruct (_ <? _); [discriminate | apply IH].
    + destruct (int_of_str (strip p)); [apply IH | unfold format_error; discriminate].
Qed.

Lemma parse_shape s :
  fst (parse_customer_ids s) = true -> exists ids, parse_customer_ids s = (true, inl ids).
Proof.
  unfold parse_customer_ids. destruct (_ || _); [intros _; now exists [] |].
  apply parse_parts_shape.
Qed.

Lemma app_one_not_nil {A} (l : list A) (x : A) : (l ++ [x])%list <> [].
Proof. destruct l; discriminate. Qed.

Lemma add_form_errors_none group_name ids_input eff exp :
  add_form_errors group_name ids_input eff exp = []
  <-> is_empty group_name = false
      /\ fst (parse_customer_ids ids_input) = true
      /\ fst (validate_dates eff exp) = true.
Proof.
  unfold add_form_errors.
  destruct (parse_customer_ids ids_input) as [ids_valid ids_value].
  destruct (validate_dates eff exp) as [date_valid date_error]. cbn [fst].
  destruct (is_empty group_name), ids_valid, date_valid; cbn [app];
    split; try (intros (? & ? & ?)); try discriminate; try (now repeat split);
    intros Hnil; exfalso;
    try (exact (app_one_not_nil _ _ Hnil)).
Qed.

Lemma errors_shown (errors : list string) : forall w : World,
  for_each errors (fun _ error => write (st_error error)) tt w
  = (Return tt, with_page w (page w ++ errors)).
Proof.
  induction errors as [|e errors IH]; intros w.
  - cbn [for_each]. unfold ret. rewrite app_nil_r. now destruct w.
  - cbn [for_each]. unfold bind, write. rewrite IH.
    cbn [st_error world_runtime]. f_equal. unfold with_page. cbn.
    now rewrite <- app_assoc.
Qed.

Lemma validate_dates_ok eff exp :
  fst (validate_dates eff exp) = true ->
  match exp with Some x => eff < x | None => True end.
Proof.
  unfold validate_dates. destruct exp as [x|]; [|tauto].
  destruct (Z.leb_spec x eff); [discriminate | intros _; lia].
Qed.

End AddFormFacts.

(** Property X24. The Save handler of the add form. When a check fails it
    shows one error for each failed check and calls nothing else: the
    store stays as it is. When every check passes and the warehouse does
    not fault, exactly one rule is appended: its group is the trimmed
    group name, its expiration date is NULL or after its effective date,
    and its ids are the parsed ids, non-negative and ascending, or NULL
    when there is none; the success message is shown. A group name of
    white space only passes the required check and is stored as the empty
    name. *)
Theorem add_form_submitted_outcomes (w : World)
    (group_name customer_ids_input access_type : string)
    (effective_date : Z) (expiration_date : option Z) (notes : string) :
  let errors :=
    add_form_errors group_name customer_ids_input effective_date expiration_date in
  let out := add_form_submitted group_name customer_ids_input access_type
               effective_date expiration_date notes w in
  (errors <> [] -> out = (Return tt, with_page w (page w ++ errors)))
  /\ (errors = [] -> faults w = [] ->
      exists ids,
        parse_customer_ids customer_ids_input = (true, inl ids)
        /\ fst out = Return tt
        /\ access_rows (snd out)
           = (access_rows w
                ++ [added_rule w (strip group_name) ids access_type effective_date
                      expiration_date (Some notes)])%list
        /\ page (snd out) = (page w ++ ["Access rule added successfully."])%list
        /\ customer_ids (added_rule w (strip group_name) ids access_type effective_date
                           expiration_date (Some notes))
           = match ids with [] => None | _ => Some ids end
        /\ Forall (fun i => 0 <= i) ids
        /\ StronglySorted Z.lt ids
        /\ match expiration_date with Some x => effective_date < x | None => True end)
  /\ (is_empty group_name = false -> all_chars is_space group_name = true ->
      fst (parse_customer_ids customer_ids_input) = true ->
      fst (validate_dates effective_date expiration_date) = true ->
      errors = [] /\ strip group_name = EmptyString).
Proof.
  intros errors out. split; [|split].
  - intros Hne. subst out. unfold add_form_submitted. fold errors.
    destruct errors as [|e rest] eqn:E; [congruence|]. apply errors_shown.
  - intros Hnil Hf. pose proof Hnil as Hok. unfold errors in Hok.
    apply add_form_errors_none in Hok as (Hg & Hp & Hd).
    destruct (parse_shape _ Hp) as (ids & Eparse).
    exists ids. split; [exact Eparse|].
    pose proof (parse_success_nonneg _ _ Eparse) as Hpos.
    pose proof (parse_success_ascending _ _ Eparse) as Hasc.
    subst out. unfold add_form_submitted. fold errors. rewrite Hnil, Eparse. cbn [snd].
    destruct (add_run w (strip group_name) ids access_type effective_date expiration_date
                (Some notes) Hf) as (Hr & Hrows & _ & _ & Hpage).
    destruct (add_access_rule (strip group_name) ids access_type effective_date
                expiration_date (Some notes) w) as [o w1] eqn:Eadd.
    cbn [fst snd] in Hr, Hrows, Hpage. subst o.
    rewrite !(bind_return _ _ _ _ _ Eadd). unfold bind, write.
    cbn [fst snd st_success st_rerun world_page page access_rows with_page].
    split; [reflexivity|]. split; [exact Hrows|]. split; [now rewrite Hpage|].
    split.
    + unfold added_rule. cbn [customer_ids]. unfold normalize_customer_ids.
      rewrite (sorted_set_fixed ids Hasc). now destruct ids.
    + split; [exact Hpos|]. split; [exact Hasc|]. now apply validate_dates_ok.
  - intros Hg Hblank Hp Hd. split.
    + apply add_form_errors_none. now repeat split.
    + now apply strip_blank.
Qed.

Section MaskFacts.

Lemma kept_true m : kept m = true <-> m = Some true.
Proof. destruct m as [[]|]; cbn; intuition congruence. Qed.

Lemma current_mask_window today_ r :
  kept (current_mask today_ r) = true <-> in_window today_ r.
Proof.
  unfold current_mask, in_window.
  rewrite kept_true, sql_and_true, !window_from_true.
  destruct (effective_date r), (expiration_date r);
    rewrite ?Z.leb_le, ?Z.ltb_lt; tauto.
Qed.

Lemma expired_mask_range today_ r :
  kept (expired_mask today_ r) = true
  <-> exists d, expiration_date r = Some d /\ today_ - 60 <= d <= today_.
Proof.
  unfold expired_mask. rewrite kept_true, !sql_and_true.
  destruct (expiration_date r) as [d|]; cbn [is_null sql_not option_map negb].
  - split.
    + intros [[_ H1] H2]. injection H1 as H1. injection H2 as H2.
      apply Z.leb_le in H1, H2. exists d. split; [reflexivity | lia].
    + intros (x & [= <-] & H1 & H2). repeat split; f_equal;
        apply Z.leb_le; assumption.
  - split; [intros [[H _] _]; discriminate | intros (x & Hx & _); discriminate].
Qed.

End MaskFacts.

(** Property X25. The access matrix shows a rule as current exactly when the
    rule is inside its date window, which is the window test of the row
    filter: every rule that grants a customer is shown as current. It
    shows a rule as expired exactly when the expiration date is set and
    lies in the last sixty days, today included; no rule is in both
    lists. *)
Theorem access_matrix_lists (today_ : Z) (rules : list AccessRule) (r : AccessRule) :
  (In r (current_rules today_ rules) <-> In r rules /\ in_window today_ r)
  /\ (In r (expired_rules today_ rules)
      <-> In r rules
          /\ exists d, expiration_date r = Some d /\ today_ - 60 <= d <= today_)
  /\ ~ (In r (current_rules today_ rules) /\ In r (expired_rules today_ rules))
  /\ (forall w customer_id,
        today w = today_ -> In r rules -> grants w r customer_id ->
        In r (current_rules today_ rules)).
Proof.
  unfold current_rules, expired_rules. rewrite !filter_In.
  rewrite current_mask_window, expired_mask_range.
  split; [tauto|]. split; [tauto|]. split.
  - intros [[_ Hw] [_ (d & Hd & _ & Hle)]]. unfold in_window in Hw. destruct Hw as [_ Hw].
    rewrite Hd in Hw. lia.
  - intros w c Ht Hin Hg. unfold grants in Hg. destruct Hg as (_ & Hw & _).
    apply filter_In. split; [exact Hin|]. apply current_mask_window. now rewrite <- Ht.
Qed.

Section MetricFacts.

Lemma active_kept today_ r :
  kept (active_mask today_ r)
  = match expiration_date r with Some d => today_ <? d | None => true end.
Proof.
  unfold active_mask. destruct (expiration_date r) as [d|]; [|reflexivity].
  cbn. now destruct (today_ <? d).
Qed.

Lemma expiring_kept today_ r :
  kept (expiring_mask today_ r)
  = match expiration_date r with Some d => d <=? today_ + 7 | None => false end.
Proof.
  unfold expiring_mask. destruct (expiration_date r) as [d|]; [|reflexivity].
  cbn. now destruct (d <=? today_ + 7).
Qed.

Lemma metric_counts today_ rules :
  Z.of_nat (List.length (filter (fun r => kept (expiring_mask today_ r)) rules))
  = (Z.of_nat (List.length rules)
     - Z.of_nat (List.length (filter (fun r => kept (active_mask today_ r)) rules)))
    + Z.of_nat (List.length
                  (filter (fun r => match expiration_date r with
                                    | Some d => (today_ <? d) && (d <=? today_ + 7)
                                    | None => false
                                    end) rules))
  /\ 0 <= Z.of_nat (List.length (filter (fun r => kept (active_mask today_ r)) rules))
       <= Z.of_nat (List.length rules).
Proof.
  induction rules as [|r rules IH]; [cbn; lia|].
  cbn [filter]. rewrite (active_kept today_ r), (expiring_kept today_ r).
  destruct (expiration_date r) as [d|].
  - destruct (Z.ltb_spec today_ d), (Z.leb_spec d (today_ + 7));
      cbn [andb List.length]; rewrite ?Nat2Z.inj_succ; lia.
  - cbn [List.length]. rewrite ?Nat2Z.inj_succ. lia.
Qed.

End MetricFacts.

(** Property X26. The three metrics of the rules page: the number of active
    rules lies between 0 and the total, and the number shown as expiring
    within seven days is the number of rules that are no longer active
    plus the number of active rules whose expiration date is at most seven
    days ahead; a rule that has already expired counts as expiring soon. *)
Theorem render_metrics_counts (today_ : Z) (rules : list AccessRule) :
  let '(total_rules, active_count, expiring_soon) := _render_metrics today_ rules in
  total_rules = Z.of_nat (List.length rules)
  /\ 0 <= active_count <= total_rules
  /\ expiring_soon
     = (total_rules - active_count)
       + Z.of_nat (List.length
                     (filter (fun r => match expiration_date r with
                                       | Some d => (today_ <? d) && (d <=? today_ + 7)
                                       | None => false
                                       end) rules)).
Proof.
  pose proof (metric_counts today_ rules) as Hm.
  unfold _render_metrics. destruct rules as [|r rules]; [cbn; lia|].
  split; [reflexivity|]. split; [apply Hm | apply Hm].
Qed.

(* ================================================================== *)
(** * Further worked examples *)
(* ================================================================== *)

Section FurtherWitnesses.
Import Sample.

(** The tag name [rls_type] is accepted and holds no quote. *)
Lemma validate_identifier_accepts_witness :
  contains "'" "rls_type" = false /\ contains "`" "rls_type" = false.
Proof.
  destruct (proj2 (validate_identifier_accepts (Some "rls_type")) "rls_type"
              eq_refl eq_refl) as (H1 & H2 & _).
  split; assumption.
Defined.

(** "-3" is rejected; what "2, 1" parses to is not negative. *)
Lemma parse_customer_ids_never_negative_witness :
  fst (parse_customer_ids (str_of_int (- 3))) = false
  /\ Forall (fun i => 0 <= i) [1; 2].
Proof.
  split.
  - apply (proj2 parse_customer_ids_never_negative 3). lia.
  - apply (proj1 parse_customer_ids_never_negative "2, 1"). reflexivity.
Defined.

(** The edit form of the first rule of [world_with_two_rules]. *)
Lemma edit_form_round_trip_witness :
  parse_customer_ids "1, 2" = (true, inl [1; 2]).
Proof.
  apply (proj1 (edit_form_round_trip
                  {| id := 1; group_name := "analysts"; customer_ids := Some [1; 2];
                     access_type := "INCLUDE"; effective_date := Some 738000;
                     expiration_date := Some 739001; notes := None;
                     created_by := "ana@example.com"; created_at := 1;
                     modified_by := "ana@example.com"; modified_at := 1 |})
           "2,1" [1; 2]); reflexivity.
Defined.

(** A name with a back quote in it, followed by a period. *)
Lemma quote_fqn_reads_back_witness :
  exists body, _quote_identifier "a`b" ++ "." = String "`" body
               /\ read_quoted "`" body = Some ("a`b", ".").
Proof. apply (proj1 quote_fqn_reads_back "a`b" "."). reflexivity. Defined.

(** A value with a quote in it, inside the parentheses of SET TAGS. *)
Lemma escape_sql_string_reads_back_witness :
  read_quoted "'" (_escape_sql_string "it's" ++ "')") = Some ("it's", ")").
Proof. apply (escape_sql_string_reads_back "it's" ")"). reflexivity. Defined.

(** A forwarded header wins; two failing reads give "unknown". *)
Lemma get_current_user_email_total_witness :
  Session.get_current_user_email
    (Return (Some (fun key => if String.eqb key "X-Forwarded-Email"
                              then Some "ana@example.com" else None)))
    (Return Session.UserOther) = "ana@example.com"
  /\ Session.get_current_user_email (Raise outage) (Raise outage) = "unknown".
Proof.
  split.
  - eapply (proj1 (proj2 (get_current_user_email_total _ _))); reflexivity.
  - eapply (proj2 (proj2 (get_current_user_email_total _ _))); reflexivity.
Defined.

(** Customer 42 passes through the blanket rule, and still does when a
    rule for other customers is added. *)
Lemma customer_access_filter_grants_witness :
  customer_access_filter
    (with_access world_with_blanket_exclude
       (access_rows world_with_blanket_exclude ++ access_rows world_with_two_rules) 4)
    42 = true.
Proof.
  apply (proj2 (customer_access_filter_grants world_with_blanket_exclude 42)).
  reflexivity.
Defined.


(** Expiring rule 1, which would have expired tomorrow. *)
Lemma expire_access_rule_effect_witness :
  fst (expire_access_rule 1 world_with_two_rules) = Return true
  /\ List.length (access_rows (snd (expire_access_rule 1 world_with_two_rules)))
     = List.length (access_rows world_with_two_rules).
Proof.
  pose proof (expire_access_rule_effect world_with_two_rules 1 eq_refl) as H.
  split; [exact (proj1 H) | exact (proj1 (proj2 (proj2 H)))].
Defined.

(** Expiring and deleting rule 1 leaves rule 2 alone, and the delete
    reports no success. *)
Lemma expire_then_delete_removes_rule_witness :
  fst (delete_access_rule 1 (snd (expire_access_rule 1 world_with_two_rules)))
  = Return false
  /\ map id (access_rows
               (snd (delete_access_rule 1
                       (snd (expire_access_rule 1 world_with_two_rules)))))
     = [2].
Proof.
  pose proof (expire_then_delete_removes_rule world_with_two_rules 1 eq_refl) as H.
  cbv zeta in H. destruct H as (Hr & Hrows & _). split.
  - exact Hr.
  - rewrite Hrows. reflexivity.
Defined.


(** A tag name with a space in it is refused before anything is called. *)
Lemma tag_functions_guarded_witness :
  apply_table_tag "main" "sales" "orders" "rls type" "A" world
  = (Return (false, "Tag name contains invalid characters."), world).
Proof.
  apply (proj1 (proj2 (tag_functions_guarded world "main" "sales" "orders" "customer_id"
                         "rls type" "A"))).
  reflexivity.
Defined.

(** Tagging [main.sales.orders] in the sample warehouse. *)
Lemma tag_functions_succeed_witness :
  fst (apply_table_tag "main" "sales" "orders" "rls_type" "A" world)
  = Return (true, "Tag applied successfully.")
  /\ committed (snd (apply_table_tag "main" "sales" "orders" "rls_type" "A" world))
     = ["ALTER TABLE main.sales.orders SET TAGS ('rls_type' = 'A')"].
Proof.
  pose proof (tag_functions_succeed world "main" "sales" "orders" "customer_id"
                "rls_type" "A" eq_refl eq_refl) as H.
  cbv zeta in H. destruct H as ((Hr & Hc & _) & _). split; [exact Hr | exact Hc].
Defined.

(** The audit write fails after the ALTER statement has run. *)
Lemma tag_functions_audit_fault_witness :
  fst (apply_table_tag "main" "sales" "orders" "rls_type" "A" second_fails)
  = Return (false, "Error applying tag: SQL connection failed using OAuth.")
  /\ committed (snd (apply_table_tag "main" "sales" "orders" "rls_type" "A" second_fails))
     = ["ALTER TABLE main.sales.orders SET TAGS ('rls_type' = 'A')"]
  /\ audit_rows (snd (apply_table_tag "main" "sales" "orders" "rls_type" "A" second_fails))
     = [].
Proof.
  pose proof (tag_functions_audit_fault second_fails "main" "sales" "orders" "customer_id"
                "rls_type" "A" outage [] eq_refl (or_introl eq_refl)) as H.
  cbv zeta in H. exact (proj1 H).
Defined.

(** Two group filters give one text. *)
Lemma get_access_rules_query_text_witness :
  fst (get_access_rules_query app_settings
         {| filter_group_name := Some "analysts"; filter_status := Some "active";
            filter_customer_id := Some 7 |})
  = fst (get_access_rules_query app_settings
           {| filter_group_name := Some "x' OR '1'='1"; filter_status := Some "active";
              filter_customer_id := Some 8 |}).
Proof.
  apply (proj1 (get_access_rules_query_text app_settings _ _)); reflexivity.
Defined.

(** The customer filter "0" lists what no customer filter lists. *)
Lemma build_filters_blind_spots_witness :
  get_access_rules_query app_settings (fst (_build_filters "analysts" "0" "all"))
  = get_access_rules_query app_settings (fst (_build_filters "analysts" EmptyString "all")).
Proof.
  apply (proj1 (proj2 (build_filters_blind_spots app_settings "analysts" "0" "all"))).
  reflexivity.
Defined.

(** Two actions: two placeholders, two parameters. *)
Lemma get_audit_log_query_parameters_witness :
  fst (action_placeholders 0 ["INSERT"; "DELETE"]) = [":action_type_0"; ":action_type_1"]
  /\ map snd (snd (action_placeholders 0 ["INSERT"; "DELETE"]))
     = [PStr "INSERT"; PStr "DELETE"].
Proof.
  destruct (proj1 (proj2 (get_audit_log_query_parameters app_settings
              {| filter_start_date := None; filter_end_date := None; filter_user := None;
                 filter_action_type := Some ["INSERT"; "DELETE"];
                 filter_object_type := None |}
              {| filter_start_date := None; filter_end_date := None; filter_user := None;
                 filter_action_type := None; filter_object_type := None |}))
             ["INSERT"; "DELETE"] eq_refl) as (H1 & H2 & _).
  split; [rewrite H1; reflexivity | exact H2].
Defined.

(** A group name of one space is saved as the empty name; an empty one
    is refused on the page. *)
Lemma add_form_submitted_outcomes_witness :
  (exists ids,
      parse_customer_ids "4-6" = (true, inl ids)
      /\ access_rows (snd (add_form_submitted " " "4-6" "INCLUDE" 738000 None "n" world))
         = [added_rule world EmptyString ids "INCLUDE" 738000 None (Some "n")])
  /\ add_form_submitted EmptyString "4-6" "INCLUDE" 738000 (Some 738000) "n" world
     = (Return tt,
        with_page world
          ["Group name is required."; "Expiration date must be after effective date."]).
Proof.
  split.
  - destruct (proj1 (proj2 (add_form_submitted_outcomes world " " "4-6" "INCLUDE" 738000
                             None "n")) eq_refl eq_refl) as (ids & Hp & _ & Hrows & _).
    exists ids. split; [exact Hp | exact Hrows].
  - apply (proj1 (add_form_submitted_outcomes world EmptyString "4-6" "INCLUDE" 738000
                    (Some 738000) "n")).
    discriminate.
Defined.

(** The rule that grants customer 42 is listed as current. *)
Lemma access_matrix_lists_witness :
  In blanket_exclude (current_rules 739000 [blanket_exclude]).
Proof.
  apply (proj2 (proj2 (proj2 (access_matrix_lists 739000 [blanket_exclude]
                                blanket_exclude))) world_with_blanket_exclude 42).
  - reflexivity.
  - now left.
  - repeat split; cbn; try lia. right. now left.
Defined.

End FurtherWitnesses.
